(** * SymTable: chained hash table with dynamic growth, and its list variant

    A shallow embedding of [symtablehash.c] (the "enhanced" revision with
    load-factor triggered resizing) and of [symtablelist.c], followed by the
    properties of the two implementations.

    Conventions of the embedding.
    - Pointers are integers ([ptr]); [NULL] is [0].  The opaque values stored
      in the table and the [pvExtra] context of [SymTable_map] are pointers.
    - A key is the character sequence of a NUL-terminated C string, i.e. a
      [string] (the terminator itself is not part of it).
    - [unsigned int] is 32 bits wide and [size_t] 64 bits wide (LP64); every
      arithmetic operation of the source on these types is followed by its
      wrap-around.
    - Whether plain [char] is signed is implementation defined; the
      development is parametric in it ([char_is_signed]).
    - A collision chain (a NULL-terminated singly linked list of nodes) is the
      list of its nodes from the head; a node carries its own address, the
      address of its owned key copy, the key and the value.
    - The results of [malloc]/[calloc] are inputs of the operation that calls
      them; a [NULL] result is an allocation failure.
    - [assert] is active (the Makefile does not define NDEBUG): an operation
      whose assertion fails aborts, which is the result [None].  The
      assertions on the table and on the key hold by typing.
    - The bucket array is the list of its chains; [buckets[i]] is the total
      lookup [buckets !!! i].  Under the structural invariant every index
      the code computes is in range ([inv_index_lt]). *)

From Stdlib Require Import ZArith QArith_base Lia String Ascii.
From stdpp Require Import base numbers list strings.

Local Open Scope Z_scope.

(** ** C scalar types *)

Definition ptr := Z.
Definition NULL : ptr := 0.

Definition UINT_WIDTH : Z := 32.
Definition SIZE_WIDTH : Z := 64.

(** Conversion to [unsigned int] and to [size_t]: reduction modulo 2^w. *)
Definition to_uint (z : Z) : Z := z mod 2 ^ UINT_WIDTH.
Definition to_size_t (z : Z) : Z := z mod 2 ^ SIZE_WIDTH.

(** [strcmp]: negative, zero or positive; characters compare as
    [unsigned char]. *)
Definition strcmp (s1 s2 : string) : Z :=
  match String.compare s1 s2 with
  | Eq => 0
  | Lt => -1
  | Gt => 1
  end.

(** The numeric value of a plain [char] holding the byte [c]. *)
Definition char_value (char_is_signed : bool) (c : ascii) : Z :=
  let b := Z.of_N (N_of_ascii c) in
  if char_is_signed && (128 <=? b) then b - 256 else b.

(** The byte itself, 0 to 255, whatever the signedness of plain [char]. *)
Definition byte_value (c : ascii) : Z := Z.of_N (N_of_ascii c).

(** A callback for [SymTable_map] that records, in its state, the arguments
    of every invocation in the order of the invocations. *)
Definition record_call (k : string) (v e : ptr)
    (calls : list (string * ptr * ptr)) : list (string * ptr * ptr) :=
  calls ++ [(k, v, e)].

Module SymTableHash.

(** ** Constants of symtablehash.c *)

Definition INITIAL_BUCKET_COUNT : Z := 509.

(** LOAD_FACTOR_THRESHOLD is the constant 0.75, exactly 3/4 in binary. *)
Definition LOAD_FACTOR_THRESHOLD : Q := Qmake 3 4.

Definition primes : list Z :=
  [509; 1021; 2039; 4093; 8191; 16381; 32771; 65537; 131071; 262147].

Definition PRIME_COUNT : Z := Z.of_nat (length primes).

Definition HASH_SHIFT_AMOUNT : Z := 5.

(** ** Data model *)

Record SymTableNode := mkNode {
  psNode : ptr;          (* address of the node itself *)
  pcKeyStore : ptr;      (* address of the owned copy of the key *)
  pcKey : string;        (* the characters stored there *)
  pvValue : ptr          (* the value *)
}.

Record SymTable := mkTable {
  buckets : list (list SymTableNode);
  bucketCount : Z;
  nodeQuantity : Z;
  currentPrimeIndex : Z
}.

(** What the allocator returned to one call of [SymTable_put]: the [calloc]
    of the resize (consulted only when a resize is attempted), the [malloc]
    of the node and the [malloc] of the key copy. *)
Record PutAllocs := mkAllocs {
  calloc_newBuckets : ptr;
  malloc_psNewNode : ptr;
  malloc_pcKey : ptr
}.

Section Operations.

Variable char_is_signed : bool.

(** ** symtablehash_hashFunction *)

(** The [while] loop, which runs up to the terminating NUL; [hash] is the
    accumulator on entry. *)
Fixpoint symtablehash_hashFunction_loop (pcKey : string) (hash : Z) : Z :=
  match pcKey with
  | EmptyString => hash
  | String c rest =>
      symtablehash_hashFunction_loop rest
        (to_uint (to_uint (Z.shiftl hash HASH_SHIFT_AMOUNT)
                  + to_uint (char_value char_is_signed c)))
  end.

(** [hash % bucketCount] is computed in [size_t] and returned as
    [unsigned int]. *)
Definition symtablehash_hashFunction (pcKey : string) (bucketCount : Z) : Z :=
  let hash := symtablehash_hashFunction_loop pcKey 0 in
  to_uint (to_size_t (hash mod bucketCount)).

(** ** SymTable_new *)

(** [oSymTable] and [newBuckets] are the results of the [malloc] and of the
    [calloc]; the result [None] is the NULL return. *)
Definition SymTable_new (oSymTable newBuckets : ptr) : option SymTable :=
  if oSymTable =? NULL then None
  else
    let currentPrimeIndex := 0 in
    let bucketCount := primes !!! Z.to_nat currentPrimeIndex in
    if newBuckets =? NULL then None
    else Some {| buckets := replicate (Z.to_nat bucketCount) [];
                 bucketCount := bucketCount;
                 nodeQuantity := 0;
                 currentPrimeIndex := currentPrimeIndex |}.

(** ** SymTable_getLength *)

Definition SymTable_getLength (oSymTable : SymTable) : Z :=
  nodeQuantity oSymTable.

(** ** symtablehash_resizeHashTable *)

(** Inner loop: every node of one old chain is pushed on the front of its new
    chain. *)
Fixpoint resize_chain (newBucketCount : Z) (psCurrentNode : list SymTableNode)
    (newBuckets : list (list SymTableNode)) : list (list SymTableNode) :=
  match psCurrentNode with
  | [] => newBuckets
  | node :: psNextNode =>
      let newIndex :=
        Z.to_nat (symtablehash_hashFunction (pcKey node) newBucketCount) in
      resize_chain newBucketCount psNextNode
        (<[newIndex := node :: newBuckets !!! newIndex]> newBuckets)
  end.

(** Outer loop: [i] runs from 0 to [bucketCount - 1]. *)
Definition resize_buckets (oSymTable : SymTable) (newBucketCount : Z)
    (newBuckets : list (list SymTableNode)) : list (list SymTableNode) :=
  fold_left
    (fun newBuckets i =>
       resize_chain newBucketCount (buckets oSymTable !!! i) newBuckets)
    (seq 0 (Z.to_nat (bucketCount oSymTable))) newBuckets.

(** [newBuckets] is the result of the [calloc]. *)
Definition symtablehash_resizeHashTable (oSymTable : SymTable)
    (newBuckets : ptr) : SymTable :=
  let newPrimeIndex := to_size_t (currentPrimeIndex oSymTable + 1) in
  if PRIME_COUNT <=? newPrimeIndex then oSymTable
  else
    let newBucketCount := primes !!! Z.to_nat newPrimeIndex in
    if newBuckets =? NULL then oSymTable
    else
      {| buckets :=
           resize_buckets oSymTable newBucketCount
             (replicate (Z.to_nat newBucketCount) []);
         bucketCount := newBucketCount;
         nodeQuantity := nodeQuantity oSymTable;
         currentPrimeIndex := newPrimeIndex |}.

(** ** SymTable_put *)

(** [(double)nodeQuantity / bucketCount > LOAD_FACTOR_THRESHOLD].  The
    quotient is taken over the rationals, which decides the comparison as
    the binary64 division does: 0.75 is a binary64 number and rounding is
    monotone, so a quotient of at most 3/4 rounds to at most 0.75, while a
    quotient above 3/4 exceeds it by at least 1 / (4 * bucketCount), far
    more than the spacing 2^-53 of the binary64 numbers around 0.75 for
    every bucket count of the prime table (a count too large to convert
    exactly is above 2^53 and its quotient far above 0.75 either way). *)
Definition load_factor (oSymTable : SymTable) : Q :=
  Qdiv (inject_Z (nodeQuantity oSymTable)) (inject_Z (bucketCount oSymTable)).

Definition load_factor_exceeded (oSymTable : SymTable) : bool :=
  negb (Qle_bool (load_factor oSymTable) LOAD_FACTOR_THRESHOLD).

(** The duplicate check: [true] when the walk hits [return 0]. *)
Fixpoint put_duplicate (pcKey0 : string) (psCurrentNode : list SymTableNode)
    : bool :=
  match psCurrentNode with
  | [] => false
  | node :: psNextNode =>
      if strcmp pcKey0 (pcKey node) =? 0 then true
      else put_duplicate pcKey0 psNextNode
  end.

Definition SymTable_put (oSymTable : SymTable) (pcKey0 : string)
    (pvValue0 : ptr) (a : PutAllocs) : Z * SymTable :=
  let oSymTable :=
    if load_factor_exceeded oSymTable
    then symtablehash_resizeHashTable oSymTable (calloc_newBuckets a)
    else oSymTable in
  let index :=
    Z.to_nat (symtablehash_hashFunction pcKey0 (bucketCount oSymTable)) in
  if put_duplicate pcKey0 (buckets oSymTable !!! index) then (0, oSymTable)
  else if malloc_psNewNode a =? NULL then (0, oSymTable)
  else if malloc_pcKey a =? NULL then (0, oSymTable)
  else
    let psNewNode :=
      {| psNode := malloc_psNewNode a;
         pcKeyStore := malloc_pcKey a;
         pcKey := pcKey0;
         pvValue := pvValue0 |} in
    (1, {| buckets :=
             <[index := psNewNode :: buckets oSymTable !!! index]>
               (buckets oSymTable);
           bucketCount := bucketCount oSymTable;
           nodeQuantity := to_size_t (nodeQuantity oSymTable + 1);
           currentPrimeIndex := currentPrimeIndex oSymTable |}).

(** ** SymTable_replace *)

(** The walk of the chain: the old value and the chain with the value of the
    first matching node overwritten, or [None] when the walk reaches NULL. *)
Fixpoint replace_chain (pcKey0 : string) (pvValue0 : ptr)
    (psCurrentNode : list SymTableNode) : option (ptr * list SymTableNode) :=
  match psCurrentNode with
  | [] => None
  | node :: psNextNode =>
      if strcmp pcKey0 (pcKey node) =? 0 then
        Some (pvValue node,
              {| psNode := psNode node; pcKeyStore := pcKeyStore node;
                 pcKey := pcKey node; pvValue := pvValue0 |} :: psNextNode)
      else
        match replace_chain pcKey0 pvValue0 psNextNode with
        | Some (oldValue, rest) => Some (oldValue, node :: rest)
        | None => None
        end
  end.

Definition SymTable_replace (oSymTable : SymTable) (pcKey0 : string)
    (pvValue0 : ptr) : option (ptr * SymTable) :=
  if pvValue0 =? NULL then None (* assert(pvValue != NULL) *)
  else
    let index :=
      Z.to_nat (symtablehash_hashFunction pcKey0 (bucketCount oSymTable)) in
    match replace_chain pcKey0 pvValue0 (buckets oSymTable !!! index) with
    | Some (oldValue, chain) =>
        Some (oldValue,
              {| buckets := <[index := chain]> (buckets oSymTable);
                 bucketCount := bucketCount oSymTable;
                 nodeQuantity := nodeQuantity oSymTable;
                 currentPrimeIndex := currentPrimeIndex oSymTable |})
    | None => Some (NULL, oSymTable)
    end.

(** ** SymTable_contains *)

Fixpoint contains_chain (pcKey0 : string) (psCurrentNode : list SymTableNode)
    : Z :=
  match psCurrentNode with
  | [] => 0
  | node :: psNextNode =>
      if strcmp pcKey0 (pcKey node) =? 0 then 1
      else contains_chain pcKey0 psNextNode
  end.

Definition SymTable_contains (oSymTable : SymTable) (pcKey0 : string) : Z :=
  let index :=
    Z.to_nat (symtablehash_hashFunction pcKey0 (bucketCount oSymTable)) in
  contains_chain pcKey0 (buckets oSymTable !!! index).

(** ** SymTable_get *)

Fixpoint get_chain (pcKey0 : string) (psCurrentNode : list SymTableNode)
    : ptr :=
  match psCurrentNode with
  | [] => NULL
  | node :: psNextNode =>
      if strcmp pcKey0 (pcKey node) =? 0 then pvValue node
      else get_chain pcKey0 psNextNode
  end.

Definition SymTable_get (oSymTable : SymTable) (pcKey0 : string) : ptr :=
  let index :=
    Z.to_nat (symtablehash_hashFunction pcKey0 (bucketCount oSymTable)) in
  get_chain pcKey0 (buckets oSymTable !!! index).

(** ** SymTable_remove *)

(** The walk with [psPrevNode]: the value of the first matching node and the
    chain with that node unlinked, or [None] when the walk reaches NULL. *)
Fixpoint remove_chain (pcKey0 : string) (psCurrentNode : list SymTableNode)
    : option (ptr * list SymTableNode) :=
  match psCurrentNode with
  | [] => None
  | node :: psNextNode =>
      if strcmp pcKey0 (pcKey node) =? 0 then Some (pvValue node, psNextNode)
      else
        match remove_chain pcKey0 psNextNode with
        | Some (oldValue, rest) => Some (oldValue, node :: rest)
        | None => None
        end
  end.

Definition SymTable_remove (oSymTable : SymTable) (pcKey0 : string)
    : ptr * SymTable :=
  let index :=
    Z.to_nat (symtablehash_hashFunction pcKey0 (bucketCount oSymTable)) in
  match remove_chain pcKey0 (buckets oSymTable !!! index) with
  | Some (oldValue, chain) =>
      (oldValue,
       {| buckets := <[index := chain]> (buckets oSymTable);
          bucketCount := bucketCount oSymTable;
          nodeQuantity := to_size_t (nodeQuantity oSymTable - 1);
          currentPrimeIndex := currentPrimeIndex oSymTable |})
  | None => (NULL, oSymTable)
  end.

(** ** SymTable_map *)

(** The callback acts on the caller's state [S]; it is handed the key, the
    value and [pvExtra]. *)
Fixpoint map_chain {S : Type} (pfApply : string -> ptr -> ptr -> S -> S)
    (pvExtra : ptr) (psCurrentNode : list SymTableNode) (s : S) : S :=
  match psCurrentNode with
  | [] => s
  | node :: psNextNode =>
      map_chain pfApply pvExtra psNextNode
        (pfApply (pcKey node) (pvValue node) pvExtra s)
  end.

Definition SymTable_map {S : Type} (oSymTable : SymTable)
    (pfApply : string -> ptr -> ptr -> S -> S) (pvExtra : ptr) (s : S)
    : option S :=
  if pvExtra =? NULL then None (* assert(pvExtra != NULL) *)
  else
    Some (fold_left
            (fun s i => map_chain pfApply pvExtra (buckets oSymTable !!! i) s)
            (seq 0 (Z.to_nat (bucketCount oSymTable))) s).

(** ** Vocabulary of the properties *)

(** The hash as the specification words it: an accumulator seeded at 0 that
    each byte of the key replaces by [(accumulator << 5) + byte_value]
    modulo 2^w.  It does not depend on the signedness of plain [char]. *)
Definition hash_spec (key : string) : Z :=
  fold_left
    (fun accumulator c =>
       (Z.shiftl accumulator 5 + byte_value c) mod 2 ^ UINT_WIDTH)
    (list_ascii_of_string key) 0.

(** What the conversion [(unsigned int)] of the source makes of the plain
    [char] that holds the byte [c]: the byte itself, or, for a byte of 128
    or more where plain [char] is signed, its sign extension to w bits. *)
Definition converted_value (c : ascii) : Z :=
  if char_is_signed && (128 <=? byte_value c)
  then byte_value c + (2 ^ UINT_WIDTH - 256)
  else byte_value c.

(** The hash of the code, as a fold: an accumulator seeded at 0 that each
    character replaces by [(accumulator << 5) + value] modulo 2^w, where the
    value is that of the plain [char] of the host. *)
Definition hash_reference (key : string) : Z :=
  fold_left
    (fun accumulator c =>
       (Z.shiftl accumulator 5 + char_value char_is_signed c)
         mod 2 ^ UINT_WIDTH)
    (list_ascii_of_string key) 0.

(** The bindings reachable by walking all chains, bucket after bucket. *)
Definition all_nodes (oSymTable : SymTable) : list SymTableNode :=
  concat (buckets oSymTable).

Definition keys (oSymTable : SymTable) : list string :=
  pcKey <$> all_nodes oSymTable.

(** Every node of bucket [i] hashes to [i] under the bucket count [n]. *)
Definition placed (n : Z) (bs : list (list SymTableNode)) : Prop :=
  Forall
    (fun i =>
       Forall
         (fun node => Z.to_nat (symtablehash_hashFunction (pcKey node) n) = i)
         (bs !!! i))
    (seq 0 (length bs)).

(** The structural invariant of a table: the prime index is in range and
    selects the bucket count, the bucket array has that many chains, every
    node is in the chain of its hash, keys are unique, the counter is the
    number of nodes, and the nodes occupy distinct non-NULL addresses.  Every
    table reachable from [SymTable_new] satisfies it ([reachable_inv]). *)
Definition SymTable_inv (oSymTable : SymTable) : Prop :=
  (0 <= currentPrimeIndex oSymTable < PRIME_COUNT) /\
  bucketCount oSymTable = primes !!! Z.to_nat (currentPrimeIndex oSymTable) /\
  length (buckets oSymTable) = Z.to_nat (bucketCount oSymTable) /\
  placed (bucketCount oSymTable) (buckets oSymTable) /\
  NoDup (keys oSymTable) /\
  nodeQuantity oSymTable = Z.of_nat (length (all_nodes oSymTable)) /\
  NoDup (psNode <$> all_nodes oSymTable) /\
  Forall (fun node => 0 < psNode node < 2 ^ SIZE_WIDTH) (all_nodes oSymTable).

#[global] Instance SymTable_inv_dec (oSymTable : SymTable) :
  Decision (SymTable_inv oSymTable).
Proof. unfold SymTable_inv, placed. apply _. Defined.

(** The node that a successful [SymTable_put] links in. *)
Definition put_node (k : string) (v : ptr) (a : PutAllocs) : SymTableNode :=
  {| psNode := malloc_psNewNode a; pcKeyStore := malloc_pcKey a;
     pcKey := k; pvValue := v |}.

(** The node of a [SymTable_replace] after the assignment to its value. *)
Definition set_value (node : SymTableNode) (v : ptr) : SymTableNode :=
  {| psNode := psNode node; pcKeyStore := pcKeyStore node;
     pcKey := pcKey node; pvValue := v |}.

(** The table on which [SymTable_put] continues after its first statement,
    the conditional resize. *)
Definition put_resized (oSymTable : SymTable) (a : PutAllocs) : SymTable :=
  if load_factor_exceeded oSymTable
  then symtablehash_resizeHashTable oSymTable (calloc_newBuckets a)
  else oSymTable.

(** The contract of [malloc] for the node of a [SymTable_put]: NULL, or an
    address that no live node occupies. *)
Definition malloc_fresh (oSymTable : SymTable) (a : PutAllocs) : Prop :=
  malloc_psNewNode a = NULL \/
  (0 < malloc_psNewNode a < 2 ^ SIZE_WIDTH /\
   malloc_psNewNode a ∉ psNode <$> all_nodes oSymTable).

(** The mutating and traversing calls of a client. *)
Inductive Op : Type :=
  | OpPut (pcKey0 : string) (pvValue0 : ptr) (a : PutAllocs)
  | OpReplace (pcKey0 : string) (pvValue0 : ptr)
  | OpRemove (pcKey0 : string)
  | OpMap (S : Type) (pfApply : string -> ptr -> ptr -> S -> S)
      (pvExtra : ptr) (s : S).

(** One call; [None] when the call aborts on an assertion. *)
Definition step (oSymTable : SymTable) (op : Op) : option SymTable :=
  match op with
  | OpPut k v a => Some (snd (SymTable_put oSymTable k v a))
  | OpReplace k v =>
      match SymTable_replace oSymTable k v with
      | Some (_, t) => Some t
      | None => None
      end
  | OpRemove k => Some (snd (SymTable_remove oSymTable k))
  | OpMap _ pfApply pvExtra s =>
      match SymTable_map oSymTable pfApply pvExtra s with
      | Some _ => Some oSymTable
      | None => None
      end
  end.

(** What the environment owes a call: [malloc] honours its contract. *)
Definition env_ok (oSymTable : SymTable) (op : Op) : Prop :=
  match op with
  | OpPut _ _ a => malloc_fresh oSymTable a
  | _ => True
  end.

(** Tables reachable from [t] by calls that return. *)
Inductive steps (t : SymTable) : SymTable -> Prop :=
  | steps_refl : steps t t
  | steps_step t1 op t2 :
      steps t t1 -> env_ok t1 op -> step t1 op = Some t2 -> steps t t2.

(** Tables reachable from a freshly created table. *)
Definition reachable (t : SymTable) : Prop :=
  exists p q t0, SymTable_new p q = Some t0 /\ steps t0 t.

(** A sequence of [SymTable_put] calls: the return values, in call order,
    and the final table. *)
Fixpoint put_all (oSymTable : SymTable)
    (calls : list (string * ptr * PutAllocs)) : list Z * SymTable :=
  match calls with
  | [] => ([], oSymTable)
  | (k, v, a) :: rest =>
      let '(r, t) := SymTable_put oSymTable k v a in
      let '(rs, t') := put_all t rest in
      (r :: rs, t')
  end.

(** ** SymTable_free *)

(** The inner loop: the key copy of a node is freed, then the node.
    [freed] lists the arguments of the calls of [free] so far, in order. *)
Fixpoint free_chain (psCurrentNode : list SymTableNode) (freed : list ptr)
    : list ptr :=
  match psCurrentNode with
  | [] => freed
  | node :: psNextNode =>
      free_chain psNextNode (freed ++ [pcKeyStore node; psNode node])
  end.

(** [oSymTable] and [bucketsAddr] are the addresses of the table structure
    and of its bucket array, which the record does not carry.  The result
    lists the arguments of all calls of [free], in order. *)
Definition SymTable_free (oSymTable bucketsAddr : ptr) (t : SymTable)
    : list ptr :=
  fold_left (fun freed i => free_chain (buckets t !!! i) freed)
    (seq 0 (Z.to_nat (bucketCount t))) []
  ++ [bucketsAddr; oSymTable].

(** The blocks a table owns: per node its key copy and the node. *)
Definition owned_blocks (t : SymTable) : list ptr :=
  concat ((fun node => [pcKeyStore node; psNode node]) <$> all_nodes t).

(** ** Runs in which the allocator serves every bucket array *)

Definition calloc_served (op : Op) : Prop :=
  match op with
  | OpPut _ _ a => calloc_newBuckets a <> NULL
  | _ => True
  end.

Inductive steps_served (t : SymTable) : SymTable -> Prop :=
  | served_refl : steps_served t t
  | served_step t1 op t2 :
      steps_served t t1 -> env_ok t1 op -> calloc_served op ->
      step t1 op = Some t2 -> steps_served t t2.

(** While a larger prime remains, all bindings but one fit under the
    threshold. *)
Definition load_ok (t : SymTable) : Prop :=
  currentPrimeIndex t + 1 < PRIME_COUNT ->
  4 * (nodeQuantity t - 1) <= 3 * bucketCount t.

End Operations.

End SymTableHash.

(** * The list variant (symtablelist.c) *)

Module SymTableList.

Record SymTableNode := mkNode {
  psNode : ptr;
  pcKeyStore : ptr;
  pcKey : string;
  pvValue : ptr
}.

Record SymTable := mkTable {
  psFirstNode : list SymTableNode;
  nodeQuantity : Z
}.

Record PutAllocs := mkAllocs {
  malloc_psNewNode : ptr;
  malloc_pcKey : ptr
}.

Definition SymTable_new (oSymTable : ptr) : option SymTable :=
  if oSymTable =? NULL then None
  else Some {| psFirstNode := []; nodeQuantity := 0 |}.

Definition SymTable_getLength (oSymTable : SymTable) : Z :=
  nodeQuantity oSymTable.

(** The duplicate check of [SymTable_put]: [true] when the walk hits
    [return 0]. *)
Fixpoint put_duplicate (pcKey0 : string) (psCurrentNode : list SymTableNode)
    : bool :=
  match psCurrentNode with
  | [] => false
  | node :: psNextNode =>
      if strcmp pcKey0 (pcKey node) =? 0 then true
      else put_duplicate pcKey0 psNextNode
  end.

Definition SymTable_put (oSymTable : SymTable) (pcKey0 : string)
    (pvValue0 : ptr) (a : PutAllocs) : Z * SymTable :=
  if put_duplicate pcKey0 (psFirstNode oSymTable) then (0, oSymTable)
  else if malloc_psNewNode a =? NULL then (0, oSymTable)
  else if malloc_pcKey a =? NULL then (0, oSymTable)
  else
    let psNewNode :=
      {| psNode := malloc_psNewNode a;
         pcKeyStore := malloc_pcKey a;
         pcKey := pcKey0;
         pvValue := pvValue0 |} in
    (1, {| psFirstNode := psNewNode :: psFirstNode oSymTable;
           nodeQuantity := to_size_t (nodeQuantity oSymTable + 1) |}).

Fixpoint get_chain (pcKey0 : string) (psCurrentNode : list SymTableNode)
    : ptr :=
  match psCurrentNode with
  | [] => NULL
  | node :: psNextNode =>
      if strcmp pcKey0 (pcKey node) =? 0 then pvValue node
      else get_chain pcKey0 psNextNode
  end.

Definition SymTable_get (oSymTable : SymTable) (pcKey0 : string) : ptr :=
  get_chain pcKey0 (psFirstNode oSymTable).

(** The [for] loop of [SymTable_map], from the head of the list. *)
Fixpoint map_chain {S : Type} (pfApply : string -> ptr -> ptr -> S -> S)
    (pvExtra : ptr) (psCurrentNode : list SymTableNode) (s : S) : S :=
  match psCurrentNode with
  | [] => s
  | node :: psNextNode =>
      map_chain pfApply pvExtra psNextNode
        (pfApply (pcKey node) (pvValue node) pvExtra s)
  end.

Definition SymTable_map {S : Type} (oSymTable : SymTable)
    (pfApply : string -> ptr -> ptr -> S -> S) (pvExtra : ptr) (s : S) : S :=
  map_chain pfApply pvExtra (psFirstNode oSymTable) s.

(** A sequence of [SymTable_put] calls: the return values, in call order,
    and the final table. *)
Fixpoint put_all (oSymTable : SymTable)
    (calls : list (string * ptr * PutAllocs)) : list Z * SymTable :=
  match calls with
  | [] => ([], oSymTable)
  | (k, v, a) :: rest =>
      let '(r, t) := SymTable_put oSymTable k v a in
      let '(rs, t') := put_all t rest in
      (r :: rs, t')
  end.

(** ** SymTable_replace (first revision: the value is not asserted) *)

Fixpoint replace_chain (pcKey0 : string) (pvValue0 : ptr)
    (psCurrentNode : list SymTableNode) : option (ptr * list SymTableNode) :=
  match psCurrentNode with
  | [] => None
  | node :: psNextNode =>
      if strcmp pcKey0 (pcKey node) =? 0 then
        Some (pvValue node,
              {| psNode := psNode node; pcKeyStore := pcKeyStore node;
                 pcKey := pcKey node; pvValue := pvValue0 |} :: psNextNode)
      else
        match replace_chain pcKey0 pvValue0 psNextNode with
        | Some (oldValue, rest) => Some (oldValue, node :: rest)
        | None => None
        end
  end.

Definition SymTable_replace (oSymTable : SymTable) (pcKey0 : string)
    (pvValue0 : ptr) : ptr * SymTable :=
  match replace_chain pcKey0 pvValue0 (psFirstNode oSymTable) with
  | Some (oldValue, chain) =>
      (oldValue,
       {| psFirstNode := chain; nodeQuantity := nodeQuantity oSymTable |})
  | None => (NULL, oSymTable)
  end.

(** ** SymTable_contains *)

Fixpoint contains_chain (pcKey0 : string) (psCurrentNode : list SymTableNode)
    : Z :=
  match psCurrentNode with
  | [] => 0
  | node :: psNextNode =>
      if strcmp pcKey0 (pcKey node) =? 0 then 1
      else contains_chain pcKey0 psNextNode
  end.

Definition SymTable_contains (oSymTable : SymTable) (pcKey0 : string) : Z :=
  contains_chain pcKey0 (psFirstNode oSymTable).

(** ** SymTable_remove *)

Fixpoint remove_chain (pcKey0 : string) (psCurrentNode : list SymTableNode)
    : option (ptr * list SymTableNode) :=
  match psCurrentNode with
  | [] => None
  | node :: psNextNode =>
      if strcmp pcKey0 (pcKey node) =? 0 then Some (pvValue node, psNextNode)
      else
        match remove_chain pcKey0 psNextNode with
        | Some (oldValue, rest) => Some (oldValue, node :: rest)
        | None => None
        end
  end.

Definition SymTable_remove (oSymTable : SymTable) (pcKey0 : string)
    : ptr * SymTable :=
  match remove_chain pcKey0 (psFirstNode oSymTable) with
  | Some (oldValue, chain) =>
      (oldValue,
       {| psFirstNode := chain;
          nodeQuantity := to_size_t (nodeQuantity oSymTable - 1) |})
  | None => (NULL, oSymTable)
  end.

(** ** Vocabulary of the properties *)

(** A list node as a node of the hash table: the same four fields. *)
Definition as_hash_node (node : SymTableNode) : SymTableHash.SymTableNode :=
  {| SymTableHash.psNode := psNode node;
     SymTableHash.pcKeyStore := pcKeyStore node;
     SymTableHash.pcKey := pcKey node;
     SymTableHash.pvValue := pvValue node |}.

Definition keys (oSymTable : SymTable) : list string :=
  pcKey <$> psFirstNode oSymTable.

(** The invariant of a list table: keys are unique, the counter is the
    number of nodes, and the nodes occupy distinct non-NULL addresses. *)
Definition SymTable_inv (oSymTable : SymTable) : Prop :=
  NoDup (keys oSymTable) /\
  nodeQuantity oSymTable = Z.of_nat (length (psFirstNode oSymTable)) /\
  NoDup (psNode <$> psFirstNode oSymTable) /\
  Forall (fun node => 0 < psNode node < 2 ^ SIZE_WIDTH)
    (psFirstNode oSymTable).

#[global] Instance list_inv_dec (oSymTable : SymTable) :
  Decision (SymTable_inv oSymTable).
Proof. unfold SymTable_inv. apply _. Defined.

(** The contract of [malloc] for the node of a put. *)
Definition malloc_fresh (oSymTable : SymTable) (a : PutAllocs) : Prop :=
  malloc_psNewNode a = NULL \/
  (0 < malloc_psNewNode a < 2 ^ SIZE_WIDTH /\
   malloc_psNewNode a ∉ psNode <$> psFirstNode oSymTable).

End SymTableList.

(** * The second revision of the list variant

    The second revision in symtablelist.c has the same structures and the
    same new, getLength, free, contains, get and remove; its put and its
    replace assert that the value is not NULL and its map asserts that the
    context is not NULL. *)

Module SymTableListRev2.

Import SymTableList.

Definition SymTable_put (oSymTable : SymTable) (pcKey0 : string)
    (pvValue0 : ptr) (a : PutAllocs) : option (Z * SymTable) :=
  if pvValue0 =? NULL then None (* assert(pvValue != NULL) *)
  else if put_duplicate pcKey0 (psFirstNode oSymTable)
  then Some (0, oSymTable)
  else if malloc_psNewNode a =? NULL then Some (0, oSymTable)
  else if malloc_pcKey a =? NULL then Some (0, oSymTable)
  else
    let psNewNode :=
      {| psNode := malloc_psNewNode a;
         pcKeyStore := malloc_pcKey a;
         pcKey := pcKey0;
         pvValue := pvValue0 |} in
    Some (1, {| psFirstNode := psNewNode :: psFirstNode oSymTable;
                nodeQuantity := to_size_t (nodeQuantity oSymTable + 1) |}).

Definition SymTable_replace (oSymTable : SymTable) (pcKey0 : string)
    (pvValue0 : ptr) : option (ptr * SymTable) :=
  if pvValue0 =? NULL then None (* assert(pvValue != NULL) *)
  else
    match replace_chain pcKey0 pvValue0 (psFirstNode oSymTable) with
    | Some (oldValue, chain) =>
        Some (oldValue,
              {| psFirstNode := chain;
                 nodeQuantity := nodeQuantity oSymTable |})
    | None => Some (NULL, oSymTable)
    end.

Definition SymTable_map {S : Type} (oSymTable : SymTable)
    (pfApply : string -> ptr -> ptr -> S -> S) (pvExtra : ptr) (s : S)
    : option S :=
  if pvExtra =? NULL then None (* assert(pvExtra != NULL) *)
  else Some (map_chain pfApply pvExtra (psFirstNode oSymTable) s).

(** The calls that change a table of the second revision. *)
Inductive Op : Type :=
  | Rev2Put (pcKey0 : string) (pvValue0 : ptr) (a : PutAllocs)
  | Rev2Replace (pcKey0 : string) (pvValue0 : ptr)
  | Rev2Remove (pcKey0 : string).

(** One call; [None] when the call aborts on an assertion. *)
Definition step (oSymTable : SymTable) (op : Op) : option SymTable :=
  match op with
  | Rev2Put k v a =>
      match SymTable_put oSymTable k v a with
      | Some (_, t) => Some t
      | None => None
      end
  | Rev2Replace k v =>
      match SymTable_replace oSymTable k v with
      | Some (_, t) => Some t
      | None => None
      end
  | Rev2Remove k => Some (SymTable_remove oSymTable k).2
  end.

(** Tables reachable from [t] by calls that return. *)
Inductive steps (t : SymTable) : SymTable -> Prop :=
  | rev2_refl : steps t t
  | rev2_step t1 op t2 :
      steps t t1 -> step t1 op = Some t2 -> steps t t2.

End SymTableListRev2.

(** * The two implementations behind one interface *)

Module Interface.

(** A call of the interface with its arguments; a put carries what the
    allocator returns to it. *)
Inductive Call : Type :=
  | CallPut (pcKey0 : string) (pvValue0 : ptr) (a : SymTableHash.PutAllocs)
  | CallReplace (pcKey0 : string) (pvValue0 : ptr)
  | CallRemove (pcKey0 : string)
  | CallGet (pcKey0 : string)
  | CallContains (pcKey0 : string)
  | CallGetLength.

(** The node and key allocations of a put, as the list variant sees them. *)
Definition list_allocs (a : SymTableHash.PutAllocs) : SymTableList.PutAllocs :=
  {| SymTableList.malloc_psNewNode := SymTableHash.malloc_psNewNode a;
     SymTableList.malloc_pcKey := SymTableHash.malloc_pcKey a |}.

(** One call on the hash table: the returned value and the table after;
    [None] when the call aborts on an assertion. *)
Definition call_hash (char_is_signed : bool) (t : SymTableHash.SymTable)
    (c : Call) : option (Z * SymTableHash.SymTable) :=
  match c with
  | CallPut k v a => Some (SymTableHash.SymTable_put char_is_signed t k v a)
  | CallReplace k v => SymTableHash.SymTable_replace char_is_signed t k v
  | CallRemove k => Some (SymTableHash.SymTable_remove char_is_signed t k)
  | CallGet k => Some (SymTableHash.SymTable_get char_is_signed t k, t)
  | CallContains k =>
      Some (SymTableHash.SymTable_contains char_is_signed t k, t)
  | CallGetLength => Some (SymTableHash.SymTable_getLength t, t)
  end.

(** One call on the list. *)
Definition call_list (t : SymTableList.SymTable) (c : Call)
    : Z * SymTableList.SymTable :=
  match c with
  | CallPut k v a => SymTableList.SymTable_put t k v (list_allocs a)
  | CallReplace k v => SymTableList.SymTable_replace t k v
  | CallRemove k => SymTableList.SymTable_remove t k
  | CallGet k => (SymTableList.SymTable_get t k, t)
  | CallContains k => (SymTableList.SymTable_contains t k, t)
  | CallGetLength => (SymTableList.SymTable_getLength t, t)
  end.

(** A sequence of calls: the returned values in call order and the final
    table. *)
Fixpoint run_hash (char_is_signed : bool) (t : SymTableHash.SymTable)
    (calls : list Call) : option (list Z * SymTableHash.SymTable) :=
  match calls with
  | [] => Some ([], t)
  | c :: rest =>
      match call_hash char_is_signed t c with
      | Some (r, t1) =>
          match run_hash char_is_signed t1 rest with
          | Some (rs, t2) => Some (r :: rs, t2)
          | None => None
          end
      | None => None
      end
  end.

Fixpoint run_list (t : SymTableList.SymTable) (calls : list Call)
    : list Z * SymTableList.SymTable :=
  match calls with
  | [] => ([], t)
  | c :: rest =>
      let '(r, t1) := call_list t c in
      let '(rs, t2) := run_list t1 rest in
      (r :: rs, t2)
  end.

(** What a call needs from its environment and from its caller: [malloc]
    honours its contract, and a replace passes a value that is not NULL
    (the hash table asserts it). *)
Definition call_pre (t : SymTableHash.SymTable) (c : Call) : Prop :=
  match c with
  | CallPut _ _ a => SymTableHash.malloc_fresh t a
  | CallReplace _ v => v <> NULL
  | _ => True
  end.

Fixpoint calls_pre (char_is_signed : bool) (t : SymTableHash.SymTable)
    (calls : list Call) : Prop :=
  match calls with
  | [] => True
  | c :: rest =>
      call_pre t c /\
      match call_hash char_is_signed t c with
      | Some (_, t1) => calls_pre char_is_signed t1 rest
      | None => False
      end
  end.

#[global] Instance call_pre_dec (t : SymTableHash.SymTable) (c : Call) :
  Decision (call_pre t c).
Proof.
  destruct c; unfold call_pre, SymTableHash.malloc_fresh; apply _.
Defined.

#[global] Instance calls_pre_dec (char_is_signed : bool)
    (t : SymTableHash.SymTable) (calls : list Call) :
  Decision (calls_pre char_is_signed t calls).
Proof.
  revert t. induction calls as [| c calls IH]; intros t; simpl.
  - apply _.
  - destruct (call_hash char_is_signed t c) as [[r t1] |]; apply _.
Defined.

(** The list and the hash table hold the same nodes and the same count. *)
Definition same_bindings (char_is_signed : bool)
    (tl : SymTableList.SymTable) (th : SymTableHash.SymTable) : Prop :=
  SymTableHash.SymTable_inv char_is_signed th /\
  SymTableList.as_hash_node <$> SymTableList.psFirstNode tl
  ≡ₚ SymTableHash.all_nodes th /\
  SymTableList.nodeQuantity tl = SymTableHash.nodeQuantity th.

End Interface.

(** * Concrete tables *)

Module Scenario.

Import SymTableHash.

(** A freshly created table. *)
Definition fresh : SymTable :=
  {| buckets := replicate 509 []; bucketCount := 509;
     nodeQuantity := 0; currentPrimeIndex := 0 |}.

(** Allocation results of the [i]-th call: every allocation succeeds, at
    addresses that differ from call to call. *)
Definition allocs_at (i : nat) : PutAllocs :=
  {| calloc_newBuckets := 8;
     malloc_psNewNode := 4096 + 64 * Z.of_nat i;
     malloc_pcKey := 4128 + 64 * Z.of_nat i |}.

(** The [i]-th key: two capital letters, distinct for [i < 676]. *)
Definition key_at (i : nat) : string :=
  String (ascii_of_nat (65 + i / 26))
    (String (ascii_of_nat (65 + i mod 26)) EmptyString).

(** The first [n] calls: key [key_at i] is put with value [1000 + i]. *)
Definition calls_upto (n : nat) : list (string * ptr * PutAllocs) :=
  (fun i => (key_at i, 1000 + Z.of_nat i, allocs_at i)) <$> seq 0 n.

(** The table after the first [n] calls on a fresh table. *)
Definition filled (char_is_signed : bool) (n : nat) : SymTable :=
  (put_all char_is_signed fresh (calls_upto n)).2.

(** Whether the table binds the key of every call to the value of the
    call. *)
Definition all_retrievable (char_is_signed : bool) (t : SymTable)
    (calls : list (string * ptr * PutAllocs)) : bool :=
  forallb (fun c => SymTable_get char_is_signed t c.1.1 =? c.1.2) calls.

(** The same calls for the list variant. *)
Definition list_calls_upto (n : nat)
    : list (string * ptr * SymTableList.PutAllocs) :=
  (fun i =>
     (key_at i, 1000 + Z.of_nat i,
      {| SymTableList.malloc_psNewNode := 4096 + 64 * Z.of_nat i;
         SymTableList.malloc_pcKey := 4128 + 64 * Z.of_nat i |}))
    <$> seq 0 n.

Definition list_fresh : SymTableList.SymTable :=
  {| SymTableList.psFirstNode := []; SymTableList.nodeQuantity := 0 |}.

(** The list after the first [n] calls on a fresh list. *)
Definition list_filled (n : nat) : SymTableList.SymTable :=
  (SymTableList.put_all list_fresh (list_calls_upto n)).2.

(** A client session that exercises every call of the interface. *)
Definition session : list Interface.Call :=
  [Interface.CallPut "a" 1 (allocs_at 0);
   Interface.CallPut "b" 2 (allocs_at 1);
   Interface.CallPut "a" 3 (allocs_at 2);
   Interface.CallGet "a";
   Interface.CallReplace "b" 5;
   Interface.CallContains "c";
   Interface.CallRemove "a";
   Interface.CallGet "a";
   Interface.CallGetLength].

End Scenario.

(** * Properties of the hash table *)

Import SymTableHash.

(** ** Machine arithmetic *)

Lemma to_uint_range z : 0 <= to_uint z < 2 ^ UINT_WIDTH.
Proof. unfold to_uint. apply Z.mod_pos_bound. reflexivity. Qed.

Lemma to_uint_small z : 0 <= z < 2 ^ UINT_WIDTH -> to_uint z = z.
Proof. intros H. unfold to_uint. apply Z.mod_small, H. Qed.

Lemma to_size_t_small z : 0 <= z < 2 ^ SIZE_WIDTH -> to_size_t z = z.
Proof. intros H. unfold to_size_t. apply Z.mod_small, H. Qed.

Lemma uint_lt_size_t : 2 ^ UINT_WIDTH < 2 ^ SIZE_WIDTH.
Proof. reflexivity. Qed.

(** One iteration of the loop of the source is one step of the reference
    fold: the three conversions collapse into one reduction. *)
Lemma hash_step_wrap h v :
  to_uint (to_uint (Z.shiftl h HASH_SHIFT_AMOUNT) + to_uint v)
  = (Z.shiftl h 5 + v) mod 2 ^ UINT_WIDTH.
Proof.
  unfold to_uint, HASH_SHIFT_AMOUNT.
  now rewrite <- Zplus_mod.
Qed.

Lemma strcmp_0_iff s1 s2 : strcmp s1 s2 = 0 <-> s1 = s2.
Proof.
  unfold strcmp. split.
  - intros H. apply String.compare_eq_iff.
    destruct (String.compare s1 s2); [reflexivity | discriminate H ..].
  - intros <-. pose proof (String.compare_antisym s1 s1) as A.
    destruct (String.compare s1 s1); [reflexivity | discriminate A ..].
Qed.

Lemma strcmp_eqb s1 s2 : (strcmp s1 s2 =? 0) = bool_decide (s1 = s2).
Proof.
  destruct (bool_decide_reflect (s1 = s2)) as [E | E].
  - apply Z.eqb_eq. now apply strcmp_0_iff.
  - apply Z.eqb_neq. intros H. apply E. now apply strcmp_0_iff.
Qed.

Section HashFunction.

Variable cs : bool.

Lemma hashFunction_loop_fold key h :
  symtablehash_hashFunction_loop cs key h
  = fold_left
      (fun accumulator c =>
         (Z.shiftl accumulator 5 + char_value cs c) mod 2 ^ UINT_WIDTH)
      (list_ascii_of_string key) h.
Proof.
  revert h. induction key as [| c key IH]; intros h; simpl.
  - reflexivity.
  - rewrite IH. now rewrite hash_step_wrap.
Qed.

Lemma hashFunction_loop_range key h :
  0 <= h < 2 ^ UINT_WIDTH ->
  0 <= symtablehash_hashFunction_loop cs key h < 2 ^ UINT_WIDTH.
Proof.
  revert h. induction key as [| c key IH]; intros h Hh; simpl.
  - exact Hh.
  - apply IH, to_uint_range.
Qed.

Lemma hash_reference_loop key :
  hash_reference cs key = symtablehash_hashFunction_loop cs key 0.
Proof. unfold hash_reference. now rewrite hashFunction_loop_fold. Qed.

Lemma hash_reference_range key : 0 <= hash_reference cs key < 2 ^ UINT_WIDTH.
Proof.
  rewrite hash_reference_loop. apply hashFunction_loop_range.
  split; [lia | reflexivity].
Qed.

Lemma hashFunction_reference key n :
  0 < n -> symtablehash_hashFunction cs key n = hash_reference cs key mod n.
Proof.
  intros Hn. unfold symtablehash_hashFunction.
  rewrite <- hash_reference_loop.
  pose proof (hash_reference_range key) as Hr.
  pose proof (Z.mod_pos_bound (hash_reference cs key) n Hn) as Hm.
  assert (hash_reference cs key mod n <= hash_reference cs key)
    by (apply Z.mod_le; lia).
  pose proof uint_lt_size_t.
  rewrite to_size_t_small by lia.
  apply to_uint_small. lia.
Qed.

Lemma hashFunction_lt key n :
  0 < n -> 0 <= symtablehash_hashFunction cs key n < n.
Proof.
  intros Hn. rewrite hashFunction_reference by exact Hn.
  apply Z.mod_pos_bound, Hn.
Qed.

Lemma hashFunction_index key n :
  0 < n -> (Z.to_nat (symtablehash_hashFunction cs key n) < Z.to_nat n)%nat.
Proof. intros Hn. pose proof (hashFunction_lt key n Hn). lia. Qed.

End HashFunction.

(** ** The walks along one chain *)

Section Chains.

Implicit Types (k : string) (c : list SymTableNode) (node : SymTableNode).

Lemma put_duplicate_true k c : put_duplicate k c = true <-> k ∈ pcKey <$> c.
Proof.
  induction c as [| node c IH]; simpl.
  - split; [discriminate | intros H; inversion H].
  - rewrite strcmp_eqb, elem_of_cons.
    case_bool_decide as E; [tauto |].
    rewrite IH. tauto.
Qed.

Lemma put_duplicate_false k c : put_duplicate k c = false <-> k ∉ pcKey <$> c.
Proof.
  rewrite <- put_duplicate_true.
  destruct (put_duplicate k c); split; congruence.
Qed.

Lemma contains_chain_duplicate k c :
  contains_chain k c = if put_duplicate k c then 1 else 0.
Proof.
  induction c as [| node c IH]; simpl; [reflexivity |].
  destruct (strcmp k (pcKey node) =? 0); [reflexivity | exact IH].
Qed.

Lemma contains_chain_1 k c : contains_chain k c = 1 <-> k ∈ pcKey <$> c.
Proof.
  rewrite contains_chain_duplicate, <- put_duplicate_true.
  destruct (put_duplicate k c); split; congruence.
Qed.

Lemma contains_chain_0 k c : contains_chain k c = 0 <-> k ∉ pcKey <$> c.
Proof.
  rewrite contains_chain_duplicate, <- put_duplicate_false.
  destruct (put_duplicate k c); split; congruence.
Qed.

Lemma contains_chain_Permutation k c c' :
  c ≡ₚ c' -> contains_chain k c = contains_chain k c'.
Proof.
  intros HP. rewrite !contains_chain_duplicate.
  destruct (put_duplicate k c) eqn:E1, (put_duplicate k c') eqn:E2;
    try reflexivity.
  - apply put_duplicate_true in E1. apply put_duplicate_false in E2.
    rewrite HP in E1. contradiction.
  - apply put_duplicate_true in E2. apply put_duplicate_false in E1.
    rewrite HP in E1. contradiction.
Qed.

Lemma get_chain_absent k c : k ∉ pcKey <$> c -> get_chain k c = NULL.
Proof.
  induction c as [| node c IH]; simpl; intros H; [reflexivity |].
  rewrite strcmp_eqb. rewrite not_elem_of_cons in H.
  case_bool_decide; [tauto | apply IH; tauto].
Qed.

Lemma get_chain_present c node :
  NoDup (pcKey <$> c) -> node ∈ c -> get_chain (pcKey node) c = pvValue node.
Proof.
  induction c as [| n c IH]; simpl; intros HN Hin; [inversion Hin |].
  rewrite strcmp_eqb. apply NoDup_cons in HN as [Hn HN].
  apply elem_of_cons in Hin as [-> | Hin].
  - now rewrite bool_decide_eq_true_2.
  - case_bool_decide as E; [| now apply IH].
    exfalso. apply Hn. rewrite <- E. now apply list_elem_of_fmap_2.
Qed.

Lemma get_chain_app_r k c1 c2 :
  k ∉ pcKey <$> c1 -> get_chain k (c1 ++ c2) = get_chain k c2.
Proof.
  induction c1 as [| node c1 IH]; simpl; intros H; [reflexivity |].
  rewrite strcmp_eqb. rewrite not_elem_of_cons in H.
  case_bool_decide; [tauto | apply IH; tauto].
Qed.

Lemma get_chain_app_l k c1 c2 :
  k ∉ pcKey <$> c2 -> get_chain k (c1 ++ c2) = get_chain k c1.
Proof.
  induction c1 as [| node c1 IH]; simpl; intros H.
  - now apply get_chain_absent.
  - destruct (strcmp k (pcKey node) =? 0); [reflexivity | now apply IH].
Qed.

Lemma get_chain_Permutation k c c' :
  NoDup (pcKey <$> c) -> c ≡ₚ c' -> get_chain k c = get_chain k c'.
Proof.
  intros HN HP.
  destruct (decide (k ∈ pcKey <$> c)) as [Hin | Hout].
  - apply list_elem_of_fmap in Hin as (node & -> & Hin).
    rewrite get_chain_present by assumption.
    symmetry. apply get_chain_present.
    + now rewrite <- HP.
    + now rewrite <- HP.
  - rewrite get_chain_absent by assumption.
    symmetry. apply get_chain_absent. now rewrite <- HP.
Qed.

Lemma contains_chain_app_mid k c1 c c2 :
  k ∉ pcKey <$> c1 -> k ∉ pcKey <$> c2 ->
  contains_chain k (c1 ++ c ++ c2) = contains_chain k c.
Proof.
  intros H1 H2. rewrite !contains_chain_duplicate.
  destruct (put_duplicate k c) eqn:E.
  - apply put_duplicate_true in E.
    rewrite (proj2 (put_duplicate_true _ _)); [reflexivity |].
    rewrite !fmap_app, !elem_of_app. tauto.
  - apply put_duplicate_false in E.
    rewrite (proj2 (put_duplicate_false _ _)); [reflexivity |].
    rewrite !fmap_app, !elem_of_app. tauto.
Qed.

Lemma get_chain_app_mid k c1 c c2 :
  k ∉ pcKey <$> c1 -> k ∉ pcKey <$> c2 ->
  get_chain k (c1 ++ c ++ c2) = get_chain k c.
Proof.
  intros H1 H2. rewrite get_chain_app_r by assumption.
  now apply get_chain_app_l.
Qed.

(** [remove_chain] unlinks the first node whose key matches. *)
Lemma remove_chain_None k c : remove_chain k c = None <-> k ∉ pcKey <$> c.
Proof.
  induction c as [| node c IH]; simpl.
  - split; [intros _ H; inversion H | reflexivity].
  - rewrite strcmp_eqb, not_elem_of_cons.
    case_bool_decide as E.
    + split; [discriminate | tauto].
    + destruct (remove_chain k c) as [[v r] |].
      * split; [discriminate |].
        intros [_ H]. apply IH in H. discriminate.
      * split; [| reflexivity]. intros _. split; [exact E | now apply IH].
Qed.

Lemma remove_chain_Some k c v c' :
  remove_chain k c = Some (v, c') ->
  exists c1 node c2,
    c = c1 ++ node :: c2 /\ c' = c1 ++ c2 /\
    pcKey node = k /\ pvValue node = v /\ k ∉ pcKey <$> c1.
Proof.
  revert v c'.
  induction c as [| n c IH]; simpl; intros v c' H; [discriminate |].
  rewrite strcmp_eqb in H. case_bool_decide as E.
  - injection H as <- <-. exists [], n, c. simpl.
    split_and!; try reflexivity; [now symmetry | intros Hin; inversion Hin].
  - destruct (remove_chain k c) as [[v0 r] |] eqn:R; [| discriminate].
    injection H as <- <-.
    destruct (IH _ _ eq_refl) as (c1 & node & c2 & -> & -> & Hk & Hv & Hn).
    exists (n :: c1), node, c2. simpl.
    repeat split; try assumption; try reflexivity.
    rewrite not_elem_of_cons. split; [exact E | exact Hn].
Qed.

(** [replace_chain] overwrites the value of the first node whose key
    matches and nothing else. *)
Lemma replace_chain_None k v0 c :
  replace_chain k v0 c = None <-> k ∉ pcKey <$> c.
Proof.
  induction c as [| node c IH]; simpl.
  - split; [intros _ H; inversion H | reflexivity].
  - rewrite strcmp_eqb, not_elem_of_cons.
    case_bool_decide as E.
    + split; [discriminate | tauto].
    + destruct (replace_chain k v0 c) as [[v r] |].
      * split; [discriminate |].
        intros [_ H]. apply IH in H. discriminate.
      * split; [| reflexivity]. intros _. split; [exact E | now apply IH].
Qed.

Lemma replace_chain_Some k v0 c v c' :
  replace_chain k v0 c = Some (v, c') ->
  exists c1 node c2,
    c = c1 ++ node :: c2 /\
    c' = c1 ++ set_value node v0 :: c2 /\
    pcKey node = k /\ pvValue node = v /\ k ∉ pcKey <$> c1.
Proof.
  revert v c'.
  induction c as [| n c IH]; simpl; intros v c' H; [discriminate |].
  rewrite strcmp_eqb in H. case_bool_decide as E.
  - injection H as <- <-. exists [], n, c. simpl.
    split_and!; try reflexivity; [now symmetry | intros Hin; inversion Hin].
  - destruct (replace_chain k v0 c) as [[v1 r] |] eqn:R; [| discriminate].
    injection H as <- <-.
    destruct (IH _ _ eq_refl) as (c1 & node & c2 & -> & -> & Hk & Hv & Hn).
    exists (n :: c1), node, c2. simpl.
    repeat split; try assumption; try reflexivity.
    rewrite not_elem_of_cons. split; [exact E | exact Hn].
Qed.

Lemma map_chain_fold {S : Type} (f : string -> ptr -> ptr -> S -> S) e c s :
  map_chain f e c s
  = fold_left (fun s node => f (pcKey node) (pvValue node) e s) c s.
Proof.
  revert s. induction c as [| node c IH]; intros s; simpl;
    [reflexivity | apply IH].
Qed.

End Chains.

(** ** The bucket array *)

Lemma concat_lookup_split {A : Type} (bs : list (list A)) (i : nat) c :
  bs !! i = Some c ->
  concat bs = concat (take i bs) ++ c ++ concat (drop (S i) bs).
Proof.
  intros H. rewrite <- (take_drop_middle bs i c H) at 1.
  now rewrite concat_app, concat_cons.
Qed.

Lemma concat_insert_split {A : Type} (bs : list (list A)) (i : nat) c' :
  (i < length bs)%nat ->
  concat (<[i:=c']> bs) = concat (take i bs) ++ c' ++ concat (drop (S i) bs).
Proof.
  intros H. rewrite insert_take_drop by exact H.
  now rewrite concat_app, concat_cons.
Qed.

Lemma concat_insert_cons {A : Type} (bs : list (list A)) (i : nat) x :
  (i < length bs)%nat ->
  concat (<[i := x :: bs !!! i]> bs) ≡ₚ x :: concat bs.
Proof.
  intros H. rewrite concat_insert_split by exact H.
  rewrite (concat_lookup_split bs i (bs !!! i))
    by now apply list_lookup_lookup_total_lt.
  simpl. now rewrite <- Permutation_middle.
Qed.

Lemma concat_replicate_nil {A : Type} (m : nat) :
  concat (replicate m ([] : list A)) = [].
Proof. induction m as [| m IH]; simpl; [reflexivity | exact IH]. Qed.

Lemma fmap_lookup_total_seq {A : Type} `{Inhabited A} (l : list A) :
  (fun i => l !!! i) <$> seq 0 (length l) = l.
Proof.
  apply list_eq. intros i. rewrite list_lookup_fmap.
  destruct (decide (i < length l)%nat) as [Hlt | Hge].
  - rewrite lookup_seq_lt by exact Hlt. simpl.
    symmetry. now apply list_lookup_lookup_total_lt.
  - rewrite lookup_seq_ge by lia. simpl.
    symmetry. apply lookup_ge_None. lia.
Qed.

Lemma concat_elem_of {A : Type} (x : A) (bs : list (list A)) :
  x ∈ concat bs <-> exists (i : nat) c, bs !! i = Some c /\ x ∈ c.
Proof.
  rewrite list_elem_of_In, in_concat. split.
  - intros (c & Hc & Hx).
    rewrite <- list_elem_of_In in Hc. rewrite <- list_elem_of_In in Hx.
    apply list_elem_of_lookup in Hc as [i Hi]. now exists i, c.
  - intros (i & c & Hi & Hx). exists c.
    rewrite <- !list_elem_of_In. split; [| exact Hx].
    apply list_elem_of_lookup. now exists i.
Qed.

(** The prime table. *)
Lemma primes_cases i :
  0 <= i < PRIME_COUNT ->
  i = 0 \/ i = 1 \/ i = 2 \/ i = 3 \/ i = 4 \/
  i = 5 \/ i = 6 \/ i = 7 \/ i = 8 \/ i = 9.
Proof. unfold PRIME_COUNT. simpl. lia. Qed.

Lemma primes_lookup_range i :
  0 <= i < PRIME_COUNT ->
  509 <= primes !!! Z.to_nat i <= 262147 /\ primes !!! Z.to_nat i ∈ primes.
Proof.
  intros H. apply primes_cases in H.
  repeat (destruct H as [-> | H]); try subst i; simpl;
    (split; [lia | unfold primes; rewrite !elem_of_cons; tauto]).
Qed.

Lemma primes_lookup_ascending i :
  0 <= i -> i + 1 < PRIME_COUNT ->
  primes !!! Z.to_nat i < primes !!! Z.to_nat (i + 1).
Proof.
  intros H0 H1. assert (H : 0 <= i < PRIME_COUNT) by lia.
  apply primes_cases in H. unfold PRIME_COUNT in H1. simpl in H1.
  repeat (destruct H as [-> | H]); try subst i; simpl; lia.
Qed.

Section Placement.

Variable cs : bool.

Implicit Types (bs : list (list SymTableNode)) (node : SymTableNode).

Lemma placed_spec n bs :
  placed cs n bs <->
  forall (i : nat) c node,
    bs !! i = Some c -> node ∈ c ->
    Z.to_nat (symtablehash_hashFunction cs (pcKey node) n) = i.
Proof.
  unfold placed. rewrite Forall_seq. split.
  - intros H i c node Hl Hin.
    pose proof (lookup_lt_Some _ _ _ Hl) as Hi.
    specialize (H i ltac:(lia)).
    rewrite (list_lookup_total_correct _ _ _ Hl) in H.
    rewrite Forall_forall in H. now apply H.
  - intros H j Hj. apply Forall_forall. intros node Hin.
    destruct (lookup_lt_is_Some_2 bs j ltac:(lia)) as [c Hc].
    rewrite (list_lookup_total_correct _ _ _ Hc) in Hin. eauto.
Qed.

Lemma placed_replicate n m : placed cs n (replicate m []).
Proof.
  apply placed_spec. intros i c node Hl Hin.
  apply lookup_replicate in Hl as [-> _]. inversion Hin.
Qed.

Lemma placed_insert n bs (i : nat) c' :
  placed cs n bs ->
  (forall node, node ∈ c' ->
     Z.to_nat (symtablehash_hashFunction cs (pcKey node) n) = i) ->
  placed cs n (<[i:=c']> bs).
Proof.
  rewrite !placed_spec. intros H Hc j c node Hl Hin.
  apply list_lookup_insert_Some in Hl as [(-> & -> & _) | (_ & Hl)].
  - now apply Hc.
  - eapply H; eassumption.
Qed.

(** The nodes outside the bucket of [k] carry other keys. *)
Lemma placed_other_buckets n bs k :
  placed cs n bs ->
  let i := Z.to_nat (symtablehash_hashFunction cs k n) in
  (k ∉ pcKey <$> concat (take i bs)) /\
  (k ∉ pcKey <$> concat (drop (S i) bs)).
Proof.
  rewrite placed_spec. intros H i. split.
  - intros Hin. apply list_elem_of_fmap in Hin as (node & -> & Hin).
    apply concat_elem_of in Hin as (j & c & Hj & Hin).
    pose proof (lookup_lt_Some _ _ _ Hj) as Hlt. rewrite length_take in Hlt.
    rewrite lookup_take_lt in Hj by lia.
    specialize (H j c node Hj Hin). subst i. lia.
  - intros Hin. apply list_elem_of_fmap in Hin as (node & -> & Hin).
    apply concat_elem_of in Hin as (j & c & Hj & Hin).
    rewrite lookup_drop in Hj.
    specialize (H _ c node Hj Hin). subst i. lia.
Qed.

End Placement.

(** Distinct addresses below a bound are fewer than the bound: the node
    counter cannot wrap around. *)
Lemma NoDup_bounded_length (l : list Z) (M : Z) :
  0 < M -> NoDup l -> Forall (fun x => 0 < x < M) l ->
  Z.of_nat (length l) < M.
Proof.
  intros HM HN HF.
  assert (Hsub : l ⊆+ Z.of_nat <$> seq 1 (Z.to_nat M - 1)).
  { apply NoDup_submseteq; [exact HN |].
    intros x Hx. rewrite Forall_forall in HF. specialize (HF x Hx).
    apply list_elem_of_fmap. exists (Z.to_nat x). split; [lia |].
    apply elem_of_seq. lia. }
  apply submseteq_length in Hsub.
  rewrite length_fmap, length_seq in Hsub. lia.
Qed.

(** ** Growth: [symtablehash_resizeHashTable] *)

Section Resize.

Variable cs : bool.

Implicit Types (bs nb : list (list SymTableNode)) (t : SymTable).

Lemma resize_chain_length n c nb :
  length (resize_chain cs n c nb) = length nb.
Proof.
  revert nb. induction c as [| node c IH]; intros nb; simpl; [reflexivity |].
  rewrite IH. apply length_insert.
Qed.

Lemma resize_chain_concat n c nb :
  0 < n -> length nb = Z.to_nat n ->
  concat (resize_chain cs n c nb) ≡ₚ c ++ concat nb.
Proof.
  intros Hn. revert nb.
  induction c as [| node c IH]; intros nb Hlen; simpl; [reflexivity |].
  rewrite IH by now rewrite length_insert.
  rewrite concat_insert_cons.
  - now rewrite <- Permutation_middle.
  - rewrite Hlen. now apply hashFunction_index.
Qed.

Lemma resize_chain_placed n c nb :
  placed cs n nb -> placed cs n (resize_chain cs n c nb).
Proof.
  revert nb. induction c as [| node c IH]; intros nb Hp; simpl; [exact Hp |].
  apply IH. apply placed_insert; [exact Hp |].
  intros x Hx. apply elem_of_cons in Hx as [-> | Hx]; [reflexivity |].
  set (i := Z.to_nat (symtablehash_hashFunction cs (pcKey node) n)) in *.
  destruct (decide (i < length nb)%nat) as [Hlt | Hge].
  - apply (proj1 (placed_spec cs n nb) Hp i (nb !!! i)); [| exact Hx].
    now apply list_lookup_lookup_total_lt.
  - rewrite list_lookup_total_alt, lookup_ge_None_2 in Hx by lia.
    inversion Hx.
Qed.

(** The outer loop over any list of bucket indices. *)
Lemma resize_fold_spec n bs (idxs : list nat) nb :
  0 < n -> length nb = Z.to_nat n -> placed cs n nb ->
  let r :=
    fold_left (fun nb i => resize_chain cs n (bs !!! i) nb) idxs nb in
  length r = length nb /\
  concat r ≡ₚ concat ((fun i => bs !!! i) <$> idxs) ++ concat nb /\
  placed cs n r.
Proof.
  intros Hn. revert nb.
  induction idxs as [| i idxs IH]; intros nb Hlen Hp; simpl.
  - repeat split; [reflexivity | exact Hp].
  - destruct (IH (resize_chain cs n (bs !!! i) nb)) as (IH1 & IH2 & IH3).
    + now rewrite resize_chain_length.
    + now apply resize_chain_placed.
    + split_and!.
      * now rewrite IH1, resize_chain_length.
      * rewrite IH2, resize_chain_concat by assumption.
        rewrite <- !app_assoc. apply Permutation_app_swap_app.
      * exact IH3.
Qed.

Lemma resize_buckets_spec t n :
  0 < n -> length (buckets t) = Z.to_nat (bucketCount t) ->
  let r := resize_buckets cs t n (replicate (Z.to_nat n) []) in
  length r = Z.to_nat n /\ concat r ≡ₚ all_nodes t /\ placed cs n r.
Proof.
  intros Hn Hlen. unfold resize_buckets.
  destruct (resize_fold_spec n (buckets t) (seq 0 (Z.to_nat (bucketCount t)))
              (replicate (Z.to_nat n) []) Hn) as (H1 & H2 & H3).
  - apply length_replicate.
  - apply placed_replicate.
  - split_and!.
    + now rewrite H1, length_replicate.
    + rewrite H2, <- Hlen, fmap_lookup_total_seq.
      rewrite concat_replicate_nil, app_nil_r. reflexivity.
    + exact H3.
Qed.

End Resize.

(** ** The invariant and the operations *)

Section Tables.

Variable cs : bool.

Implicit Types (t : SymTable) (k : string) (node : SymTableNode).

Lemma inv_bucketCount t :
  SymTable_inv cs t ->
  509 <= bucketCount t <= 262147 /\ bucketCount t ∈ primes.
Proof. intros (Hi & Hb & _). rewrite Hb. now apply primes_lookup_range. Qed.

Lemma inv_index_lt t k :
  SymTable_inv cs t ->
  (Z.to_nat (symtablehash_hashFunction cs k (bucketCount t))
   < length (buckets t))%nat.
Proof.
  intros H. pose proof (inv_bucketCount t H) as [Hb _].
  destruct H as (_ & _ & Hl & _). rewrite Hl.
  apply hashFunction_index. lia.
Qed.

(** The chains before and after the bucket of [k] hold no node of key [k]. *)
Lemma inv_bucket_split t k :
  SymTable_inv cs t ->
  let i := Z.to_nat (symtablehash_hashFunction cs k (bucketCount t)) in
  all_nodes t
  = concat (take i (buckets t)) ++ (buckets t !!! i)
      ++ concat (drop (S i) (buckets t)) /\
  (k ∉ pcKey <$> concat (take i (buckets t))) /\
  (k ∉ pcKey <$> concat (drop (S i) (buckets t))).
Proof.
  intros H i. pose proof (inv_index_lt t k H) as Hlt. fold i in Hlt.
  destruct H as (_ & _ & _ & Hp & _).
  split.
  - apply concat_lookup_split. now apply list_lookup_lookup_total_lt.
  - apply (placed_other_buckets cs _ _ k Hp).
Qed.

Lemma SymTable_get_all_nodes t k :
  SymTable_inv cs t -> SymTable_get cs t k = get_chain k (all_nodes t).
Proof.
  intros H. destruct (inv_bucket_split t k H) as (E & HA & HB).
  rewrite E. unfold SymTable_get. symmetry. now apply get_chain_app_mid.
Qed.

Lemma SymTable_contains_all_nodes t k :
  SymTable_inv cs t ->
  SymTable_contains cs t k = contains_chain k (all_nodes t).
Proof.
  intros H. destruct (inv_bucket_split t k H) as (E & HA & HB).
  rewrite E. unfold SymTable_contains. symmetry.
  now apply contains_chain_app_mid.
Qed.

Lemma SymTable_contains_keys t k :
  SymTable_inv cs t -> SymTable_contains cs t k = 1 <-> k ∈ keys t.
Proof.
  intros H. rewrite SymTable_contains_all_nodes by exact H.
  apply contains_chain_1.
Qed.

Lemma SymTable_contains_bool t k :
  SymTable_contains cs t k = 0 \/ SymTable_contains cs t k = 1.
Proof.
  unfold SymTable_contains. rewrite contains_chain_duplicate.
  destruct (put_duplicate _ _); auto.
Qed.

Lemma bucket_keys t k :
  SymTable_inv cs t ->
  let i := Z.to_nat (symtablehash_hashFunction cs k (bucketCount t)) in
  k ∈ pcKey <$> (buckets t !!! i) <-> k ∈ keys t.
Proof.
  intros H i. destruct (inv_bucket_split t k H) as (E & HA & HB).
  unfold keys. rewrite E, !fmap_app, !elem_of_app. fold i in HA, HB. tauto.
Qed.

(** Overwriting the chain of one bucket. *)
Lemma all_nodes_set_bucket t (i : nat) c' q :
  (i < length (buckets t))%nat ->
  all_nodes {| buckets := <[i:=c']> (buckets t);
               bucketCount := bucketCount t;
               nodeQuantity := q;
               currentPrimeIndex := currentPrimeIndex t |}
  = concat (take i (buckets t)) ++ c' ++ concat (drop (S i) (buckets t)).
Proof. intros H. unfold all_nodes. simpl. now apply concat_insert_split. Qed.

Lemma inv_set_bucket t (i : nat) c' q :
  SymTable_inv cs t ->
  let t' := {| buckets := <[i:=c']> (buckets t);
               bucketCount := bucketCount t;
               nodeQuantity := q;
               currentPrimeIndex := currentPrimeIndex t |} in
  (forall node, node ∈ c' ->
     Z.to_nat (symtablehash_hashFunction cs (pcKey node) (bucketCount t))
     = i) ->
  NoDup (keys t') ->
  q = Z.of_nat (length (all_nodes t')) ->
  NoDup (psNode <$> all_nodes t') ->
  Forall (fun node => 0 < psNode node < 2 ^ SIZE_WIDTH) (all_nodes t') ->
  SymTable_inv cs t'.
Proof.
  intros (H1 & H2 & H3 & H4 & _) t' Hc Hk Hq Ha Hr.
  unfold SymTable_inv. subst t'. simpl in *.
  split_and!; try assumption; try lia.
  - now rewrite length_insert.
  - now apply placed_insert.
Qed.

(** *** Resize *)

Lemma load_factor_exceeded_spec t :
  0 < bucketCount t ->
  load_factor_exceeded t = (3 * bucketCount t <? 4 * nodeQuantity t).
Proof.
  intros Hb. unfold load_factor_exceeded, load_factor, LOAD_FACTOR_THRESHOLD.
  destruct (bucketCount t) as [| b | b]; try lia.
  unfold Qle_bool, Qdiv, Qmult, Qinv, inject_Z. simpl.
  rewrite Z.mul_1_r, Pos.mul_1_l.
  destruct (Z.leb_spec (nodeQuantity t * 4) (Z.pos b~1));
    destruct (Z.ltb_spec (Z.pos b~1) (4 * nodeQuantity t)); simpl; try lia.
Qed.

Lemma resize_spec t p :
  SymTable_inv cs t ->
  let t' := symtablehash_resizeHashTable cs t p in
  SymTable_inv cs t' /\
  all_nodes t' ≡ₚ all_nodes t /\
  nodeQuantity t' = nodeQuantity t /\
  (if (currentPrimeIndex t + 1 <? PRIME_COUNT) && negb (p =? NULL)
   then currentPrimeIndex t' = currentPrimeIndex t + 1 /\
        bucketCount t' = primes !!! Z.to_nat (currentPrimeIndex t + 1) /\
        bucketCount t < bucketCount t'
   else t' = t).
Proof.
  intros H. pose proof H as (Hi & Hb & Hl & Hp & Hk & Hq & Ha & Hr).
  unfold symtablehash_resizeHashTable.
  assert (Hs : to_size_t (currentPrimeIndex t + 1) = currentPrimeIndex t + 1).
  { apply to_size_t_small. unfold PRIME_COUNT in Hi. simpl in Hi.
    split; [lia |]. apply Z.lt_trans with 11; [lia | reflexivity]. }
  rewrite Hs.
  destruct (Z.leb_spec PRIME_COUNT (currentPrimeIndex t + 1)) as [Hge | Hlt].
  { simpl. rewrite (proj2 (Z.ltb_ge _ _)) by lia. simpl. auto. }
  rewrite (proj2 (Z.ltb_lt _ _)) by lia. simpl.
  destruct (p =? NULL) eqn:Ep; simpl; [auto |].
  set (n := primes !!! Z.to_nat (currentPrimeIndex t + 1)).
  assert (Hn : 509 <= n <= 262147)
    by (apply primes_lookup_range; lia).
  destruct (resize_buckets_spec cs t n ltac:(lia) Hl) as (R1 & R2 & R3).
  assert (Hasc : bucketCount t < n)
    by (rewrite Hb; apply primes_lookup_ascending; lia).
  split_and!; try reflexivity; try assumption.
  unfold SymTable_inv, keys, all_nodes in *. simpl.
  split_and!; try assumption; try lia.
  - now rewrite R2.
  - rewrite R2. exact Hq.
  - now rewrite R2.
  - now rewrite R2.
Qed.

Lemma put_resized_spec t a :
  SymTable_inv cs t ->
  let t1 := put_resized cs t a in
  SymTable_inv cs t1 /\
  all_nodes t1 ≡ₚ all_nodes t /\
  nodeQuantity t1 = nodeQuantity t /\
  bucketCount t <= bucketCount t1.
Proof.
  intros H. unfold put_resized.
  destruct (load_factor_exceeded t).
  - destruct (resize_spec t (calloc_newBuckets a) H) as (R1 & R2 & R3 & R4).
    split_and!; try assumption.
    destruct (_ && _); [lia | rewrite R4; lia].
  - split_and!; try reflexivity; try assumption.
Qed.

End Tables.

Section TableOperations.

Variable cs : bool.

Implicit Types (t : SymTable) (k : string) (node : SymTableNode).

(** *** SymTable_new *)

Lemma SymTable_new_Some p q t0 :
  SymTable_new p q = Some t0 ->
  t0 = {| buckets := replicate 509 []; bucketCount := 509;
          nodeQuantity := 0; currentPrimeIndex := 0 |}.
Proof.
  unfold SymTable_new.
  destruct (p =? NULL); [discriminate |].
  destruct (q =? NULL); [discriminate |].
  intros E. injection E as <-. reflexivity.
Qed.

Lemma SymTable_new_inv p q t0 :
  SymTable_new p q = Some t0 -> SymTable_inv cs t0 /\ all_nodes t0 = [].
Proof.
  intros E. apply SymTable_new_Some in E. subst t0.
  assert (Hn : all_nodes
                 {| buckets := replicate 509 []; bucketCount := 509;
                    nodeQuantity := 0; currentPrimeIndex := 0 |} = [])
    by apply (concat_replicate_nil 509).
  split; [| exact Hn].
  unfold SymTable_inv, keys. rewrite Hn. cbn [bucketCount buckets
    currentPrimeIndex nodeQuantity].
  split; [unfold PRIME_COUNT; simpl; lia |].
  split; [reflexivity |].
  split; [apply length_replicate |].
  split; [apply placed_replicate |].
  split; [constructor |].
  split; [reflexivity |].
  split; constructor.
Qed.

(** *** SymTable_put *)

Lemma SymTable_put_unfold t k v a :
  SymTable_put cs t k v a
  = let t1 := put_resized cs t a in
    let index :=
      Z.to_nat (symtablehash_hashFunction cs k (bucketCount t1)) in
    if put_duplicate k (buckets t1 !!! index) then (0, t1)
    else if malloc_psNewNode a =? NULL then (0, t1)
    else if malloc_pcKey a =? NULL then (0, t1)
    else
      (1, {| buckets :=
               <[index := put_node k v a :: buckets t1 !!! index]>
                 (buckets t1);
             bucketCount := bucketCount t1;
             nodeQuantity := to_size_t (nodeQuantity t1 + 1);
             currentPrimeIndex := currentPrimeIndex t1 |}).
Proof. reflexivity. Qed.

Lemma keys_Permutation t t' :
  all_nodes t ≡ₚ all_nodes t' -> keys t ≡ₚ keys t'.
Proof. intros H. unfold keys. now rewrite H. Qed.

Lemma SymTable_put_present t k v a :
  SymTable_inv cs t -> k ∈ keys t ->
  SymTable_put cs t k v a = (0, put_resized cs t a).
Proof.
  intros H Hk. rewrite SymTable_put_unfold. cbv zeta.
  destruct (put_resized_spec cs t a H) as (H1 & HP & _).
  rewrite (proj2 (put_duplicate_true _ _)); [reflexivity |].
  apply (bucket_keys cs _ k H1). now rewrite (keys_Permutation _ _ HP).
Qed.

Lemma SymTable_put_alloc_fail t k v a :
  malloc_psNewNode a = NULL \/ malloc_pcKey a = NULL ->
  SymTable_put cs t k v a = (0, put_resized cs t a).
Proof.
  intros Hf. rewrite SymTable_put_unfold. cbv zeta.
  destruct (put_duplicate _ _); [reflexivity |].
  destruct (Z.eqb_spec (malloc_psNewNode a) NULL); [reflexivity |].
  destruct (Z.eqb_spec (malloc_pcKey a) NULL); [reflexivity |].
  tauto.
Qed.

Lemma SymTable_put_absent t k v a :
  SymTable_inv cs t -> k ∉ keys t ->
  malloc_psNewNode a <> NULL -> malloc_pcKey a <> NULL ->
  exists t',
    SymTable_put cs t k v a = (1, t') /\
    all_nodes t' ≡ₚ put_node k v a :: all_nodes t /\
    bucketCount t' = bucketCount (put_resized cs t a) /\
    currentPrimeIndex t' = currentPrimeIndex (put_resized cs t a) /\
    nodeQuantity t' = to_size_t (nodeQuantity t + 1) /\
    (malloc_fresh t a -> SymTable_inv cs t').
Proof.
  intros H Hk Hn Hc. rewrite SymTable_put_unfold. cbv zeta.
  destruct (put_resized_spec cs t a H) as (H1 & HP & HQ & _).
  set (t1 := put_resized cs t a) in *.
  set (i := Z.to_nat (symtablehash_hashFunction cs k (bucketCount t1))).
  rewrite (proj2 (put_duplicate_false _ _)).
  2:{ intros Hin. apply (bucket_keys cs _ k H1) in Hin.
      apply Hk. now rewrite <- (keys_Permutation _ _ HP). }
  rewrite (proj2 (Z.eqb_neq _ _) Hn), (proj2 (Z.eqb_neq _ _) Hc).
  eexists. split; [reflexivity |].
  pose proof (inv_index_lt cs t1 k H1) as Hlt. fold i in Hlt.
  assert (HA : all_nodes
                 {| buckets :=
                      <[i := put_node k v a :: buckets t1 !!! i]> (buckets t1);
                    bucketCount := bucketCount t1;
                    nodeQuantity := to_size_t (nodeQuantity t1 + 1);
                    currentPrimeIndex := currentPrimeIndex t1 |}
               ≡ₚ put_node k v a :: all_nodes t).
  { unfold all_nodes at 1. simpl. rewrite concat_insert_cons by exact Hlt.
    constructor. exact HP. }
  split_and!; try reflexivity.
  - exact HA.
  - simpl. now rewrite HQ.
  - intros [Hnull | (Hrange & Hfresh)]; [contradiction |].
    destruct H as (_ & _ & _ & _ & Hkeys & Hq & Haddr & Hr).
    assert (HD : NoDup (malloc_psNewNode a :: (psNode <$> all_nodes t)))
      by now apply NoDup_cons.
    assert (HR : Forall (fun x => 0 < x < 2 ^ SIZE_WIDTH)
                   (malloc_psNewNode a :: (psNode <$> all_nodes t))).
    { constructor; [exact Hrange |]. apply Forall_fmap. exact Hr. }
    pose proof (NoDup_bounded_length _ (2 ^ SIZE_WIDTH) ltac:(reflexivity)
                  HD HR) as Hlen.
    rewrite length_cons, length_fmap in Hlen.
    apply inv_set_bucket; try exact H1.
    + intros x Hx. apply elem_of_cons in Hx as [-> | Hx]; [reflexivity |].
      destruct H1 as (_ & _ & _ & Hp & _).
      apply (proj1 (placed_spec cs _ _) Hp i (buckets t1 !!! i));
        [| exact Hx].
      now apply list_lookup_lookup_total_lt.
    + unfold keys. rewrite HA. simpl. now apply NoDup_cons.
    + rewrite HA. simpl length. rewrite HQ, Hq.
      rewrite to_size_t_small by lia. lia.
    + rewrite HA. exact HD.
    + rewrite HA. constructor; [exact Hrange | exact Hr].
Qed.

Lemma SymTable_put_inv t k v a :
  SymTable_inv cs t -> malloc_fresh t a ->
  SymTable_inv cs (snd (SymTable_put cs t k v a)) /\
  bucketCount t <= bucketCount (snd (SymTable_put cs t k v a)).
Proof.
  intros H Hf.
  destruct (put_resized_spec cs t a H) as (H1 & _ & _ & Hb).
  destruct (decide (k ∈ keys t)) as [Hk | Hk].
  { rewrite SymTable_put_present by assumption. simpl. auto. }
  destruct (decide (malloc_psNewNode a = NULL)) as [Hn | Hn].
  { rewrite SymTable_put_alloc_fail by auto. simpl. auto. }
  destruct (decide (malloc_pcKey a = NULL)) as [Hc | Hc].
  { rewrite SymTable_put_alloc_fail by auto. simpl. auto. }
  destruct (SymTable_put_absent t k v a H Hk Hn Hc)
    as (t' & -> & _ & Hb' & _ & _ & Hinv).
  simpl. split; [now apply Hinv | lia].
Qed.

End TableOperations.

Section RemoveReplaceMap.

Variable cs : bool.

Implicit Types (t : SymTable) (k : string) (node : SymTableNode).

(** *** SymTable_remove *)

Lemma SymTable_remove_absent t k :
  SymTable_inv cs t -> k ∉ keys t -> SymTable_remove cs t k = (NULL, t).
Proof.
  intros H Hk. unfold SymTable_remove.
  rewrite (proj2 (remove_chain_None _ _)); [reflexivity |].
  intros Hin. apply Hk. now apply (bucket_keys cs t k H).
Qed.

Lemma SymTable_remove_present t k :
  SymTable_inv cs t -> k ∈ keys t ->
  exists node t',
    SymTable_remove cs t k = (pvValue node, t') /\
    pcKey node = k /\
    pvValue node = SymTable_get cs t k /\
    all_nodes t ≡ₚ node :: all_nodes t' /\
    nodeQuantity t' = nodeQuantity t - 1 /\
    bucketCount t' = bucketCount t /\
    currentPrimeIndex t' = currentPrimeIndex t /\
    SymTable_inv cs t'.
Proof.
  intros H Hk. unfold SymTable_remove, SymTable_get.
  set (i := Z.to_nat (symtablehash_hashFunction cs k (bucketCount t))).
  pose proof (inv_index_lt cs t k H) as Hlt. fold i in Hlt.
  destruct (inv_bucket_split cs t k H) as (E & HA & HB). fold i in E, HA, HB.
  destruct (remove_chain k (buckets t !!! i)) as [[v c'] |] eqn:R.
  2:{ apply remove_chain_None in R. exfalso. apply R.
      now apply (bucket_keys cs t k H). }
  destruct (remove_chain_Some _ _ _ _ R)
    as (c1 & node & c2 & Ec & -> & Hkey & <- & Hc1).
  exists node. eexists. split; [reflexivity |].
  assert (HP : all_nodes t
               ≡ₚ node :: concat (take i (buckets t)) ++ (c1 ++ c2)
                    ++ concat (drop (S i) (buckets t))).
  { rewrite E, Ec. rewrite <- !app_assoc. simpl.
    rewrite (app_assoc _ c1). rewrite <- Permutation_middle.
    now rewrite <- app_assoc. }
  rewrite <- all_nodes_set_bucket
    with (q := to_size_t (nodeQuantity t - 1)) in HP by exact Hlt.
  pose proof H as (_ & _ & _ & Hp & Hkeys & Hq & Haddr & Hr).
  assert (Hlen : length (all_nodes t) = Datatypes.S (length (all_nodes
            {| buckets := <[i:=c1 ++ c2]> (buckets t);
               bucketCount := bucketCount t;
               nodeQuantity := to_size_t (nodeQuantity t - 1);
               currentPrimeIndex := currentPrimeIndex t |})))
    by now rewrite HP.
  assert (Hbound : nodeQuantity t < 2 ^ SIZE_WIDTH).
  { rewrite Hq, <- (length_fmap psNode).
    apply NoDup_bounded_length; [reflexivity | exact Haddr |].
    apply Forall_fmap. exact Hr. }
  assert (Hnq : to_size_t (nodeQuantity t - 1) = nodeQuantity t - 1)
    by (apply to_size_t_small; lia).
  split_and!; try reflexivity.
  - exact Hkey.
  - rewrite Ec, get_chain_app_r by exact Hc1. simpl.
    rewrite strcmp_eqb, bool_decide_eq_true_2; [reflexivity | now symmetry].
  - exact HP.
  - exact Hnq.
  - unfold keys in Hkeys. rewrite HP in Hkeys, Haddr, Hr.
    simpl in Hkeys, Haddr. apply NoDup_cons in Hkeys as [_ Hkeys].
    apply NoDup_cons in Haddr as [_ Haddr].
    apply Forall_cons in Hr as [_ Hr].
    apply inv_set_bucket; try assumption.
    + intros x Hx.
      apply (proj1 (placed_spec cs _ _) Hp i (buckets t !!! i)).
      * now apply list_lookup_lookup_total_lt.
      * rewrite Ec. rewrite elem_of_app in Hx. rewrite elem_of_app.
        rewrite elem_of_cons. tauto.
    + transitivity (nodeQuantity t - 1); [exact Hnq | lia].
Qed.

(** *** SymTable_replace *)

Lemma SymTable_replace_NULL t k : SymTable_replace cs t k NULL = None.
Proof. reflexivity. Qed.

Lemma SymTable_replace_absent t k v :
  v <> NULL -> SymTable_inv cs t -> k ∉ keys t ->
  SymTable_replace cs t k v = Some (NULL, t).
Proof.
  intros Hv H Hk. unfold SymTable_replace.
  rewrite (proj2 (Z.eqb_neq _ _) Hv).
  rewrite (proj2 (replace_chain_None _ _ _)); [reflexivity |].
  intros Hin. apply Hk. now apply (bucket_keys cs t k H).
Qed.

Lemma SymTable_replace_present t k v :
  v <> NULL -> SymTable_inv cs t -> k ∈ keys t ->
  let i := Z.to_nat (symtablehash_hashFunction cs k (bucketCount t)) in
  exists c1 node c2 t',
    SymTable_replace cs t k v = Some (pvValue node, t') /\
    pcKey node = k /\
    pvValue node = SymTable_get cs t k /\
    buckets t !!! i = c1 ++ node :: c2 /\
    t' = {| buckets := <[i := c1 ++ set_value node v :: c2]> (buckets t);
            bucketCount := bucketCount t;
            nodeQuantity := nodeQuantity t;
            currentPrimeIndex := currentPrimeIndex t |} /\
    (k ∉ pcKey <$> c1) /\
    SymTable_inv cs t'.
Proof.
  intros Hv H Hk i. unfold SymTable_replace, SymTable_get. fold i.
  rewrite (proj2 (Z.eqb_neq _ _) Hv).
  pose proof (inv_index_lt cs t k H) as Hlt. fold i in Hlt.
  destruct (inv_bucket_split cs t k H) as (E & HA & HB). fold i in E, HA, HB.
  destruct (replace_chain k v (buckets t !!! i)) as [[old c'] |] eqn:R.
  2:{ apply replace_chain_None in R. exfalso. apply R.
      now apply (bucket_keys cs t k H). }
  destruct (replace_chain_Some _ _ _ _ _ R)
    as (c1 & node & c2 & Ec & -> & Hkey & <- & Hc1).
  exists c1, node, c2. eexists. split; [reflexivity |].
  pose proof H as (_ & _ & _ & Hp & Hkeys & Hq & Haddr & Hr).
  split_and!; try reflexivity; try assumption.
  - rewrite Ec, get_chain_app_r by exact Hc1. simpl.
    rewrite strcmp_eqb, bool_decide_eq_true_2; [reflexivity | now symmetry].
  - unfold keys, all_nodes in Hkeys. unfold all_nodes in Hq, Haddr, Hr, E.
    rewrite E, Ec in Hkeys, Hq, Haddr, Hr.
    apply inv_set_bucket; try assumption.
    + intros x Hx.
      assert (Hx' : pcKey x ∈ pcKey <$> (buckets t !!! i)).
      { rewrite Ec. rewrite elem_of_app, elem_of_cons in Hx.
        rewrite fmap_app, fmap_cons, elem_of_app, elem_of_cons.
        destruct Hx as [Hx | [-> | Hx]]; simpl;
          auto using list_elem_of_fmap_2. }
      apply list_elem_of_fmap in Hx' as (y & Ey & Hy). rewrite Ey.
      apply (proj1 (placed_spec cs _ _) Hp i (buckets t !!! i));
        [now apply list_lookup_lookup_total_lt | exact Hy].
    + unfold keys. rewrite all_nodes_set_bucket by exact Hlt.
      rewrite !fmap_app, fmap_cons in *. exact Hkeys.
    + rewrite all_nodes_set_bucket by exact Hlt.
      rewrite !length_app in *. exact Hq.
    + rewrite all_nodes_set_bucket by exact Hlt.
      rewrite !fmap_app, fmap_cons in *. exact Haddr.
    + rewrite all_nodes_set_bucket by exact Hlt.
      rewrite !Forall_app, Forall_cons in *. exact Hr.
Qed.

(** *** SymTable_map *)

Lemma map_fold_indices {S : Type} (f : string -> ptr -> ptr -> S -> S) e
    (bs : list (list SymTableNode)) (idxs : list nat) s :
  fold_left (fun s i => map_chain f e (bs !!! i) s) idxs s
  = fold_left (fun s node => f (pcKey node) (pvValue node) e s)
      (concat ((fun i => bs !!! i) <$> idxs)) s.
Proof.
  revert s. induction idxs as [| i idxs IH]; intros s; simpl; [reflexivity |].
  rewrite IH, map_chain_fold, fold_left_app. reflexivity.
Qed.

Lemma SymTable_map_NULL {S : Type} t (f : string -> ptr -> ptr -> S -> S) s :
  SymTable_map t f NULL s = None.
Proof. reflexivity. Qed.

Lemma SymTable_map_all_nodes {S : Type} t
    (f : string -> ptr -> ptr -> S -> S) e s :
  length (buckets t) = Z.to_nat (bucketCount t) -> e <> NULL ->
  SymTable_map t f e s
  = Some (fold_left (fun s node => f (pcKey node) (pvValue node) e s)
            (all_nodes t) s).
Proof.
  intros Hl He. unfold SymTable_map.
  rewrite (proj2 (Z.eqb_neq _ _) He).
  rewrite map_fold_indices, <- Hl, fmap_lookup_total_seq. reflexivity.
Qed.

Lemma record_call_fold e (l : list SymTableNode) s :
  fold_left (fun s node => record_call (pcKey node) (pvValue node) e s) l s
  = s ++ ((fun node => (pcKey node, pvValue node, e)) <$> l).
Proof.
  revert s. induction l as [| node l IH]; intros s; simpl.
  - now rewrite app_nil_r.
  - rewrite IH. unfold record_call. now rewrite <- app_assoc.
Qed.

(** *** Sequences of calls *)

Lemma step_inv t op t' :
  SymTable_inv cs t -> env_ok t op -> step cs t op = Some t' ->
  SymTable_inv cs t' /\ bucketCount t <= bucketCount t'.
Proof.
  intros H He Hs.
  destruct op as [k v a | k v | k | S f e s]; cbn [step env_ok] in *.
  - injection Hs as <-. now apply SymTable_put_inv.
  - destruct (decide (v = NULL)) as [-> | Hv].
    { rewrite SymTable_replace_NULL in Hs. discriminate. }
    destruct (decide (k ∈ keys t)) as [Hk | Hk].
    + destruct (SymTable_replace_present t k v Hv H Hk)
        as (c1 & node & c2 & t2 & Er & _ & _ & _ & E & _ & Hinv).
      rewrite Er in Hs. injection Hs as <-.
      split; [exact Hinv |]. subst t2. simpl. lia.
    + rewrite SymTable_replace_absent in Hs by assumption.
      injection Hs as <-. split; [exact H | lia].
  - injection Hs as <-.
    destruct (decide (k ∈ keys t)) as [Hk | Hk].
    + destruct (SymTable_remove_present t k H Hk)
        as (node & t2 & Er & _ & _ & _ & _ & Hb & _ & Hinv).
      rewrite Er. simpl. split; [exact Hinv | lia].
    + rewrite SymTable_remove_absent by assumption. simpl.
      split; [exact H | lia].
  - destruct (SymTable_map t f e s); [| discriminate].
    injection Hs as <-. split; [exact H | lia].
Qed.

Lemma steps_inv t t' :
  SymTable_inv cs t -> steps cs t t' ->
  SymTable_inv cs t' /\ bucketCount t <= bucketCount t'.
Proof.
  intros H Hs. induction Hs as [| t1 op t2 Hs IH He Hstep].
  - split; [exact H | lia].
  - destruct IH as [IH1 IH2].
    destruct (step_inv t1 op t2 IH1 He Hstep) as [S1 S2].
    split; [exact S1 | lia].
Qed.

Lemma steps_trans t t1 t2 :
  steps cs t t1 -> steps cs t1 t2 -> steps cs t t2.
Proof.
  intros H1 H2. induction H2 as [| t2 op t3 H2 IH He Hs]; [exact H1 |].
  eapply steps_step; eassumption.
Qed.

Lemma reachable_inv t : reachable cs t -> SymTable_inv cs t.
Proof.
  intros (p & q & t0 & Hnew & Hs).
  apply (SymTable_new_inv cs) in Hnew as [H0 _].
  now apply (steps_inv t0 t H0).
Qed.

End RemoveReplaceMap.

(** * The claims about the hash table *)

Section HashTableClaims.

Variable cs : bool.

Implicit Types (t : SymTable) (k : string) (node : SymTableNode).

Lemma byte_value_range (c : ascii) : 0 <= byte_value c < 256.
Proof.
  unfold byte_value. pose proof (N_ascii_bounded c). lia.
Qed.

Lemma converted_value_to_uint (c : ascii) :
  converted_value cs c = to_uint (char_value cs c).
Proof.
  pose proof (byte_value_range c) as Hb.
  unfold converted_value, char_value, to_uint, UINT_WIDTH.
  fold (byte_value c).
  destruct (cs && (128 <=? byte_value c)) eqn:E.
  - apply andb_true_iff in E as [_ E%Z.leb_le].
    apply (Z.mod_unique_pos _ _ (-1)); lia.
  - symmetry. apply Z.mod_small. lia.
Qed.

Lemma hash_reference_converted key :
  hash_reference cs key
  = fold_left
      (fun accumulator c =>
         (Z.shiftl accumulator 5 + converted_value cs c) mod 2 ^ UINT_WIDTH)
      (list_ascii_of_string key) 0.
Proof.
  unfold hash_reference. generalize 0.
  induction (list_ascii_of_string key) as [| c l IH]; intros h; simpl.
  - reflexivity.
  - rewrite IH. f_equal.
    rewrite converted_value_to_uint. unfold to_uint.
    now rewrite Zplus_mod_idemp_r.
Qed.

Lemma hash_reference_spec key :
  cs = false \/
  Forall (fun c => byte_value c < 128) (list_ascii_of_string key) ->
  hash_reference cs key = hash_spec key.
Proof.
  intros H. rewrite hash_reference_converted. unfold hash_spec.
  generalize 0.
  assert (Hl : Forall (fun c => converted_value cs c = byte_value c)
                 (list_ascii_of_string key)).
  { destruct H as [-> | H]; [apply Forall_forall; intros; reflexivity |].
    eapply Forall_impl; [exact H |]. intros c Hc. simpl in Hc.
    unfold converted_value.
    destruct (Z.leb_spec 128 (byte_value c)); [lia |].
    now rewrite andb_false_r. }
  clear H.
  induction Hl as [| c l Hc _ IH]; intros h; simpl.
  - reflexivity.
  - rewrite Hc. apply IH.
Qed.

(** C9, amended.  The hash is a total function of the key alone; the empty
    key hashes to 0.  It is the fold that seeds an accumulator at 0 and has
    each character replace it by [(accumulator << 5) + value] modulo 2^32,
    where the value is the plain char converted to unsigned int: the byte
    value when plain char is unsigned or the byte is below 128, and the
    byte value plus 2^32 - 256 (its sign extension) for a byte of 128 or
    more when plain char is signed.  Hence the code equals the fold over
    byte values of the specification, [hash_spec], on every key when plain
    char is unsigned and on every key of bytes below 128 on any host, and
    differs from it already on a single byte of 128 or more when plain char
    is signed.  The index that [symtablehash_hashFunction] returns for a
    bucket count [n] is the hash modulo [n], and it is the index of the
    chain walked by contains, get, remove, replace and put (for put: under
    the bucket count left by the conditional resize) and of the chain into
    which the resize links a node. *)
Theorem hash_function_contract :
  (forall key n, 0 < n ->
     symtablehash_hashFunction cs key n = hash_reference cs key mod n) /\
  (forall key,
     hash_reference cs key
     = fold_left
         (fun accumulator c =>
            (Z.shiftl accumulator 5 + converted_value cs c)
              mod 2 ^ UINT_WIDTH)
         (list_ascii_of_string key) 0) /\
  (forall c, converted_value cs c = to_uint (char_value cs c)) /\
  (forall key,
     cs = false \/
     Forall (fun c => byte_value c < 128) (list_ascii_of_string key) ->
     hash_reference cs key = hash_spec key /\
     forall n, 0 < n ->
       symtablehash_hashFunction cs key n = hash_spec key mod n) /\
  (forall c, cs = true -> 128 <= byte_value c ->
     hash_reference cs (String c EmptyString)
     = byte_value c + (2 ^ UINT_WIDTH - 256) /\
     hash_spec (String c EmptyString) = byte_value c /\
     hash_reference cs (String c EmptyString)
     <> hash_spec (String c EmptyString)) /\
  hash_reference cs EmptyString = 0 /\
  hash_spec EmptyString = 0 /\
  (forall key, 0 <= hash_reference cs key < 2 ^ UINT_WIDTH) /\
  (forall c, cs = false \/ (N_of_ascii c < 128)%N ->
     char_value cs c = Z.of_N (N_of_ascii c)) /\
  (forall t key, 0 < bucketCount t ->
     let i := Z.to_nat (hash_reference cs key mod bucketCount t) in
     SymTable_contains cs t key = contains_chain key (buckets t !!! i) /\
     SymTable_get cs t key = get_chain key (buckets t !!! i) /\
     SymTable_remove cs t key
     = match remove_chain key (buckets t !!! i) with
       | Some (oldValue, chain) =>
           (oldValue,
            {| buckets := <[i := chain]> (buckets t);
               bucketCount := bucketCount t;
               nodeQuantity := to_size_t (nodeQuantity t - 1);
               currentPrimeIndex := currentPrimeIndex t |})
       | None => (NULL, t)
       end /\
     (forall v, v <> NULL ->
        SymTable_replace cs t key v
        = match replace_chain key v (buckets t !!! i) with
          | Some (oldValue, chain) =>
              Some (oldValue,
                    {| buckets := <[i := chain]> (buckets t);
                       bucketCount := bucketCount t;
                       nodeQuantity := nodeQuantity t;
                       currentPrimeIndex := currentPrimeIndex t |})
          | None => Some (NULL, t)
          end)) /\
  (forall t key v a, 0 < bucketCount (put_resized cs t a) ->
     let t1 := put_resized cs t a in
     let i := Z.to_nat (hash_reference cs key mod bucketCount t1) in
     SymTable_put cs t key v a
     = if put_duplicate key (buckets t1 !!! i) then (0, t1)
       else if malloc_psNewNode a =? NULL then (0, t1)
       else if malloc_pcKey a =? NULL then (0, t1)
       else (1, {| buckets :=
                     <[i := put_node key v a :: buckets t1 !!! i]>
                       (buckets t1);
                   bucketCount := bucketCount t1;
                   nodeQuantity := to_size_t (nodeQuantity t1 + 1);
                   currentPrimeIndex := currentPrimeIndex t1 |})) /\
  (forall n node chain newBuckets, 0 < n ->
     let j := Z.to_nat (hash_reference cs (pcKey node) mod n) in
     resize_chain cs n (node :: chain) newBuckets
     = resize_chain cs n chain
         (<[j := node :: newBuckets !!! j]> newBuckets)).
Proof.
  split_and!.
  - apply hashFunction_reference.
  - apply hash_reference_converted.
  - apply converted_value_to_uint.
  - intros key Hkey. split; [now apply hash_reference_spec |].
    intros n Hn. rewrite hashFunction_reference by exact Hn.
    now rewrite hash_reference_spec.
  - intros c Hcs Hc. pose proof (byte_value_range c) as Hb.
    assert (H1 : hash_reference cs (String c EmptyString)
                 = byte_value c + (2 ^ UINT_WIDTH - 256)).
    { rewrite hash_reference_converted. simpl.
      unfold converted_value. rewrite Hcs.
      rewrite (proj2 (Z.leb_le _ _) Hc). simpl.
      apply Z.mod_small. unfold UINT_WIDTH. lia. }
    assert (H2 : hash_spec (String c EmptyString) = byte_value c).
    { unfold hash_spec. simpl. apply Z.mod_small. unfold UINT_WIDTH. lia. }
    split_and!; [exact H1 | exact H2 |].
    rewrite H1, H2. unfold UINT_WIDTH. lia.
  - reflexivity.
  - reflexivity.
  - apply hash_reference_range.
  - intros c Hc. unfold char_value.
    destruct cs; [| reflexivity]. simpl.
    destruct (Z.leb_spec 128 (Z.of_N (N_of_ascii c))); [| reflexivity].
    destruct Hc as [Hc | Hc]; [discriminate | lia].
  - intros t key Hb i. subst i.
    rewrite <- hashFunction_reference by exact Hb.
    split_and!; try reflexivity.
    intros v Hv. unfold SymTable_replace.
    now rewrite (proj2 (Z.eqb_neq _ _) Hv).
  - intros t key v a Hb t1 i. subst i t1.
    rewrite <- hashFunction_reference by exact Hb.
    apply SymTable_put_unfold.
  - intros n node chain newBuckets Hn j. subst j.
    rewrite <- hashFunction_reference by exact Hn.
    reflexivity.
Qed.


(** A run of puts of new, pairwise distinct keys whose allocations succeed:
    every call returns 1 and links exactly its own node. *)
Lemma put_all_spec t (calls : list (string * ptr * PutAllocs)) :
  SymTable_inv cs t ->
  NoDup ((calls.*1.*1) ++ keys t) ->
  NoDup (((fun c => malloc_psNewNode c.2) <$> calls)
         ++ (psNode <$> all_nodes t)) ->
  Forall (fun c => 0 < malloc_psNewNode c.2 < 2 ^ SIZE_WIDTH /\
                   malloc_pcKey c.2 <> NULL) calls ->
  Forall (fun r => r = 1) (put_all cs t calls).1 /\
  length (put_all cs t calls).1 = length calls /\
  SymTable_inv cs (put_all cs t calls).2 /\
  all_nodes (put_all cs t calls).2
  ≡ₚ ((fun c => put_node c.1.1 c.1.2 c.2) <$> calls) ++ all_nodes t /\
  steps cs t (put_all cs t calls).2.
Proof.
  revert t. induction calls as [| [[k v] a] calls IH]; intros t H HK HA HF.
  - simpl. split_and!;
      [constructor | reflexivity | exact H | reflexivity | constructor].
  - cbn [fmap list_fmap fst snd app] in HK, HA.
    apply NoDup_cons in HK as [Hk HK]. apply NoDup_cons in HA as [Ha HA].
    apply Forall_cons in HF as [[Hr Hc] HF]. cbn [fst snd] in *.
    rewrite not_elem_of_app in Hk. rewrite not_elem_of_app in Ha.
    assert (Hn : malloc_psNewNode a <> NULL) by (unfold NULL; lia).
    destruct (SymTable_put_absent cs t k v a H (proj2 Hk) Hn Hc)
      as (t1 & E & HP & _ & _ & _ & Hinv).
    specialize (Hinv (or_intror (conj Hr (proj2 Ha)))).
    assert (Hstep : steps cs t t1).
    { apply (steps_step cs t t (OpPut k v a) t1); [constructor | |].
      - right. exact (conj Hr (proj2 Ha)).
      - cbn [step]. now rewrite E. }
    cbn [put_all]. rewrite E.
    destruct (IH t1 Hinv) as (I1 & I2 & I3 & I4 & I5).
    + unfold keys. rewrite HP. cbn [fmap list_fmap pcKey].
      rewrite <- Permutation_middle. apply NoDup_cons.
      split; [| exact HK]. rewrite not_elem_of_app. tauto.
    + rewrite HP. cbn [fmap list_fmap psNode].
      rewrite <- Permutation_middle. apply NoDup_cons.
      split; [| exact HA]. rewrite not_elem_of_app. tauto.
    + exact HF.
    + destruct (put_all cs t1 calls) as [rs t2]. cbn [fst snd] in *.
      split_and!.
      * constructor; [reflexivity | exact I1].
      * simpl. now rewrite I2.
      * exact I3.
      * rewrite I4, HP. cbn [fmap list_fmap fst snd].
        rewrite <- Permutation_middle. reflexivity.
      * now apply (steps_trans cs t t1 t2).
Qed.

(** C1.  On a freshly created table, a sequence of [SymTable_put] calls
    with pairwise distinct keys, whose node and key allocations succeed
    (with the distinct non-NULL addresses that [malloc] hands out), returns
    1 at every call; afterwards [SymTable_getLength] is the number of calls,
    and every inserted key is contained and is bound by [SymTable_get] to
    the value supplied with it. *)
Theorem put_distinct_keys p q t0 (calls : list (string * ptr * PutAllocs)) :
  SymTable_new p q = Some t0 ->
  NoDup (calls.*1.*1) ->
  NoDup ((fun c => malloc_psNewNode c.2) <$> calls) ->
  Forall (fun c => 0 < malloc_psNewNode c.2 < 2 ^ SIZE_WIDTH /\
                   malloc_pcKey c.2 <> NULL) calls ->
  Forall (fun r => r = 1) (put_all cs t0 calls).1 /\
  length (put_all cs t0 calls).1 = length calls /\
  SymTable_getLength (put_all cs t0 calls).2 = Z.of_nat (length calls) /\
  (forall k v a, (k, v, a) ∈ calls ->
     SymTable_contains cs (put_all cs t0 calls).2 k = 1 /\
     SymTable_get cs (put_all cs t0 calls).2 k = v).
Proof.
  intros Hnew HK HA HF.
  destruct (SymTable_new_inv cs p q t0 Hnew) as [H0 Hnil].
  destruct (put_all_spec t0 calls H0) as (R1 & R2 & R3 & R4 & _).
  - unfold keys. rewrite Hnil. simpl. now rewrite app_nil_r.
  - rewrite Hnil. simpl. now rewrite app_nil_r.
  - exact HF.
  - rewrite Hnil, app_nil_r in R4.
    split_and!; try assumption.
    + unfold SymTable_getLength.
      destruct R3 as (_ & _ & _ & _ & _ & Hq & _). rewrite Hq, R4.
      now rewrite length_fmap.
    + intros k v a Hin.
      assert (Hnode : put_node k v a ∈ all_nodes (put_all cs t0 calls).2).
      { rewrite R4. apply list_elem_of_fmap. now exists (k, v, a). }
      split.
      * apply SymTable_contains_keys; [exact R3 |].
        unfold keys. apply list_elem_of_fmap. now exists (put_node k v a).
      * rewrite SymTable_get_all_nodes by exact R3.
        apply (get_chain_present _ (put_node k v a)); [| exact Hnode].
        now destruct R3 as (_ & _ & _ & _ & Hkeys & _).
Qed.


(** Two tables with the same bindings answer every lookup alike. *)
Lemma lookups_Permutation t t' :
  SymTable_inv cs t -> SymTable_inv cs t' ->
  all_nodes t' ≡ₚ all_nodes t ->
  forall k,
    SymTable_contains cs t' k = SymTable_contains cs t k /\
    SymTable_get cs t' k = SymTable_get cs t k.
Proof.
  intros H H' HP k.
  rewrite !SymTable_contains_all_nodes, !SymTable_get_all_nodes by assumption.
  split.
  - now apply contains_chain_Permutation.
  - apply get_chain_Permutation; [| exact HP].
    now destruct H' as (_ & _ & _ & _ & Hk & _).
Qed.

(** C2.  On a table that satisfies the structural invariant, the growth
    procedure leaves the binding count unchanged, keeps the very same nodes
    (addresses, key storage, keys and values: the nodes after are a
    permutation of the nodes before), and leaves the answers of
    [SymTable_contains] and [SymTable_get] unchanged for every key; when a
    larger prime remains and the bucket array is allocated, the capacity
    becomes the next prime and every node lies in the chain of its hash
    under that capacity. *)
Theorem resize_lossless t p :
  SymTable_inv cs t ->
  let t' := symtablehash_resizeHashTable cs t p in
  SymTable_getLength t' = SymTable_getLength t /\
  all_nodes t' ≡ₚ all_nodes t /\
  (forall k,
     SymTable_contains cs t' k = SymTable_contains cs t k /\
     SymTable_get cs t' k = SymTable_get cs t k) /\
  (currentPrimeIndex t + 1 < PRIME_COUNT -> p <> NULL ->
   currentPrimeIndex t' = currentPrimeIndex t + 1 /\
   bucketCount t' = primes !!! Z.to_nat (currentPrimeIndex t + 1) /\
   bucketCount t < bucketCount t' /\
   length (buckets t') = Z.to_nat (bucketCount t') /\
   (forall (i : nat) chain node,
      buckets t' !! i = Some chain -> node ∈ chain ->
      i = Z.to_nat (hash_reference cs (pcKey node) mod bucketCount t'))) /\
  SymTable_inv cs t'.
Proof.
  intros H t'. destruct (resize_spec cs t p H) as (R1 & R2 & R3 & R4).
  fold t' in R1, R2, R3, R4.
  split_and!; try assumption.
  - now apply lookups_Permutation.
  - intros Hlt Hp.
    rewrite (proj2 (Z.ltb_lt _ _) Hlt), (proj2 (Z.eqb_neq _ _) Hp) in R4.
    simpl in R4. destruct R4 as (E1 & E2 & E3).
    pose proof (inv_bucketCount cs t' R1) as [Hb _].
    destruct R1 as (_ & _ & Hl & Hpl & _).
    split_and!; try assumption.
    intros i chain node Hi Hin.
    rewrite <- hashFunction_reference by lia.
    symmetry. eapply (proj1 (placed_spec cs _ _) Hpl); eassumption.
Qed.

(** C3 (amended).  At the start of every [SymTable_put], whether or not the
    insertion then succeeds, the table grows to the next prime capacity
    exactly when the current load [nodeQuantity / bucketCount] exceeds 0.75
    (that is [3 * bucketCount < 4 * nodeQuantity]), a larger prime remains
    and the new bucket array is allocated.  Otherwise the table is left as
    it is.  In both cases the bindings are kept and the insertion of an
    absent key proceeds (and succeeds when its own allocations do) at the
    resulting capacity. *)
Theorem put_growth_policy t k v a :
  SymTable_inv cs t ->
  let grows :=
    load_factor_exceeded t && (currentPrimeIndex t + 1 <? PRIME_COUNT)
    && negb (calloc_newBuckets a =? NULL) in
  let t' := (SymTable_put cs t k v a).2 in
  load_factor_exceeded t = (3 * bucketCount t <? 4 * nodeQuantity t) /\
  (grows = true ->
   currentPrimeIndex t' = currentPrimeIndex t + 1 /\
   bucketCount t' = primes !!! Z.to_nat (currentPrimeIndex t + 1) /\
   bucketCount t < bucketCount t') /\
  (grows = false ->
   put_resized cs t a = t /\
   currentPrimeIndex t' = currentPrimeIndex t /\
   bucketCount t' = bucketCount t) /\
  all_nodes (put_resized cs t a) ≡ₚ all_nodes t /\
  (k ∉ keys t -> malloc_psNewNode a <> NULL -> malloc_pcKey a <> NULL ->
   (SymTable_put cs t k v a).1 = 1 /\
   all_nodes t' ≡ₚ put_node k v a :: all_nodes t).
Proof.
  intros H grows t'.
  pose proof (inv_bucketCount cs t H) as [Hb _].
  destruct (put_resized_spec cs t a H) as (H1 & HP & HQ & Hle).
  assert (Hidx : currentPrimeIndex t' = currentPrimeIndex (put_resized cs t a)
                 /\ bucketCount t' = bucketCount (put_resized cs t a)).
  { subst t'. destruct (decide (k ∈ keys t)) as [Hk | Hk].
    { rewrite SymTable_put_present by assumption. auto. }
    destruct (decide (malloc_psNewNode a = NULL)) as [Hn | Hn].
    { rewrite SymTable_put_alloc_fail by auto. auto. }
    destruct (decide (malloc_pcKey a = NULL)) as [Hc | Hc].
    { rewrite SymTable_put_alloc_fail by auto. auto. }
    destruct (SymTable_put_absent cs t k v a H Hk Hn Hc)
      as (t2 & -> & _ & E1 & E2 & _). auto. }
  destruct Hidx as [Hi1 Hi2].
  assert (Hcase :
    if grows
    then currentPrimeIndex (put_resized cs t a) = currentPrimeIndex t + 1 /\
         bucketCount (put_resized cs t a)
         = primes !!! Z.to_nat (currentPrimeIndex t + 1) /\
         bucketCount t < bucketCount (put_resized cs t a)
    else put_resized cs t a = t).
  { subst grows. unfold put_resized.
    destruct (load_factor_exceeded t); simpl; [| reflexivity].
    destruct (resize_spec cs t (calloc_newBuckets a) H) as (_ & _ & _ & R).
    destruct (_ && _); exact R. }
  split_and!.
  - apply load_factor_exceeded_spec. lia.
  - intros Hg. rewrite Hg in Hcase. rewrite Hi1, Hi2. exact Hcase.
  - intros Hg. rewrite Hg in Hcase. rewrite Hi1, Hi2, Hcase. auto.
  - exact HP.
  - intros Hk Hn Hc.
    destruct (SymTable_put_absent cs t k v a H Hk Hn Hc)
      as (t2 & E & HP2 & _). subst t'. rewrite E. auto.
Qed.

(** C4.  Every table reachable from a freshly created one by calls of put,
    replace, remove and map (that return, with [malloc] honouring its
    contract) has at most one node per key, a stored count equal to the
    number of nodes on its chains, every node in the chain at index
    [hash(key) mod capacity], and a capacity taken from the prime table;
    and no further sequence of calls lowers the capacity. *)
Theorem reachable_invariants t :
  reachable cs t ->
  NoDup (keys t) /\
  SymTable_getLength t = Z.of_nat (length (all_nodes t)) /\
  length (buckets t) = Z.to_nat (bucketCount t) /\
  (forall (i : nat) chain node,
     buckets t !! i = Some chain -> node ∈ chain ->
     i = Z.to_nat (hash_reference cs (pcKey node) mod bucketCount t)) /\
  bucketCount t
  ∈ [509; 1021; 2039; 4093; 8191; 16381; 32771; 65537; 131071; 262147] /\
  (forall t', steps cs t t' -> bucketCount t <= bucketCount t').
Proof.
  intros Hr. pose proof (reachable_inv cs t Hr) as H.
  pose proof (inv_bucketCount cs t H) as [Hb Hprime].
  pose proof H as (_ & _ & Hl & Hp & Hk & Hq & _).
  split_and!; try assumption.
  - intros i chain node Hi Hin.
    rewrite <- hashFunction_reference by lia.
    symmetry. eapply (proj1 (placed_spec cs _ _) Hp); eassumption.
  - intros t' Hs. now apply (steps_inv cs t t' H).
Qed.


(** C5 (amended).  [SymTable_put] with a key that is already bound returns 0
    and leaves every binding as it is: the same nodes, the same length and
    the same answers of [SymTable_get] and [SymTable_contains] for every
    key, so nothing is overwritten.  The table it leaves is the one produced
    by the conditional resize that precedes the duplicate check: it is the
    original table unless the load exceeds 0.75, a larger prime remains and
    the bucket array is allocated. *)
Theorem put_present_fails t k v a :
  SymTable_inv cs t -> SymTable_contains cs t k = 1 ->
  let t' := (SymTable_put cs t k v a).2 in
  (SymTable_put cs t k v a).1 = 0 /\
  t' = put_resized cs t a /\
  (load_factor_exceeded t && (currentPrimeIndex t + 1 <? PRIME_COUNT)
   && negb (calloc_newBuckets a =? NULL) = false -> t' = t) /\
  SymTable_getLength t' = SymTable_getLength t /\
  all_nodes t' ≡ₚ all_nodes t /\
  (forall k',
     SymTable_contains cs t' k' = SymTable_contains cs t k' /\
     SymTable_get cs t' k' = SymTable_get cs t k').
Proof.
  intros H Hc t'. apply (SymTable_contains_keys cs t k H) in Hc.
  subst t'. rewrite SymTable_put_present by assumption. cbn [fst snd].
  destruct (put_resized_spec cs t a H) as (H1 & HP & HQ & _).
  split_and!; try reflexivity; try assumption.
  - unfold put_resized.
    destruct (load_factor_exceeded t); simpl; [| reflexivity].
    destruct (resize_spec cs t (calloc_newBuckets a) H) as (_ & _ & _ & R).
    intros Hg. now rewrite Hg in R.
  - now apply lookups_Permutation.
Qed.

(** C6.  On a table that satisfies the structural invariant,
    [SymTable_remove] of a present key returns the value bound to it (the
    value of its node, which is what [SymTable_get] returned), after which
    the key is not contained, the other nodes are all still there and the
    length has dropped by exactly one; of an absent key it returns NULL and
    leaves the table as it is. *)
Theorem remove_contract t k :
  SymTable_inv cs t ->
  (SymTable_contains cs t k = 1 ->
   let t' := (SymTable_remove cs t k).2 in
   (SymTable_remove cs t k).1 = SymTable_get cs t k /\
   (exists node,
      pcKey node = k /\ pvValue node = (SymTable_remove cs t k).1 /\
      all_nodes t ≡ₚ node :: all_nodes t') /\
   SymTable_contains cs t' k = 0 /\
   SymTable_getLength t' = SymTable_getLength t - 1 /\
   SymTable_inv cs t') /\
  (SymTable_contains cs t k = 0 ->
   SymTable_remove cs t k = (NULL, t)).
Proof.
  intros H. split.
  - intros Hc t'. apply (SymTable_contains_keys cs t k H) in Hc.
    destruct (SymTable_remove_present cs t k H Hc)
      as (node & t2 & E & Hk & Hv & HP & Hq & _ & _ & Hinv).
    subst t'. rewrite E. cbn [fst snd].
    split_and!; try assumption.
    + exists node. auto.
    + destruct (SymTable_contains_bool cs t2 k) as [E0 | E1]; [exact E0 |].
      exfalso. apply (SymTable_contains_keys cs t2 k Hinv) in E1.
      destruct H as (_ & _ & _ & _ & Hkeys & _).
      unfold keys in Hkeys, E1. rewrite HP in Hkeys. simpl in Hkeys.
      apply NoDup_cons in Hkeys as [Hnot _]. apply Hnot. now rewrite Hk.
  - intros Hc. apply SymTable_remove_absent; [exact H |].
    intros Hin. apply (SymTable_contains_keys cs t k H) in Hin. lia.
Qed.

(** C7 (amended).  With a new value that is not NULL (the function asserts
    it), on a table that satisfies the structural invariant,
    [SymTable_replace] of a present key returns the prior value and
    overwrites the value field of that one node and nothing else: the bucket
    array differs only in that node, whose address, key storage and key are
    kept; [SymTable_get] then returns the new value for the key and what it
    returned before for every other key; containment, length, capacity and
    prime index are unchanged.  Of an absent key it returns NULL and leaves
    the table as it is. *)
Theorem replace_frame t k v :
  v <> NULL -> SymTable_inv cs t ->
  (SymTable_contains cs t k = 1 ->
   exists t',
     SymTable_replace cs t k v = Some (SymTable_get cs t k, t') /\
     SymTable_get cs t' k = v /\
     (exists (i : nat) c1 node c2,
        buckets t !! i = Some (c1 ++ node :: c2) /\
        pcKey node = k /\
        buckets t' = <[i := c1 ++ set_value node v :: c2]> (buckets t)) /\
     (forall k', k' <> k -> SymTable_get cs t' k' = SymTable_get cs t k') /\
     (forall k', SymTable_contains cs t' k' = SymTable_contains cs t k') /\
     SymTable_getLength t' = SymTable_getLength t /\
     bucketCount t' = bucketCount t /\
     currentPrimeIndex t' = currentPrimeIndex t /\
     SymTable_inv cs t') /\
  (SymTable_contains cs t k = 0 ->
   SymTable_replace cs t k v = Some (NULL, t)).
Proof.
  intros Hv H. split.
  - intros Hc. apply (SymTable_contains_keys cs t k H) in Hc.
    pose proof (inv_index_lt cs t k H) as Hlt.
    destruct (inv_bucket_split cs t k H) as (E & HA & HB).
    destruct (SymTable_replace_present cs t k v Hv H Hc)
      as (c1 & node & c2 & t2 & Er & Hk & Hold & Ec & Et & Hc1 & Hinv).
    set (i := Z.to_nat (symtablehash_hashFunction cs k (bucketCount t))) in *.
    exists t2. rewrite Er, Hold.
    assert (Hnodes : all_nodes t2
                     = concat (take i (buckets t))
                       ++ (c1 ++ set_value node v :: c2)
                       ++ concat (drop (S i) (buckets t))).
    { rewrite Et. now apply all_nodes_set_bucket. }
    assert (Hget : forall k', SymTable_get cs t2 k'
                     = if bool_decide (k' = k) then v
                       else SymTable_get cs t k').
    { intros k'. rewrite !SymTable_get_all_nodes by assumption.
      rewrite Hnodes, E, Ec.
      case_bool_decide as Ek.
      - subst k'. rewrite get_chain_app_r by exact HA.
        rewrite <- app_assoc, get_chain_app_r by exact Hc1. simpl.
        rewrite strcmp_eqb, bool_decide_eq_true_2; [reflexivity | now symmetry].
      - assert (Hfix : forall B A,
                  get_chain k' (A ++ set_value node v :: B)
                  = get_chain k' (A ++ node :: B)).
        { intros B A. induction A as [| x A IHA]; simpl.
          - rewrite !strcmp_eqb, bool_decide_eq_false_2; [reflexivity |].
            now rewrite Hk.
          - now rewrite IHA. }
        rewrite <- !app_assoc, !(app_assoc (concat _) c1).
        simpl. apply Hfix. }
    split_and!; try reflexivity; try exact Hinv.
    + rewrite Hget. now rewrite bool_decide_eq_true_2.
    + exists i, c1, node, c2. split_and!.
      * rewrite <- Ec. now apply list_lookup_lookup_total_lt.
      * exact Hk.
      * subst t2. reflexivity.
    + intros k' Hne. rewrite Hget. now rewrite bool_decide_eq_false_2.
    + intros k'.
      rewrite !SymTable_contains_all_nodes by assumption.
      rewrite !contains_chain_duplicate.
      assert (Hkeys : pcKey <$> all_nodes t2 = pcKey <$> all_nodes t).
      { rewrite Hnodes, E, Ec. now rewrite !fmap_app, !fmap_cons. }
      destruct (put_duplicate k' (all_nodes t2)) eqn:D2,
               (put_duplicate k' (all_nodes t)) eqn:D1; try reflexivity.
      * apply put_duplicate_true in D2. apply put_duplicate_false in D1.
        rewrite Hkeys in D2. contradiction.
      * apply put_duplicate_true in D1. apply put_duplicate_false in D2.
        rewrite Hkeys in D2. contradiction.
    + subst t2. reflexivity.
    + subst t2. reflexivity.
    + subst t2. reflexivity.
  - intros Hc. apply SymTable_replace_absent; [exact Hv | exact H |].
    intros Hin. apply (SymTable_contains_keys cs t k H) in Hin. lia.
Qed.

(** C8 (amended).  With a context that is not NULL (the function asserts
    it), on a table that satisfies the structural invariant, [SymTable_map]
    applies the callback to the nodes of all chains, one call per node and
    in bucket order, whatever the callback does to the caller's state: the
    calls are as many as [SymTable_getLength], their keys are pairwise
    distinct and are exactly the keys contained in the table, each call
    carries the value bound to its key, and every call receives the
    caller's context unchanged. *)
Theorem map_visits_each_binding t e :
  e <> NULL -> SymTable_inv cs t ->
  (forall (S : Type) (f : string -> ptr -> ptr -> S -> S) (s : S),
     SymTable_map t f e s
     = Some (fold_left (fun s node => f (pcKey node) (pvValue node) e s)
               (all_nodes t) s)) /\
  exists calls,
    SymTable_map t record_call e [] = Some calls /\
    calls = (fun node => (pcKey node, pvValue node, e)) <$> all_nodes t /\
    Z.of_nat (length calls) = SymTable_getLength t /\
    Forall (fun c => c.2 = e) calls /\
    NoDup (calls.*1.*1) /\
    (forall k, k ∈ calls.*1.*1 <-> SymTable_contains cs t k = 1) /\
    (forall k v x, (k, v, x) ∈ calls -> v = SymTable_get cs t k).
Proof.
  intros He H. pose proof H as (_ & _ & Hl & _ & Hk & Hq & _).
  split.
  { intros S f s. now apply SymTable_map_all_nodes. }
  eexists. split.
  { rewrite SymTable_map_all_nodes by assumption.
    rewrite record_call_fold. reflexivity. }
  simpl.
  assert (Hkeys : ((fun node => (pcKey node, pvValue node, e))
                     <$> all_nodes t).*1.*1 = keys t).
  { unfold keys. rewrite <- !list_fmap_compose. reflexivity. }
  split_and!.
  - reflexivity.
  - rewrite length_fmap. unfold SymTable_getLength. now rewrite Hq.
  - apply Forall_fmap, Forall_forall. reflexivity.
  - now rewrite Hkeys.
  - intros k. rewrite Hkeys. symmetry. now apply SymTable_contains_keys.
  - intros k v x Hin.
    apply list_elem_of_fmap in Hin as (node & E & Hin).
    injection E as -> -> ->.
    rewrite SymTable_get_all_nodes by exact H.
    symmetry. now apply get_chain_present.
Qed.

End HashTableClaims.

(** * The claim about the list variant *)

Section ListClaims.

Import SymTableList.

Implicit Types (t : SymTableList.SymTable).

Lemma list_put_returns_1 t k v a t' :
  SymTableList.SymTable_put t k v a = (1, t') ->
  psFirstNode t'
  = {| psNode := malloc_psNewNode a; pcKeyStore := malloc_pcKey a;
       pcKey := k; pvValue := v |} :: psFirstNode t.
Proof.
  unfold SymTableList.SymTable_put.
  destruct (put_duplicate k (psFirstNode t)); [discriminate |].
  destruct (malloc_psNewNode a =? NULL); [discriminate |].
  destruct (malloc_pcKey a =? NULL); [discriminate |].
  intros E. injection E as <-. reflexivity.
Qed.

(** After a run of successful puts the list holds the new nodes, the most
    recent first, in front of the nodes it held before. *)
Lemma list_put_all_order t (calls : list (string * ptr * PutAllocs)) :
  Forall (fun r => r = 1) (SymTableList.put_all t calls).1 ->
  psFirstNode (SymTableList.put_all t calls).2
  = rev ((fun c => {| psNode := malloc_psNewNode c.2;
                      pcKeyStore := malloc_pcKey c.2;
                      pcKey := c.1.1; pvValue := c.1.2 |}) <$> calls)
    ++ psFirstNode t.
Proof.
  revert t. induction calls as [| [[k v] a] calls IH]; intros t; simpl.
  - reflexivity.
  - destruct (SymTableList.SymTable_put t k v a) as [r t1] eqn:E.
    specialize (IH t1).
    destruct (SymTableList.put_all t1 calls) as [rs t2]. simpl in *.
    intros HF. apply Forall_cons in HF as [-> HF].
    rewrite (IH HF), (list_put_returns_1 _ _ _ _ _ E).
    now rewrite <- app_assoc.
Qed.

Lemma fmap_rev_list {A B : Type} (f : A -> B) (l : list A) :
  f <$> rev l = rev (f <$> l).
Proof.
  induction l as [| x l IH]; simpl; [reflexivity |].
  now rewrite fmap_app, IH.
Qed.

Lemma list_map_chain_fold {S : Type} (f : string -> ptr -> ptr -> S -> S) e
    (c : list SymTableList.SymTableNode) s :
  SymTableList.map_chain f e c s
  = fold_left (fun s node => f (pcKey node) (pvValue node) e s) c s.
Proof.
  revert s. induction c as [| node c IH]; intros s; simpl;
    [reflexivity | apply IH].
Qed.

(** C10.  In the list variant, after any sequence of [SymTable_put] calls
    on a freshly created table that all returned 1 (their keys are then
    pairwise distinct), [SymTable_map] invokes the callback on the bindings
    in exactly the reverse of the insertion order, the most recently
    inserted first, each with its key, its value and the caller's
    context. *)
Theorem list_map_reverse_insertion_order p t0
    (calls : list (string * ptr * PutAllocs)) (e : ptr) :
  SymTableList.SymTable_new p = Some t0 ->
  Forall (fun r => r = 1) (SymTableList.put_all t0 calls).1 ->
  (forall (S : Type) (f : string -> ptr -> ptr -> S -> S) (s : S),
     SymTableList.SymTable_map (SymTableList.put_all t0 calls).2 f e s
     = fold_left (fun s c => f c.1.1 c.1.2 e s) (rev calls) s) /\
  SymTableList.SymTable_map (SymTableList.put_all t0 calls).2 record_call e []
  = rev ((fun c => (c.1.1, c.1.2, e)) <$> calls).
Proof.
  intros Hnew HF.
  assert (Hnil : psFirstNode t0 = []).
  { unfold SymTableList.SymTable_new in Hnew.
    destruct (p =? NULL); [discriminate |]. now injection Hnew as <-. }
  pose proof (list_put_all_order t0 calls HF) as Ho.
  rewrite Hnil, app_nil_r in Ho.
  assert (Hgen : forall (S : Type) (f : string -> ptr -> ptr -> S -> S) s,
            SymTableList.SymTable_map (SymTableList.put_all t0 calls).2 f e s
            = fold_left (fun s c => f c.1.1 c.1.2 e s) (rev calls) s).
  { intros S f s. unfold SymTableList.SymTable_map.
    rewrite list_map_chain_fold, Ho, <- fmap_rev_list.
    generalize (rev calls). intros l. revert s.
    induction l as [| c l IH]; intros s; simpl; [reflexivity | apply IH]. }
  split; [exact Hgen |].
  rewrite Hgen, <- fmap_rev_list.
  generalize (rev calls). intros l.
  assert (G : forall s,
            fold_left (fun s c => record_call c.1.1 c.1.2 e s) l s
            = s ++ ((fun c : string * ptr * PutAllocs => (c.1.1, c.1.2, e))
                      <$> l)).
  { induction l as [| c l IH]; intros s; simpl.
    - now rewrite app_nil_r.
    - rewrite IH. unfold record_call. now rewrite <- app_assoc. }
  apply G.
Qed.

End ListClaims.

(** * The claims at concrete tables *)

Section Concrete.

Import Scenario.

Lemma fresh_new : SymTable_new 16 64 = Some fresh.
Proof. reflexivity. Qed.

(** The tables of the scenario are reachable. *)
Lemma filled_reachable cs n :
  NoDup ((calls_upto n).*1.*1) ->
  NoDup ((fun c => malloc_psNewNode c.2) <$> calls_upto n) ->
  Forall (fun c => 0 < malloc_psNewNode c.2 < 2 ^ SIZE_WIDTH /\
                   malloc_pcKey c.2 <> NULL) (calls_upto n) ->
  reachable cs (filled cs n).
Proof.
  intros HK HA HF. exists 16, 64, fresh. split; [reflexivity |].
  destruct (SymTable_new_inv cs 16 64 fresh fresh_new) as [H0 Hnil].
  apply (put_all_spec cs fresh (calls_upto n) H0); [| | exact HF].
  - unfold keys. rewrite Hnil. simpl. now rewrite app_nil_r.
  - rewrite Hnil. simpl. now rewrite app_nil_r.
Qed.

Lemma filled_3_reachable : reachable false (filled false 3).
Proof. apply filled_reachable; compute_done. Qed.

Lemma filled_381_reachable : reachable false (filled false 381).
Proof. apply filled_reachable; compute_done. Qed.

Lemma filled_382_reachable : reachable false (filled false 382).
Proof. apply filled_reachable; compute_done. Qed.

(** The scenario of the specification: put("a",1), put("b",2), put("a",3). *)
Example scenario_put_twice :
  let a := allocs_at in
  let '(r1, t1) := SymTable_put false fresh "a" 1 (a 0%nat) in
  let '(r2, t2) := SymTable_put false t1 "b" 2 (a 1%nat) in
  let '(r3, t3) := SymTable_put false t2 "a" 3 (a 2%nat) in
  (r1, r2, r3) = (1, 1, 0) /\
  SymTable_get false t3 "a" = 1 /\ SymTable_getLength t3 = 2.
Proof. vm_compute. repeat split. Qed.

(** The scenario of the specification: 400 distinct keys cross the first
    growth threshold; the capacity advances to the next prime and every key
    is still bound to its value. *)
Example scenario_400_keys :
  bucketCount (filled false 400) = 1021 /\
  SymTable_getLength (filled false 400) = 400 /\
  all_retrievable false (filled false 400) (calls_upto 400) = true.
Proof. split_and!; compute_done. Qed.

Example hash_examples :
  symtablehash_hashFunction false "AA" 509 = 109 /\
  symtablehash_hashFunction false EmptyString 509 = 0 /\
  hash_reference false "ab" = 97 * 32 + 98 /\
  hash_reference false "symbol table" = 1198659045 /\
  symtablehash_hashFunction true "symbol table" 1021 = 961 /\
  symtablehash_hashFunction false (String (ascii_of_nat 233) EmptyString) 509
  = 233 /\
  symtablehash_hashFunction true (String (ascii_of_nat 233) EmptyString) 509
  = 332.
Proof. vm_compute. repeat split. Qed.

(** ** Instances of the theorems *)

Lemma hash_function_contract_witness :
  0 < 509 /\
  Forall (fun c => byte_value c < 128) (list_ascii_of_string "AB") /\
  symtablehash_hashFunction true "AB" 509 = hash_reference true "AB" mod 509 /\
  symtablehash_hashFunction true "AB" 509 = hash_spec "AB" mod 509.
Proof.
  assert (Hn : 0 < 509) by lia.
  assert (Hk : Forall (fun c => byte_value c < 128)
                 (list_ascii_of_string "AB")) by compute_done.
  destruct (hash_function_contract true) as (R1 & _ & _ & R4 & _).
  split_and!; [exact Hn | exact Hk | apply (R1 "AB" 509 Hn) |].
  apply (proj2 (R4 "AB" (or_intror Hk)) 509 Hn).
Defined.

Lemma put_distinct_keys_witness :
  SymTable_new 16 64 = Some fresh /\
  NoDup ((calls_upto 3).*1.*1) /\
  Forall (fun r => r = 1) (put_all false fresh (calls_upto 3)).1 /\
  SymTable_getLength (put_all false fresh (calls_upto 3)).2 = 3 /\
  SymTable_get false (put_all false fresh (calls_upto 3)).2 "AB" = 1001.
Proof.
  assert (HK : NoDup ((calls_upto 3).*1.*1)) by compute_done.
  assert (HA : NoDup ((fun c => malloc_psNewNode c.2) <$> calls_upto 3))
    by compute_done.
  assert (HF : Forall (fun c => 0 < malloc_psNewNode c.2 < 2 ^ SIZE_WIDTH /\
                                malloc_pcKey c.2 <> NULL) (calls_upto 3))
    by compute_done.
  destruct (put_distinct_keys false 16 64 fresh (calls_upto 3)
              fresh_new HK HA HF) as (R1 & _ & R3 & R4).
  split_and!; [reflexivity | exact HK | exact R1 | exact R3 |].
  apply (R4 "AB" 1001 (allocs_at 1)). vm_compute. do 2 constructor.
Defined.

Lemma resize_lossless_witness :
  SymTable_inv false (filled false 3) /\
  SymTable_getLength (symtablehash_resizeHashTable false (filled false 3) 8)
  = SymTable_getLength (filled false 3) /\
  SymTable_get false (symtablehash_resizeHashTable false (filled false 3) 8)
    "AC"
  = SymTable_get false (filled false 3) "AC".
Proof.
  assert (H : SymTable_inv false (filled false 3)) by compute_done.
  destruct (resize_lossless false (filled false 3) 8 H) as (R1 & _ & R3 & _).
  split_and!; [exact H | exact R1 | apply R3].
Defined.

Lemma put_growth_policy_witness :
  SymTable_inv false (filled false 382) /\
  load_factor_exceeded (filled false 382) = true /\
  bucketCount (SymTable_put false (filled false 382) "ZZ" 7 (allocs_at 500)).2
  = primes !!! Z.to_nat (currentPrimeIndex (filled false 382) + 1).
Proof.
  assert (H : SymTable_inv false (filled false 382)) by compute_done.
  destruct (put_growth_policy false (filled false 382) "ZZ" 7 (allocs_at 500)
              H) as (_ & R2 & _).
  split_and!; [exact H | compute_done |].
  apply R2. compute_done.
Defined.

Lemma reachable_invariants_witness :
  reachable false (filled false 3) /\
  NoDup (keys (filled false 3)) /\
  SymTable_getLength (filled false 3)
  = Z.of_nat (length (all_nodes (filled false 3))).
Proof.
  destruct (reachable_invariants false (filled false 3) filled_3_reachable)
    as (R1 & R2 & _).
  split_and!; [exact filled_3_reachable | exact R1 | exact R2].
Defined.

Lemma put_present_fails_witness :
  SymTable_inv false (filled false 3) /\
  SymTable_contains false (filled false 3) "AA" = 1 /\
  (SymTable_put false (filled false 3) "AA" 7 (allocs_at 500)).1 = 0 /\
  (SymTable_put false (filled false 3) "AA" 7 (allocs_at 500)).2
  = filled false 3.
Proof.
  assert (H : SymTable_inv false (filled false 3)) by compute_done.
  assert (Hc : SymTable_contains false (filled false 3) "AA" = 1)
    by compute_done.
  destruct (put_present_fails false (filled false 3) "AA" 7 (allocs_at 500)
              H Hc) as (R1 & _ & R3 & _).
  split_and!; [exact H | exact Hc | exact R1 |].
  apply R3. compute_done.
Defined.

Lemma remove_contract_witness :
  SymTable_inv false (filled false 3) /\
  SymTable_contains false (filled false 3) "AB" = 1 /\
  (SymTable_remove false (filled false 3) "AB").1
  = SymTable_get false (filled false 3) "AB" /\
  SymTable_contains false (SymTable_remove false (filled false 3) "AB").2 "AB"
  = 0 /\
  SymTable_contains false (filled false 3) "ZZ" = 0 /\
  SymTable_remove false (filled false 3) "ZZ" = (NULL, filled false 3).
Proof.
  assert (H : SymTable_inv false (filled false 3)) by compute_done.
  assert (Hc : SymTable_contains false (filled false 3) "AB" = 1)
    by compute_done.
  assert (Hz : SymTable_contains false (filled false 3) "ZZ" = 0)
    by compute_done.
  destruct (remove_contract false (filled false 3) "AB" H) as [R _].
  destruct (R Hc) as (R1 & _ & R3 & _).
  destruct (remove_contract false (filled false 3) "ZZ" H) as [_ Z].
  split_and!; [exact H | exact Hc | exact R1 | exact R3 | exact Hz |].
  exact (Z Hz).
Defined.

Lemma replace_frame_witness :
  77 <> NULL /\
  SymTable_inv false (filled false 3) /\
  SymTable_contains false (filled false 3) "AB" = 1 /\
  exists t',
    SymTable_replace false (filled false 3) "AB" 77
    = Some (SymTable_get false (filled false 3) "AB", t') /\
    SymTable_get false t' "AB" = 77.
Proof.
  assert (Hv : 77 <> NULL) by compute_done.
  assert (H : SymTable_inv false (filled false 3)) by compute_done.
  assert (Hc : SymTable_contains false (filled false 3) "AB" = 1)
    by compute_done.
  destruct (replace_frame false (filled false 3) "AB" 77 Hv H) as [R _].
  destruct (R Hc) as (t' & R1 & R2 & _).
  split_and!; [exact Hv | exact H | exact Hc |].
  exists t'. split; [exact R1 | exact R2].
Defined.

Lemma map_visits_each_binding_witness :
  5 <> NULL /\
  SymTable_inv false (filled false 3) /\
  exists calls,
    SymTable_map (filled false 3) record_call 5 [] = Some calls /\
    Z.of_nat (length calls) = SymTable_getLength (filled false 3) /\
    Forall (fun c => c.2 = 5) calls.
Proof.
  assert (He : 5 <> NULL) by compute_done.
  assert (H : SymTable_inv false (filled false 3)) by compute_done.
  destruct (map_visits_each_binding false (filled false 3) 5 He H)
    as (_ & calls & R1 & _ & R3 & R4 & _).
  split_and!; [exact He | exact H |].
  exists calls. split_and!; [exact R1 | exact R3 | exact R4].
Defined.

Lemma list_map_reverse_insertion_order_witness :
  SymTableList.SymTable_new 16 = Some list_fresh /\
  Forall (fun r => r = 1)
    (SymTableList.put_all list_fresh (list_calls_upto 3)).1 /\
  SymTableList.SymTable_map
    (SymTableList.put_all list_fresh (list_calls_upto 3)).2 record_call 5 []
  = [("AC", 1002, 5); ("AB", 1001, 5); ("AA", 1000, 5)].
Proof.
  assert (Hn : SymTableList.SymTable_new 16 = Some list_fresh)
    by reflexivity.
  assert (HF : Forall (fun r => r = 1)
                 (SymTableList.put_all list_fresh (list_calls_upto 3)).1)
    by (vm_compute; repeat constructor).
  destruct (list_map_reverse_insertion_order 16 list_fresh
              (list_calls_upto 3) 5 Hn HF) as [_ R].
  split_and!; [exact Hn | exact HF |].
  rewrite R. reflexivity.
Defined.

(** ** Where the claims as stated fail *)

(** C9 as stated.  Where plain char is signed, the hash of the one-byte
    key 233 is not the fold over byte values: the byte is sign-extended by
    the conversion to unsigned int, the accumulator ends at 2^32 - 23
    instead of 233, and at 509 buckets the index is 332 instead of 233. *)
Lemma hash_function_counterexample :
  byte_value (ascii_of_nat 233) = 233 /\
  hash_spec (String (ascii_of_nat 233) EmptyString) = 233 /\
  symtablehash_hashFunction_loop true (String (ascii_of_nat 233) EmptyString) 0
  = 2 ^ 32 - 23 /\
  symtablehash_hashFunction true (String (ascii_of_nat 233) EmptyString) 509
  = 332 /\
  symtablehash_hashFunction true (String (ascii_of_nat 233) EmptyString) 509
  <> hash_spec (String (ascii_of_nat 233) EmptyString) mod 509.
Proof. split_and!; compute_done. Qed.

(** C3 as stated.  With 381 bindings at capacity 509 the load after the
    insertion, 382 / 509, exceeds 0.75, a larger prime remains and the
    allocator would serve the bucket array; the put succeeds and the
    capacity is still 509. *)
Lemma put_growth_counterexample :
  reachable false (filled false 381) /\
  SymTable_getLength (filled false 381) = 381 /\
  bucketCount (filled false 381) = 509 /\
  Qle_bool (Qdiv (inject_Z (381 + 1)) (inject_Z 509)) LOAD_FACTOR_THRESHOLD
  = false /\
  currentPrimeIndex (filled false 381) + 1 < PRIME_COUNT /\
  calloc_newBuckets (allocs_at 500) <> NULL /\
  (SymTable_put false (filled false 381) "ZZ" 7 (allocs_at 500)).1 = 1 /\
  bucketCount (SymTable_put false (filled false 381) "ZZ" 7 (allocs_at 500)).2
  = 509.
Proof.
  split; [exact filled_381_reachable |].
  split_and!; compute_done.
Qed.

(** C5 as stated.  With 382 bindings at capacity 509 a put of the bound key
    "AA" returns 0, yet the table it leaves has capacity 1021 and prime
    index 1: the bucket array has been replaced. *)
Lemma put_present_counterexample :
  reachable false (filled false 382) /\
  SymTable_contains false (filled false 382) "AA" = 1 /\
  (SymTable_put false (filled false 382) "AA" 7 (allocs_at 500)).1 = 0 /\
  bucketCount (filled false 382) = 509 /\
  currentPrimeIndex (filled false 382) = 0 /\
  bucketCount (SymTable_put false (filled false 382) "AA" 7 (allocs_at 500)).2
  = 1021 /\
  currentPrimeIndex
    (SymTable_put false (filled false 382) "AA" 7 (allocs_at 500)).2 = 1 /\
  length (buckets
            (SymTable_put false (filled false 382) "AA" 7 (allocs_at 500)).2)
  = 1021%nat.
Proof.
  split; [exact filled_382_reachable |].
  split_and!; compute_done.
Qed.

(** C7 as stated.  A replace of the bound key "AB" with the value NULL does
    not return: the assertion on the value fails. *)
Lemma replace_counterexample :
  reachable false (filled false 3) /\
  SymTable_contains false (filled false 3) "AB" = 1 /\
  SymTable_get false (filled false 3) "AB" = 1001 /\
  SymTable_replace false (filled false 3) "AB" NULL = None.
Proof.
  split; [exact filled_3_reachable |].
  split_and!; compute_done.
Qed.

(** C8 as stated.  A map over three bindings with the context NULL does
    not return, and the callback is not invoked: the assertion on the
    context fails. *)
Lemma map_counterexample :
  reachable false (filled false 3) /\
  SymTable_getLength (filled false 3) = 3 /\
  SymTable_map (filled false 3) record_call NULL [] = None.
Proof.
  split; [exact filled_3_reachable |].
  split_and!; compute_done.
Qed.

End Concrete.

(** * Further properties of the hash table *)

Section HashTableFurther.

Variable cs : bool.

Implicit Types (t : SymTable) (k : string) (node : SymTableNode).

Lemma nodeQuantity_bound t :
  SymTable_inv cs t -> 0 <= nodeQuantity t < 2 ^ SIZE_WIDTH.
Proof.
  intros (_ & _ & _ & _ & _ & Hq & Haddr & Hr). split; [lia |].
  rewrite Hq, <- (length_fmap psNode).
  apply NoDup_bounded_length; [reflexivity | exact Haddr |].
  apply Forall_fmap. exact Hr.
Qed.

Lemma get_chain_cons_ne k node c :
  k <> pcKey node -> get_chain k (node :: c) = get_chain k c.
Proof. intros H. simpl. now rewrite strcmp_eqb, bool_decide_eq_false_2. Qed.

Lemma contains_chain_cons_ne k node c :
  k <> pcKey node -> contains_chain k (node :: c) = contains_chain k c.
Proof. intros H. simpl. now rewrite strcmp_eqb, bool_decide_eq_false_2. Qed.

(** Lookups of a table whose nodes are one node more than another's. *)
Lemma lookups_cons t t' node :
  SymTable_inv cs t -> SymTable_inv cs t' ->
  all_nodes t' ≡ₚ node :: all_nodes t ->
  (SymTable_get cs t' (pcKey node) = pvValue node /\
   SymTable_contains cs t' (pcKey node) = 1) /\
  (forall k, k <> pcKey node ->
     SymTable_get cs t' k = SymTable_get cs t k /\
     SymTable_contains cs t' k = SymTable_contains cs t k).
Proof.
  intros H H' HP.
  pose proof H' as (_ & _ & _ & _ & Hk' & _).
  assert (Hin : node ∈ all_nodes t') by (rewrite HP; left).
  split.
  - split.
    + rewrite SymTable_get_all_nodes by exact H'.
      now apply get_chain_present.
    + apply SymTable_contains_keys; [exact H' |].
      unfold keys. now apply list_elem_of_fmap_2.
  - intros k Hne.
    rewrite !SymTable_get_all_nodes, !SymTable_contains_all_nodes
      by assumption.
    rewrite (get_chain_Permutation k _ _ Hk' HP).
    rewrite (contains_chain_Permutation k _ _ HP).
    now rewrite get_chain_cons_ne, contains_chain_cons_ne.
Qed.

(** X1.  [SymTable_new] fails exactly when one of its two allocations
    fails; the table it returns has capacity 509 and is empty: length 0, no
    key contained, every get NULL, every remove and every replace (of a
    non-NULL value) returns NULL and leaves it as it is, and a map never
    calls back. *)
Theorem new_table_empty p q :
  (SymTable_new p q = None <-> p = NULL \/ q = NULL) /\
  (forall t0, SymTable_new p q = Some t0 ->
     SymTable_getLength t0 = 0 /\
     bucketCount t0 = 509 /\
     (forall k,
        SymTable_contains cs t0 k = 0 /\
        SymTable_get cs t0 k = NULL /\
        SymTable_remove cs t0 k = (NULL, t0) /\
        (forall v, v <> NULL ->
           SymTable_replace cs t0 k v = Some (NULL, t0))) /\
     (forall (S : Type) (f : string -> ptr -> ptr -> S -> S) e (s : S),
        e <> NULL -> SymTable_map t0 f e s = Some s)).
Proof.
  split.
  - unfold SymTable_new.
    destruct (Z.eqb_spec p NULL) as [-> | Hp]; [tauto |].
    destruct (Z.eqb_spec q NULL) as [-> | Hq]; [tauto |].
    split; [discriminate | tauto].
  - intros t0 Hnew.
    destruct (SymTable_new_inv cs p q t0 Hnew) as [H0 Hnil].
    pose proof (SymTable_new_Some p q t0 Hnew) as E.
    assert (Hk : forall k, k ∉ keys t0).
    { intros k. unfold keys. rewrite Hnil. apply not_elem_of_nil. }
    split_and!.
    + now subst t0.
    + now subst t0.
    + intros k. split_and!.
      * destruct (SymTable_contains_bool cs t0 k) as [E0 | E1]; [exact E0 |].
        apply (SymTable_contains_keys cs t0 k H0) in E1.
        now apply Hk in E1.
      * rewrite SymTable_get_all_nodes by exact H0. now rewrite Hnil.
      * now apply SymTable_remove_absent.
      * intros v Hv. now apply SymTable_replace_absent.
    + intros S f e s He.
      rewrite SymTable_map_all_nodes; [| now destruct H0 as (_ & _ & ? & _)
                                       | exact He].
      now rewrite Hnil.
Qed.

(** X2.  A put of an absent key whose allocations succeed returns 1; the key
    is then contained and bound to the value, the length is one more, and
    the results of get and contains for every other key are what they were,
    also across the resize that the put may have performed. *)
Theorem put_then_get t k v a :
  SymTable_inv cs t ->
  SymTable_contains cs t k = 0 ->
  malloc_psNewNode a <> NULL -> malloc_pcKey a <> NULL ->
  malloc_fresh t a ->
  let t' := (SymTable_put cs t k v a).2 in
  (SymTable_put cs t k v a).1 = 1 /\
  SymTable_get cs t' k = v /\
  SymTable_contains cs t' k = 1 /\
  SymTable_getLength t' = SymTable_getLength t + 1 /\
  (forall k', k' <> k ->
     SymTable_get cs t' k' = SymTable_get cs t k' /\
     SymTable_contains cs t' k' = SymTable_contains cs t k') /\
  SymTable_inv cs t'.
Proof.
  intros H Hc Hn Hkey Hf t'.
  assert (Hk : k ∉ keys t).
  { intros Hin. apply (SymTable_contains_keys cs t k H) in Hin. lia. }
  destruct (SymTable_put_absent cs t k v a H Hk Hn Hkey)
    as (t2 & E & HP & _ & _ & Hq & Hinv).
  specialize (Hinv Hf). subst t'. rewrite E. cbn [fst snd].
  destruct (lookups_cons t t2 (put_node k v a) H Hinv HP) as [[G1 G2] G3].
  pose proof (nodeQuantity_bound t2 Hinv) as Hb2.
  pose proof (nodeQuantity_bound t H) as Hb.
  split_and!; try assumption; try reflexivity.
  - unfold SymTable_getLength.
    destruct H as (_ & _ & _ & _ & _ & Hq1 & _).
    destruct Hinv as (_ & _ & _ & _ & _ & Hq2 & _).
    rewrite Hq2, HP, Hq1. simpl length. lia.
Qed.

(** X3.  A put whose node or key allocation fails returns 0 and binds
    nothing: the nodes, the length and the results of get and contains for
    every key are what they were. *)
Theorem put_alloc_failure t k v a :
  SymTable_inv cs t ->
  malloc_psNewNode a = NULL \/ malloc_pcKey a = NULL ->
  let t' := (SymTable_put cs t k v a).2 in
  (SymTable_put cs t k v a).1 = 0 /\
  all_nodes t' ≡ₚ all_nodes t /\
  SymTable_getLength t' = SymTable_getLength t /\
  (forall k',
     SymTable_get cs t' k' = SymTable_get cs t k' /\
     SymTable_contains cs t' k' = SymTable_contains cs t k') /\
  SymTable_inv cs t'.
Proof.
  intros H Hf t'. subst t'.
  rewrite SymTable_put_alloc_fail by exact Hf. cbn [fst snd].
  destruct (put_resized_spec cs t a H) as (H1 & HP & HQ & _).
  split_and!; try assumption; try reflexivity.
  intros k'.
  destruct (lookups_Permutation cs t (put_resized cs t a) H H1 HP k')
    as [G1 G2].
  now split.
Qed.

(** X4.  Removing a key right after a successful put of it returns the
    value that was put and leaves exactly the table on which the put
    inserted (the original table, or its resized form when the put grew
    it): the put links the node at the head of its chain and the remove
    unlinks that same node. *)
Theorem put_remove_roundtrip t k v a :
  SymTable_inv cs t ->
  SymTable_contains cs t k = 0 ->
  malloc_psNewNode a <> NULL -> malloc_pcKey a <> NULL ->
  malloc_fresh t a ->
  SymTable_remove cs (SymTable_put cs t k v a).2 k
  = (v, put_resized cs t a).
Proof.
  intros H Hc Hn Hkey Hf.
  assert (Hk : k ∉ keys t).
  { intros Hin. apply (SymTable_contains_keys cs t k H) in Hin. lia. }
  destruct (SymTable_put_absent cs t k v a H Hk Hn Hkey)
    as (t2 & E & HP & _ & _ & Hq & Hinv).
  specialize (Hinv Hf).
  assert (Hsmall : 0 <= nodeQuantity t /\ nodeQuantity t + 1 < 2 ^ SIZE_WIDTH).
  { pose proof (nodeQuantity_bound t2 Hinv) as Hb2.
    destruct Hinv as (_ & _ & _ & _ & _ & Hq2 & _).
    destruct H as (_ & _ & _ & _ & _ & Hq0 & _).
    rewrite HP in Hq2. simpl length in Hq2. lia. }
  destruct (put_resized_spec cs t a H) as (H1 & HP1 & HQ1 & _).
  pose proof (inv_index_lt cs (put_resized cs t a) k H1) as Hlt.
  revert E. rewrite SymTable_put_unfold. cbv zeta.
  destruct (put_duplicate _ _); [discriminate |].
  destruct (malloc_psNewNode a =? NULL); [discriminate |].
  destruct (malloc_pcKey a =? NULL); [discriminate |].
  intros _. cbn [snd].
  set (t1 := put_resized cs t a) in *.
  set (i := Z.to_nat (symtablehash_hashFunction cs k (bucketCount t1))) in *.
  unfold SymTable_remove. cbn [bucketCount buckets nodeQuantity
    currentPrimeIndex]. fold i.
  rewrite list_lookup_total_insert_eq by exact Hlt.
  cbn [remove_chain put_node pcKey pvValue].
  rewrite strcmp_eqb, bool_decide_eq_true_2 by reflexivity.
  f_equal.
  rewrite list_insert_insert_eq.
  rewrite list_insert_id by now apply list_lookup_lookup_total_lt.
  assert (Hq1 : to_size_t (to_size_t (nodeQuantity t1 + 1) - 1)
                = nodeQuantity t1).
  { rewrite HQ1. rewrite (to_size_t_small (nodeQuantity t + 1)) by lia.
    rewrite to_size_t_small by lia. lia. }
  rewrite Hq1. now destruct t1.
Qed.


(** X5.  A remove touches only its own key: for every other key the results
    of get and contains are what they were, whether or not the removed key
    was present; the table keeps its invariant and its capacity. *)
Theorem remove_frame t k :
  SymTable_inv cs t ->
  let t' := (SymTable_remove cs t k).2 in
  (forall k', k' <> k ->
     SymTable_get cs t' k' = SymTable_get cs t k' /\
     SymTable_contains cs t' k' = SymTable_contains cs t k') /\
  SymTable_get cs t' k = NULL /\
  bucketCount t' = bucketCount t /\
  SymTable_inv cs t'.
Proof.
  intros H t'. subst t'.
  destruct (decide (k ∈ keys t)) as [Hk | Hk].
  - destruct (SymTable_remove_present cs t k H Hk)
      as (node & t2 & E & Hkey & _ & HP & _ & Hb & _ & Hinv).
    rewrite E. cbn [snd]. subst k.
    destruct (lookups_cons t2 t node Hinv H HP) as [_ G].
    split_and!; try assumption.
    + intros k' Hne. destruct (G k' Hne) as [G1 G2]. now split.
    + rewrite SymTable_get_all_nodes by exact Hinv.
      apply get_chain_absent.
      destruct H as (_ & _ & _ & _ & Hkeys & _).
      unfold keys in Hkeys. rewrite HP in Hkeys. simpl in Hkeys.
      now apply NoDup_cons in Hkeys as [Hnot _].
  - rewrite SymTable_remove_absent by assumption. cbn [snd].
    split_and!; try assumption; try reflexivity.
    + now intros k' _.
    + rewrite SymTable_get_all_nodes by exact H. now apply get_chain_absent.
Qed.

Lemma NoDup_fmap_elem_inj {A B : Type} (f : A -> B) (l : list A) x y :
  NoDup (f <$> l) -> x ∈ l -> y ∈ l -> f x = f y -> x = y.
Proof.
  induction l as [| z l IH]; simpl; intros HN Hx Hy E; [inversion Hx |].
  apply NoDup_cons in HN as [Hz HN].
  apply elem_of_cons in Hx as [-> | Hx];
    apply elem_of_cons in Hy as [-> | Hy]; auto.
  - exfalso. apply Hz. rewrite E. now apply list_elem_of_fmap_2.
  - exfalso. apply Hz. rewrite <- E. now apply list_elem_of_fmap_2.
Qed.

Lemma replace_chain_app k w c1 node c2 :
  k ∉ pcKey <$> c1 -> pcKey node = k ->
  replace_chain k w (c1 ++ node :: c2)
  = Some (pvValue node, c1 ++ set_value node w :: c2).
Proof.
  intros Hc1 Hk. induction c1 as [| x c1 IH]; simpl.
  - now rewrite strcmp_eqb, bool_decide_eq_true_2.
  - rewrite fmap_cons, not_elem_of_cons in Hc1. destruct Hc1 as [Hx Hc1].
    rewrite strcmp_eqb, bool_decide_eq_false_2 by exact Hx.
    now rewrite (IH Hc1).
Qed.

(** X6.  Replace is undone by replacing back: after a replace of a present
    key, a second replace with the value the first one returned (when that
    value is not NULL) returns the value the first one stored and restores
    the table exactly. *)
Theorem replace_roundtrip t k v :
  v <> NULL -> SymTable_inv cs t ->
  SymTable_contains cs t k = 1 -> SymTable_get cs t k <> NULL ->
  exists t',
    SymTable_replace cs t k v = Some (SymTable_get cs t k, t') /\
    SymTable_replace cs t' k (SymTable_get cs t k) = Some (v, t).
Proof.
  intros Hv H Hc Hold. apply (SymTable_contains_keys cs t k H) in Hc.
  pose proof (inv_index_lt cs t k H) as Hlt.
  destruct (SymTable_replace_present cs t k v Hv H Hc)
    as (c1 & node & c2 & t2 & Er & Hk & Eold & Ec & Et & Hc1 & Hinv).
  set (i := Z.to_nat (symtablehash_hashFunction cs k (bucketCount t))) in *.
  exists t2. rewrite <- Eold in *. split; [exact Er |].
  unfold SymTable_replace. rewrite (proj2 (Z.eqb_neq _ _) Hold).
  subst t2. cbn [bucketCount buckets nodeQuantity currentPrimeIndex]. fold i.
  rewrite list_lookup_total_insert_eq by exact Hlt.
  rewrite replace_chain_app by assumption.
  cbn [set_value pvValue psNode pcKeyStore pcKey].
  rewrite list_insert_insert_eq.
  assert (Enode : set_value (set_value node v) (pvValue node) = node)
    by now destruct node.
  rewrite Enode, <- Ec.
  rewrite list_insert_id by now apply list_lookup_lookup_total_lt.
  now destruct t.
Qed.

(** X7.  [SymTable_get] returns NULL exactly when the key is absent or is
    bound to NULL, so its result alone does not tell absence: a non-NULL
    result implies that the key is contained, a NULL result does not imply
    that it is not. *)
Theorem get_NULL_iff t k :
  SymTable_inv cs t ->
  (SymTable_get cs t k = NULL <->
   SymTable_contains cs t k = 0 \/
   exists node, node ∈ all_nodes t /\ pcKey node = k /\ pvValue node = NULL)
  /\ (SymTable_get cs t k <> NULL -> SymTable_contains cs t k = 1).
Proof.
  intros H. pose proof H as (_ & _ & _ & _ & Hkeys & _).
  assert (Hiff : SymTable_get cs t k = NULL <->
            SymTable_contains cs t k = 0 \/
            exists node,
              node ∈ all_nodes t /\ pcKey node = k /\ pvValue node = NULL).
  { rewrite SymTable_get_all_nodes by exact H.
    destruct (decide (k ∈ keys t)) as [Hk | Hk].
    - pose proof Hk as Hc. apply (SymTable_contains_keys cs t k H) in Hc.
      apply list_elem_of_fmap in Hk as (node & -> & Hin).
      rewrite get_chain_present by assumption. split.
      + intros E. right. now exists node.
      + intros [E0 | (n' & Hin' & Ek & Ev)]; [lia |].
        assert (n' = node) as ->; [| exact Ev].
        now apply (NoDup_fmap_elem_inj pcKey (all_nodes t)).
    - rewrite get_chain_absent by exact Hk. split; [| reflexivity].
      intros _. left.
      destruct (SymTable_contains_bool cs t k) as [E0 | E1]; [exact E0 |].
      apply (SymTable_contains_keys cs t k H) in E1. contradiction. }
  split; [exact Hiff |].
  intros Hne.
  destruct (SymTable_contains_bool cs t k) as [E0 | E1]; [| exact E1].
  exfalso. apply Hne. apply Hiff. now left.
Qed.


(** *** The hash of a concatenation *)

Lemma hashFunction_loop_app (p s : string) h :
  symtablehash_hashFunction_loop cs (p ++ s) h
  = symtablehash_hashFunction_loop cs s
      (symtablehash_hashFunction_loop cs p h).
Proof.
  revert h. induction p as [| c p IH]; intros h; simpl;
    [reflexivity | apply IH].
Qed.

Lemma mod_mul_add_idemp a b c M :
  (a mod M * b + c) mod M = (a * b + c) mod M.
Proof.
  rewrite <- (Zplus_mod_idemp_l (a mod M * b)), Zmult_mod_idemp_l.
  now rewrite Zplus_mod_idemp_l.
Qed.

(** The accumulator on entry is shifted out by five bits per character. *)
Lemma hashFunction_loop_shift (s : string) h :
  symtablehash_hashFunction_loop cs s h mod 2 ^ UINT_WIDTH
  = (h * 2 ^ (5 * Z.of_nat (String.length s))
     + symtablehash_hashFunction_loop cs s 0) mod 2 ^ UINT_WIDTH.
Proof.
  revert h. induction s as [| c s IH]; intros h.
  - simpl. f_equal. lia.
  - cbn [symtablehash_hashFunction_loop String.length].
    rewrite !hash_step_wrap.
    set (v0 := (Z.shiftl 0 5 + char_value cs c) mod 2 ^ UINT_WIDTH).
    rewrite <- (Zplus_mod_idemp_r (symtablehash_hashFunction_loop cs s v0)).
    rewrite (IH v0), Zplus_mod_idemp_r.
    rewrite (IH ((Z.shiftl h 5 + char_value cs c) mod 2 ^ UINT_WIDTH)).
    rewrite mod_mul_add_idemp.
    set (P := 2 ^ (5 * Z.of_nat (String.length s))).
    set (L := symtablehash_hashFunction_loop cs s 0).
    replace (h * 2 ^ (5 * Z.of_nat (S (String.length s))) + (v0 * P + L))
      with (v0 * P + (h * 2 ^ (5 * Z.of_nat (S (String.length s))) + L))
      by ring.
    subst v0. rewrite mod_mul_add_idemp.
    rewrite !Z.shiftl_mul_pow2 by lia.
    rewrite Nat2Z.inj_succ.
    replace (5 * Z.succ (Z.of_nat (String.length s)))
      with (5 * Z.of_nat (String.length s) + 5) by lia.
    rewrite Z.pow_add_r by lia.
    fold P. f_equal. ring.
Qed.

(** X8.  The hash of a concatenation is the hash of the first part shifted
    left by five bits per character of the second, plus the hash of the
    second, modulo 2^32.  Hence a key of seven or more characters shifts
    everything before it out of the 32 bits: two keys that end in the same
    seven characters have the same hash, and the same bucket index under
    every bucket count. *)
Theorem hash_suffix (p s : string) :
  hash_reference cs (p ++ s)
  = (hash_reference cs p * 2 ^ (5 * Z.of_nat (String.length s))
     + hash_reference cs s) mod 2 ^ UINT_WIDTH /\
  ((7 <= String.length s)%nat ->
   hash_reference cs (p ++ s) = hash_reference cs s /\
   forall n,
     symtablehash_hashFunction cs (p ++ s) n
     = symtablehash_hashFunction cs s n).
Proof.
  assert (Hcat : hash_reference cs (p ++ s)
            = (hash_reference cs p * 2 ^ (5 * Z.of_nat (String.length s))
               + hash_reference cs s) mod 2 ^ UINT_WIDTH).
  { rewrite !hash_reference_loop, hashFunction_loop_app.
    rewrite <- hashFunction_loop_shift.
    symmetry. apply Z.mod_small. apply hashFunction_loop_range.
    rewrite <- hash_reference_loop. apply hash_reference_range. }
  split; [exact Hcat |].
  intros Hlen.
  assert (Heq : hash_reference cs (p ++ s) = hash_reference cs s).
  { rewrite Hcat.
    replace (5 * Z.of_nat (String.length s))
      with (UINT_WIDTH + (5 * Z.of_nat (String.length s) - UINT_WIDTH))
      by lia.
    rewrite Z.pow_add_r by (unfold UINT_WIDTH; lia).
    rewrite Z.mul_assoc, (Z.mul_comm (hash_reference cs p)).
    rewrite <- Z.mul_assoc, Z.add_comm, Z.mul_comm.
    rewrite Z_mod_plus_full.
    apply Z.mod_small, hash_reference_range. }
  split; [exact Heq |].
  intros n. unfold symtablehash_hashFunction.
  rewrite <- !hash_reference_loop. now rewrite Heq.
Qed.


(** *** The load under growth *)

Lemma primes_lookup_gap i :
  0 <= i -> i + 1 < PRIME_COUNT ->
  primes !!! Z.to_nat i + 2 <= primes !!! Z.to_nat (i + 1).
Proof.
  intros H0 H1. assert (H : 0 <= i < PRIME_COUNT) by lia.
  apply primes_cases in H. unfold PRIME_COUNT in H1. simpl in H1.
  repeat (destruct H as [-> | H]); try subst i; simpl; lia.
Qed.

Lemma steps_served_steps t t' : steps_served cs t t' -> steps cs t t'.
Proof.
  induction 1 as [| t1 op t2 _ IH He _ Hs]; [constructor |].
  eapply steps_step; eassumption.
Qed.

Lemma put_resized_load t a :
  SymTable_inv cs t -> calloc_newBuckets a <> NULL -> load_ok t ->
  currentPrimeIndex (put_resized cs t a) + 1 < PRIME_COUNT ->
  4 * nodeQuantity (put_resized cs t a) <= 3 * bucketCount (put_resized cs t a).
Proof.
  intros H Hc Hl. pose proof (inv_bucketCount cs t H) as [Hb _].
  unfold put_resized. rewrite load_factor_exceeded_spec by lia.
  destruct (Z.ltb_spec (3 * bucketCount t) (4 * nodeQuantity t)) as [Hex | Hle];
    [| intros _; lia].
  destruct (resize_spec cs t (calloc_newBuckets a) H) as (_ & _ & Hq & R).
  rewrite (proj2 (Z.eqb_neq _ _) Hc) in R. simpl in R.
  rewrite andb_true_r in R.
  destruct (Z.ltb_spec (currentPrimeIndex t + 1) PRIME_COUNT) as [Hlt | Hge].
  - destruct R as (E1 & E2 & _). intros _. rewrite Hq, E2.
    destruct H as (Hi & Ecap & _).
    pose proof (primes_lookup_gap (currentPrimeIndex t) ltac:(lia) Hlt) as Hg.
    rewrite <- Ecap in Hg. specialize (Hl Hlt). lia.
  - rewrite R. intros Hlt. lia.
Qed.

Lemma step_load t op t' :
  SymTable_inv cs t -> env_ok t op -> calloc_served op ->
  step cs t op = Some t' -> load_ok t -> load_ok t'.
Proof.
  intros H He Hc Hs Hl.
  destruct op as [k v a | k v | k | S f e s];
    cbn [step env_ok calloc_served] in *.
  - injection Hs as <-.
    pose proof (put_resized_load t a H Hc Hl) as Hr.
    destruct (put_resized_spec cs t a H) as (H1 & HP1 & HQ1 & _).
    destruct (decide (k ∈ keys t)) as [Hk | Hk].
    { rewrite SymTable_put_present by assumption. intros Hlt.
      cbn [snd] in *. specialize (Hr Hlt). lia. }
    destruct (decide (malloc_psNewNode a = NULL)) as [Hn | Hn].
    { rewrite SymTable_put_alloc_fail by auto. intros Hlt.
      cbn [snd] in *. specialize (Hr Hlt). lia. }
    destruct (decide (malloc_pcKey a = NULL)) as [Hkey | Hkey].
    { rewrite SymTable_put_alloc_fail by auto. intros Hlt.
      cbn [snd] in *. specialize (Hr Hlt). lia. }
    destruct (SymTable_put_absent cs t k v a H Hk Hn Hkey)
      as (t2 & E & HP & Eb & Ei & _ & Hinv).
    specialize (Hinv He). rewrite E. cbn [snd]. intros Hlt.
    rewrite Ei in Hlt. specialize (Hr Hlt). rewrite Eb.
    destruct Hinv as (_ & _ & _ & _ & _ & Hq2 & _).
    destruct H as (_ & _ & _ & _ & _ & Hq0 & _).
    rewrite HP in Hq2. simpl length in Hq2. lia.
  - destruct (decide (v = NULL)) as [-> | Hv].
    { rewrite SymTable_replace_NULL in Hs. discriminate. }
    destruct (decide (k ∈ keys t)) as [Hk | Hk].
    + destruct (SymTable_replace_present cs t k v Hv H Hk)
        as (c1 & node & c2 & t2 & Er & _ & _ & _ & E & _ & _).
      rewrite Er in Hs. injection Hs as <-. subst t2. exact Hl.
    + rewrite SymTable_replace_absent in Hs by assumption.
      now injection Hs as <-.
  - injection Hs as <-.
    destruct (decide (k ∈ keys t)) as [Hk | Hk].
    + destruct (SymTable_remove_present cs t k H Hk)
        as (node & t2 & Er & _ & _ & _ & Hq & Hb & Hi & _).
      rewrite Er. cbn [snd]. unfold load_ok in *. rewrite Hq, Hb, Hi.
      intros Hlt. specialize (Hl Hlt). lia.
    + now rewrite SymTable_remove_absent by assumption.
  - destruct (SymTable_map t f e s); [| discriminate].
    now injection Hs as <-.
Qed.

(** X9.  In every run from a fresh table in which the allocator serves the
    bucket arrays, a table that has a larger prime left holds at most one
    binding beyond three quarters of its capacity:
    [4 * (length - 1) <= 3 * capacity]. *)
Theorem load_bound p q t0 t :
  SymTable_new p q = Some t0 ->
  steps_served cs t0 t ->
  currentPrimeIndex t + 1 < PRIME_COUNT ->
  4 * (SymTable_getLength t - 1) <= 3 * bucketCount t.
Proof.
  intros Hnew Hs.
  destruct (SymTable_new_inv cs p q t0 Hnew) as [H0 _].
  apply SymTable_new_Some in Hnew.
  assert (Hl0 : load_ok t0) by (subst t0; intros _; simpl; lia).
  clear Hnew. unfold SymTable_getLength. fold (load_ok t).
  induction Hs as [| t1 op t2 Hs IH He Hc Hstep]; [exact Hl0 |].
  apply (step_load t1 op t2); try assumption.
  apply steps_served_steps in Hs. now apply (steps_inv cs t0 t1 H0).
Qed.

(** *** SymTable_free *)

Lemma free_chain_spec (c : list SymTableNode) freed :
  free_chain c freed
  = freed ++ concat ((fun node => [pcKeyStore node; psNode node]) <$> c).
Proof.
  revert freed. induction c as [| node c IH]; intros freed; simpl.
  - now rewrite app_nil_r.
  - rewrite IH. now rewrite <- app_assoc.
Qed.

Lemma free_fold_spec (bs : list (list SymTableNode)) (idxs : list nat) freed :
  fold_left (fun freed i => free_chain (bs !!! i) freed) idxs freed
  = freed
    ++ concat ((fun node => [pcKeyStore node; psNode node])
                 <$> concat ((fun i => bs !!! i) <$> idxs)).
Proof.
  revert freed. induction idxs as [| i idxs IH]; intros freed; simpl.
  - now rewrite app_nil_r.
  - rewrite IH, free_chain_spec, fmap_app, concat_app.
    now rewrite <- app_assoc.
Qed.

(** X10.  [SymTable_free] releases exactly what the table owns: for every
    node its key copy and then the node, chain after chain, and last the
    bucket array and the table structure: two calls of [free] per binding
    plus two.  Nothing else is passed to [free] (in particular no value),
    and no owned block is left out. *)
Theorem free_releases_owned p b t :
  SymTable_inv cs t ->
  SymTable_free p b t = owned_blocks t ++ [b; p] /\
  Z.of_nat (length (SymTable_free p b t)) = 2 * SymTable_getLength t + 2 /\
  (forall x,
     x ∈ SymTable_free p b t <->
     x = b \/ x = p \/
     exists node,
       node ∈ all_nodes t /\ (x = pcKeyStore node \/ x = psNode node)) /\
  (NoDup (b :: p :: owned_blocks t) -> NoDup (SymTable_free p b t)).
Proof.
  intros (_ & _ & Hl & _ & _ & Hq & _).
  assert (E : SymTable_free p b t = owned_blocks t ++ [b; p]).
  { unfold SymTable_free, owned_blocks.
    rewrite free_fold_spec, <- Hl, fmap_lookup_total_seq. reflexivity. }
  assert (Hlen : forall l : list SymTableNode,
            length (concat ((fun node => [pcKeyStore node; psNode node])
                              <$> l))
            = (2 * length l)%nat).
  { induction l as [| n l IH]; [reflexivity |].
    rewrite fmap_cons, concat_cons, length_app, IH. simpl. lia. }
  assert (Hmem : forall (l : list SymTableNode) x,
            x ∈ concat ((fun node => [pcKeyStore node; psNode node]) <$> l)
            <-> exists node,
                  node ∈ l /\ (x = pcKeyStore node \/ x = psNode node)).
  { intros l x. induction l as [| n l IH].
    - split; [intros Hx; inversion Hx |].
      intros (node & Hn & _). inversion Hn.
    - rewrite fmap_cons, concat_cons. simpl app.
      rewrite !elem_of_cons, IH. split.
      + intros [-> | [-> | (node & Hn & Hx)]].
        * exists n. split; [left | left]; reflexivity.
        * exists n. split; [left | right]; reflexivity.
        * exists node. split; [now right | exact Hx].
      + intros (node & Hn & Hx). apply elem_of_cons in Hn as [-> | Hn].
        * tauto.
        * right. right. now exists node. }
  split_and!.
  - exact E.
  - rewrite E, length_app. unfold owned_blocks. rewrite Hlen.
    unfold SymTable_getLength. rewrite Hq. simpl length. lia.
  - intros x. rewrite E, elem_of_app. unfold owned_blocks.
    rewrite Hmem, !elem_of_cons.
    split; [intros [Hx | [-> | [-> | Hx]]]; auto; inversion Hx |].
    intros [-> | [-> | Hx]]; auto.
  - intros HN. rewrite E.
    assert (HP : owned_blocks t ++ [b; p] ≡ₚ b :: p :: owned_blocks t).
    { rewrite Permutation_app_comm. reflexivity. }
    now rewrite HP.
Qed.

End HashTableFurther.

(** * Further properties of the list variant *)

Section ListFurther.

Implicit Types (t : SymTableList.SymTable) (k : string).

(** The walks of the list are the walks of a chain of the hash table. *)
Lemma list_put_duplicate_conv k (c : list SymTableList.SymTableNode) :
  SymTableList.put_duplicate k c
  = put_duplicate k (SymTableList.as_hash_node <$> c).
Proof.
  induction c as [| n c IH]; simpl; [reflexivity |].
  destruct (strcmp k (SymTableList.pcKey n) =? 0); [reflexivity | exact IH].
Qed.

Lemma list_contains_chain_conv k (c : list SymTableList.SymTableNode) :
  SymTableList.contains_chain k c
  = contains_chain k (SymTableList.as_hash_node <$> c).
Proof.
  induction c as [| n c IH]; simpl; [reflexivity |].
  destruct (strcmp k (SymTableList.pcKey n) =? 0); [reflexivity | exact IH].
Qed.

Lemma list_get_chain_conv k (c : list SymTableList.SymTableNode) :
  SymTableList.get_chain k c
  = get_chain k (SymTableList.as_hash_node <$> c).
Proof.
  induction c as [| n c IH]; simpl; [reflexivity |].
  destruct (strcmp k (SymTableList.pcKey n) =? 0); [reflexivity | exact IH].
Qed.

Lemma list_remove_chain_conv k (c : list SymTableList.SymTableNode) :
  remove_chain k (SymTableList.as_hash_node <$> c)
  = (fun r : ptr * list SymTableList.SymTableNode =>
       (r.1, SymTableList.as_hash_node <$> r.2))
      <$> SymTableList.remove_chain k c.
Proof.
  induction c as [| n c IH]; simpl; [reflexivity |].
  change (pcKey (SymTableList.as_hash_node n)) with (SymTableList.pcKey n).
  destruct (strcmp k (SymTableList.pcKey n) =? 0); [reflexivity |].
  change (list_fmap _ _ SymTableList.as_hash_node c)
    with (SymTableList.as_hash_node <$> c).
  rewrite IH.
  now destruct (SymTableList.remove_chain k c) as [[v r] |].
Qed.

Lemma list_replace_chain_conv k w (c : list SymTableList.SymTableNode) :
  replace_chain k w (SymTableList.as_hash_node <$> c)
  = (fun r : ptr * list SymTableList.SymTableNode =>
       (r.1, SymTableList.as_hash_node <$> r.2))
      <$> SymTableList.replace_chain k w c.
Proof.
  induction c as [| n c IH]; simpl; [reflexivity |].
  change (pcKey (SymTableList.as_hash_node n)) with (SymTableList.pcKey n).
  destruct (strcmp k (SymTableList.pcKey n) =? 0); [reflexivity |].
  change (list_fmap _ _ SymTableList.as_hash_node c)
    with (SymTableList.as_hash_node <$> c).
  rewrite IH.
  now destruct (SymTableList.replace_chain k w c) as [[v r] |].
Qed.

Lemma list_keys_conv (c : list SymTableList.SymTableNode) :
  SymTableList.pcKey <$> c = pcKey <$> (SymTableList.as_hash_node <$> c).
Proof. now rewrite <- list_fmap_compose. Qed.

Lemma list_addrs_conv (c : list SymTableList.SymTableNode) :
  SymTableList.psNode <$> c = psNode <$> (SymTableList.as_hash_node <$> c).
Proof. now rewrite <- list_fmap_compose. Qed.

Lemma list_contains_keys t k :
  SymTableList.SymTable_contains t k = 1 <-> k ∈ SymTableList.keys t.
Proof.
  unfold SymTableList.SymTable_contains, SymTableList.keys.
  rewrite list_contains_chain_conv, list_keys_conv. apply contains_chain_1.
Qed.

Lemma list_contains_bool t k :
  SymTableList.SymTable_contains t k = 0 \/
  SymTableList.SymTable_contains t k = 1.
Proof.
  unfold SymTableList.SymTable_contains.
  rewrite list_contains_chain_conv, contains_chain_duplicate.
  destruct (put_duplicate _ _); auto.
Qed.

Lemma list_not_contains_keys t k :
  SymTableList.SymTable_contains t k = 0 <-> k ∉ SymTableList.keys t.
Proof.
  rewrite <- list_contains_keys.
  destruct (list_contains_bool t k) as [E | E]; rewrite E; split;
    intros; try lia; try discriminate.
Qed.

(** Walks past a node of another key. *)
Lemma get_chain_middle k (c1 : list SymTableNode) node c2 :
  k <> pcKey node ->
  get_chain k (c1 ++ node :: c2) = get_chain k (c1 ++ c2).
Proof.
  intros H. induction c1 as [| x c1 IH]; simpl.
  - now rewrite strcmp_eqb, bool_decide_eq_false_2.
  - now rewrite IH.
Qed.

Lemma contains_chain_middle k (c1 : list SymTableNode) node c2 :
  k <> pcKey node ->
  contains_chain k (c1 ++ node :: c2) = contains_chain k (c1 ++ c2).
Proof.
  intros H. induction c1 as [| x c1 IH]; simpl.
  - now rewrite strcmp_eqb, bool_decide_eq_false_2.
  - now rewrite IH.
Qed.

Lemma get_chain_hit k (c1 : list SymTableNode) node c2 :
  k ∉ pcKey <$> c1 -> pcKey node = k ->
  get_chain k (c1 ++ node :: c2) = pvValue node.
Proof.
  intros H1 Hk. rewrite get_chain_app_r by exact H1. simpl.
  now rewrite strcmp_eqb, bool_decide_eq_true_2.
Qed.

Lemma list_nodeQuantity_bound t :
  SymTableList.SymTable_inv t ->
  0 <= SymTableList.nodeQuantity t < 2 ^ SIZE_WIDTH.
Proof.
  intros (_ & Hq & Haddr & Hr). split; [lia |].
  rewrite Hq, <- (length_fmap SymTableList.psNode).
  apply NoDup_bounded_length; [reflexivity | exact Haddr |].
  apply Forall_fmap. exact Hr.
Qed.

(** *** The list operations, call by call *)

Lemma list_put_present t k v (a : SymTableList.PutAllocs) :
  k ∈ SymTableList.keys t -> SymTableList.SymTable_put t k v a = (0, t).
Proof.
  intros Hk. unfold SymTableList.SymTable_put.
  rewrite list_put_duplicate_conv.
  rewrite (proj2 (put_duplicate_true _ _)); [reflexivity |].
  unfold SymTableList.keys in Hk. now rewrite <- list_keys_conv.
Qed.

Lemma list_put_alloc_fail t k v (a : SymTableList.PutAllocs) :
  SymTableList.malloc_psNewNode a = NULL \/
  SymTableList.malloc_pcKey a = NULL ->
  SymTableList.SymTable_put t k v a = (0, t).
Proof.
  intros Hf. unfold SymTableList.SymTable_put.
  destruct (SymTableList.put_duplicate _ _); [reflexivity |].
  destruct (Z.eqb_spec (SymTableList.malloc_psNewNode a) NULL);
    [reflexivity |].
  destruct (Z.eqb_spec (SymTableList.malloc_pcKey a) NULL);
    [reflexivity | tauto].
Qed.

Lemma list_put_absent t k v (a : SymTableList.PutAllocs) :
  k ∉ SymTableList.keys t ->
  SymTableList.malloc_psNewNode a <> NULL ->
  SymTableList.malloc_pcKey a <> NULL ->
  SymTableList.SymTable_put t k v a
  = (1, {| SymTableList.psFirstNode :=
             {| SymTableList.psNode := SymTableList.malloc_psNewNode a;
                SymTableList.pcKeyStore := SymTableList.malloc_pcKey a;
                SymTableList.pcKey := k;
                SymTableList.pvValue := v |} :: SymTableList.psFirstNode t;
           SymTableList.nodeQuantity :=
             to_size_t (SymTableList.nodeQuantity t + 1) |}).
Proof.
  intros Hk Hn Hkey. unfold SymTableList.SymTable_put.
  rewrite list_put_duplicate_conv.
  rewrite (proj2 (put_duplicate_false _ _)).
  2:{ unfold SymTableList.keys in Hk. now rewrite <- list_keys_conv. }
  now rewrite (proj2 (Z.eqb_neq _ _) Hn), (proj2 (Z.eqb_neq _ _) Hkey).
Qed.

Lemma list_remove_absent t k :
  k ∉ SymTableList.keys t -> SymTableList.SymTable_remove t k = (NULL, t).
Proof.
  intros Hk. unfold SymTableList.SymTable_remove.
  pose proof (list_remove_chain_conv k (SymTableList.psFirstNode t)) as E.
  rewrite (proj2 (remove_chain_None _ _)) in E.
  2:{ unfold SymTableList.keys in Hk. now rewrite <- list_keys_conv. }
  now destruct (SymTableList.remove_chain k _) as [[v r] |].
Qed.

Lemma list_remove_present t k :
  k ∈ SymTableList.keys t ->
  exists c1 node c2 c',
    SymTableList.SymTable_remove t k
    = (pvValue node,
       {| SymTableList.psFirstNode := c';
          SymTableList.nodeQuantity :=
            to_size_t (SymTableList.nodeQuantity t - 1) |}) /\
    SymTableList.as_hash_node <$> SymTableList.psFirstNode t
    = c1 ++ node :: c2 /\
    SymTableList.as_hash_node <$> c' = c1 ++ c2 /\
    pcKey node = k /\ (k ∉ pcKey <$> c1).
Proof.
  intros Hk. unfold SymTableList.SymTable_remove.
  pose proof (list_remove_chain_conv k (SymTableList.psFirstNode t)) as E.
  destruct (SymTableList.remove_chain k _) as [[v c'] |]; simpl in E.
  - destruct (remove_chain_Some _ _ _ _ E)
      as (c1 & node & c2 & E1 & E2 & Hkey & Hv & Hc1).
    exists c1, node, c2, c'. now rewrite Hv.
  - apply remove_chain_None in E. exfalso. apply E.
    unfold SymTableList.keys in Hk. now rewrite <- list_keys_conv.
Qed.

Lemma list_replace_absent t k v :
  k ∉ SymTableList.keys t -> SymTableList.SymTable_replace t k v = (NULL, t).
Proof.
  intros Hk. unfold SymTableList.SymTable_replace.
  pose proof (list_replace_chain_conv k v (SymTableList.psFirstNode t)) as E.
  rewrite (proj2 (replace_chain_None _ _ _)) in E.
  2:{ unfold SymTableList.keys in Hk. now rewrite <- list_keys_conv. }
  now destruct (SymTableList.replace_chain k v _) as [[w r] |].
Qed.

Lemma list_replace_present t k v :
  k ∈ SymTableList.keys t ->
  exists c1 node c2 c',
    SymTableList.SymTable_replace t k v
    = (pvValue node,
       {| SymTableList.psFirstNode := c';
          SymTableList.nodeQuantity := SymTableList.nodeQuantity t |}) /\
    SymTableList.as_hash_node <$> SymTableList.psFirstNode t
    = c1 ++ node :: c2 /\
    SymTableList.as_hash_node <$> c' = c1 ++ set_value node v :: c2 /\
    pcKey node = k /\ (k ∉ pcKey <$> c1).
Proof.
  intros Hk. unfold SymTableList.SymTable_replace.
  pose proof (list_replace_chain_conv k v (SymTableList.psFirstNode t)) as E.
  destruct (SymTableList.replace_chain k v _) as [[w c'] |]; simpl in E.
  - destruct (replace_chain_Some _ _ _ _ _ E)
      as (c1 & node & c2 & E1 & E2 & Hkey & Hv & Hc1).
    exists c1, node, c2, c'. now rewrite Hv.
  - apply replace_chain_None in E. exfalso. apply E.
    unfold SymTableList.keys in Hk. now rewrite <- list_keys_conv.
Qed.

(** The invariant of the list read on its nodes as hash nodes. *)
Lemma list_inv_conv t :
  SymTableList.SymTable_inv t <->
  NoDup (pcKey <$> (SymTableList.as_hash_node
                      <$> SymTableList.psFirstNode t)) /\
  SymTableList.nodeQuantity t
  = Z.of_nat (length (SymTableList.as_hash_node
                        <$> SymTableList.psFirstNode t)) /\
  NoDup (psNode <$> (SymTableList.as_hash_node
                       <$> SymTableList.psFirstNode t)) /\
  Forall (fun node => 0 < psNode node < 2 ^ SIZE_WIDTH)
    (SymTableList.as_hash_node <$> SymTableList.psFirstNode t).
Proof.
  unfold SymTableList.SymTable_inv, SymTableList.keys.
  rewrite <- list_keys_conv, <- list_addrs_conv, length_fmap, Forall_fmap.
  reflexivity.
Qed.

(** X11.  The put of the list variant.  On a key that is contained, or when
    an allocation fails, it returns 0 and leaves the table exactly as it is.
    On an absent key with both allocations served it returns 1 and links the
    new node at the head of the list: the key is then bound to the value,
    every other key answers get and contains as before, and (the node
    address being fresh) the invariant is kept and the length is one
    more. *)
Theorem list_put_contract t k v (a : SymTableList.PutAllocs) :
  (SymTableList.SymTable_contains t k = 1 ->
   SymTableList.SymTable_put t k v a = (0, t)) /\
  (SymTableList.malloc_psNewNode a = NULL \/
   SymTableList.malloc_pcKey a = NULL ->
   SymTableList.SymTable_put t k v a = (0, t)) /\
  (SymTableList.SymTable_contains t k = 0 ->
   SymTableList.malloc_psNewNode a <> NULL ->
   SymTableList.malloc_pcKey a <> NULL ->
   let t' := (SymTableList.SymTable_put t k v a).2 in
   (SymTableList.SymTable_put t k v a).1 = 1 /\
   SymTableList.psFirstNode t'
   = {| SymTableList.psNode := SymTableList.malloc_psNewNode a;
        SymTableList.pcKeyStore := SymTableList.malloc_pcKey a;
        SymTableList.pcKey := k;
        SymTableList.pvValue := v |} :: SymTableList.psFirstNode t /\
   SymTableList.SymTable_get t' k = v /\
   SymTableList.SymTable_contains t' k = 1 /\
   (forall k', k' <> k ->
      SymTableList.SymTable_get t' k' = SymTableList.SymTable_get t k' /\
      SymTableList.SymTable_contains t' k'
      = SymTableList.SymTable_contains t k') /\
   (SymTableList.SymTable_inv t -> SymTableList.malloc_fresh t a ->
    SymTableList.SymTable_inv t' /\
    SymTableList.SymTable_getLength t'
    = SymTableList.SymTable_getLength t + 1)).
Proof.
  split_and!.
  - intros Hc. apply list_put_present. now apply list_contains_keys.
  - apply list_put_alloc_fail.
  - intros Hc Hn Hkey t'. subst t'.
    apply list_not_contains_keys in Hc.
    rewrite list_put_absent by assumption.
    cbn [fst snd SymTableList.psFirstNode].
    unfold SymTableList.SymTable_get, SymTableList.SymTable_contains.
    cbn [SymTableList.psFirstNode SymTableList.get_chain
         SymTableList.contains_chain SymTableList.pcKey SymTableList.pvValue].
    rewrite !strcmp_eqb, bool_decide_eq_true_2 by reflexivity.
    split_and!; try reflexivity.
    + intros k' Hne.
      rewrite strcmp_eqb, bool_decide_eq_false_2 by exact Hne. now split.
    + intros (Hkeys & Hq & Haddr & Hr) [Hnull | (Hrange & Hfresh)];
        [contradiction |].
      assert (HD : NoDup (SymTableList.malloc_psNewNode a
                          :: (SymTableList.psNode
                                <$> SymTableList.psFirstNode t)))
        by now apply NoDup_cons.
      assert (HR : Forall (fun x => 0 < x < 2 ^ SIZE_WIDTH)
                     (SymTableList.malloc_psNewNode a
                      :: (SymTableList.psNode
                            <$> SymTableList.psFirstNode t))).
      { constructor; [exact Hrange |]. apply Forall_fmap. exact Hr. }
      pose proof (NoDup_bounded_length _ (2 ^ SIZE_WIDTH) ltac:(reflexivity)
                    HD HR) as Hlen.
      rewrite length_cons, length_fmap in Hlen.
      assert (Hs : to_size_t (SymTableList.nodeQuantity t + 1)
                   = SymTableList.nodeQuantity t + 1)
        by (apply to_size_t_small; lia).
      unfold SymTableList.SymTable_inv, SymTableList.keys,
        SymTableList.SymTable_getLength.
      cbn [SymTableList.psFirstNode SymTableList.nodeQuantity].
      split; [| exact Hs].
      split_and!.
      * rewrite fmap_cons. now apply NoDup_cons.
      * rewrite Hs, Hq. simpl length. lia.
      * exact HD.
      * constructor; [exact Hrange | exact Hr].
Qed.

(** X12.  The remove of the list variant, on a table that satisfies the
    invariant: of a contained key it returns the value bound to it and the
    length drops by one; of an absent key it returns NULL and leaves the
    table exactly as it is; afterwards the key is not contained, every other
    key answers get and contains as before, and the invariant holds. *)
Theorem list_remove_contract t k :
  SymTableList.SymTable_inv t ->
  let t' := (SymTableList.SymTable_remove t k).2 in
  (SymTableList.SymTable_contains t k = 1 ->
   (SymTableList.SymTable_remove t k).1 = SymTableList.SymTable_get t k /\
   SymTableList.SymTable_getLength t'
   = SymTableList.SymTable_getLength t - 1) /\
  (SymTableList.SymTable_contains t k = 0 ->
   SymTableList.SymTable_remove t k = (NULL, t)) /\
  SymTableList.SymTable_contains t' k = 0 /\
  (forall k', k' <> k ->
     SymTableList.SymTable_get t' k' = SymTableList.SymTable_get t k' /\
     SymTableList.SymTable_contains t' k'
     = SymTableList.SymTable_contains t k') /\
  SymTableList.SymTable_inv t'.
Proof.
  intros H t'. subst t'.
  destruct (decide (k ∈ SymTableList.keys t)) as [Hk | Hk].
  - destruct (list_remove_present t k Hk)
      as (c1 & node & c2 & c' & E & E1 & E2 & Hkey & Hc1).
    rewrite E. cbn [fst snd].
    pose proof (list_nodeQuantity_bound t H) as Hb.
    apply list_inv_conv in H. rewrite E1 in H.
    destruct H as (Hkeys & Hq & Haddr & Hr).
    assert (HP : c1 ++ node :: c2 ≡ₚ node :: c1 ++ c2)
      by (symmetry; apply Permutation_middle).
    rewrite HP in Hkeys, Haddr, Hr. simpl in Hkeys, Haddr.
    apply NoDup_cons in Hkeys as [Hnk Hkeys].
    apply NoDup_cons in Haddr as [_ Haddr].
    apply Forall_cons in Hr as [_ Hr].
    rewrite length_app in Hq. simpl length in Hq.
    assert (Hs : to_size_t (SymTableList.nodeQuantity t - 1)
                 = SymTableList.nodeQuantity t - 1)
      by (apply to_size_t_small; lia).
    unfold SymTableList.SymTable_get, SymTableList.SymTable_contains,
      SymTableList.SymTable_getLength.
    cbn [SymTableList.psFirstNode SymTableList.nodeQuantity].
    split_and!.
    + intros _. split; [| exact Hs].
      rewrite list_get_chain_conv, E1.
      symmetry. now apply get_chain_hit.
    + intros Hc. apply list_not_contains_keys in Hc. contradiction.
    + rewrite list_contains_chain_conv, E2.
      apply contains_chain_0. now rewrite Hkey in Hnk.
    + intros k' Hne. rewrite <- Hkey in Hne.
      rewrite !list_get_chain_conv, !list_contains_chain_conv, E1, E2.
      rewrite get_chain_middle, contains_chain_middle by exact Hne.
      now split.
    + apply list_inv_conv.
      cbn [SymTableList.psFirstNode SymTableList.nodeQuantity].
      rewrite E2. split_and!; try assumption.
      rewrite Hs, Hq, length_app. lia.
  - rewrite list_remove_absent by exact Hk. cbn [fst snd].
    split_and!; try assumption; try reflexivity.
    + intros Hc. apply list_contains_keys in Hc. contradiction.
    + now apply list_not_contains_keys.
    + now intros k' _.
Qed.

(** X13.  The replace of the list variant (first revision), on a table that
    satisfies the invariant and for any new value, NULL included: of a
    contained key it returns the prior value and binds the key to the new
    one; of an absent key it returns NULL and leaves the table exactly as it
    is; every other key answers get as before, containment and length do not
    change, and the invariant holds. *)
Theorem list_replace_contract t k v :
  SymTableList.SymTable_inv t ->
  let t' := (SymTableList.SymTable_replace t k v).2 in
  (SymTableList.SymTable_contains t k = 1 ->
   (SymTableList.SymTable_replace t k v).1 = SymTableList.SymTable_get t k /\
   SymTableList.SymTable_get t' k = v) /\
  (SymTableList.SymTable_contains t k = 0 ->
   SymTableList.SymTable_replace t k v = (NULL, t)) /\
  (forall k', k' <> k ->
     SymTableList.SymTable_get t' k' = SymTableList.SymTable_get t k') /\
  (forall k',
     SymTableList.SymTable_contains t' k'
     = SymTableList.SymTable_contains t k') /\
  SymTableList.SymTable_getLength t' = SymTableList.SymTable_getLength t /\
  SymTableList.SymTable_inv t'.
Proof.
  intros H t'. subst t'.
  destruct (decide (k ∈ SymTableList.keys t)) as [Hk | Hk].
  - destruct (list_replace_present t k v Hk)
      as (c1 & node & c2 & c' & E & E1 & E2 & Hkey & Hc1).
    rewrite E. cbn [fst snd].
    apply list_inv_conv in H. rewrite E1 in H.
    destruct H as (Hkeys & Hq & Haddr & Hr).
    unfold SymTableList.SymTable_get, SymTableList.SymTable_contains,
      SymTableList.SymTable_getLength.
    cbn [SymTableList.psFirstNode SymTableList.nodeQuantity].
    assert (Hsame : pcKey <$> (c1 ++ set_value node v :: c2)
                    = pcKey <$> (c1 ++ node :: c2))
      by now rewrite !fmap_app, !fmap_cons.
    split_and!.
    + intros _. rewrite !list_get_chain_conv, E1, E2. split.
      * symmetry. now apply get_chain_hit.
      * now rewrite get_chain_hit.
    + intros Hc. apply list_not_contains_keys in Hc. contradiction.
    + intros k' Hne. rewrite <- Hkey in Hne.
      rewrite !list_get_chain_conv, E1, E2.
      rewrite (get_chain_middle k' c1 (set_value node v)) by exact Hne.
      now rewrite get_chain_middle.
    + intros k'. rewrite !list_contains_chain_conv, E1, E2.
      rewrite !contains_chain_duplicate.
      destruct (put_duplicate k' (c1 ++ set_value node v :: c2)) eqn:D2,
               (put_duplicate k' (c1 ++ node :: c2)) eqn:D1; try reflexivity.
      * apply put_duplicate_true in D2. apply put_duplicate_false in D1.
        rewrite Hsame in D2. contradiction.
      * apply put_duplicate_true in D1. apply put_duplicate_false in D2.
        rewrite Hsame in D2. contradiction.
    + reflexivity.
    + apply list_inv_conv.
      cbn [SymTableList.psFirstNode SymTableList.nodeQuantity].
      rewrite E2. split_and!.
      * now rewrite Hsame.
      * rewrite Hq, !length_app. reflexivity.
      * rewrite !fmap_app, fmap_cons in *. exact Haddr.
      * rewrite !Forall_app, Forall_cons in *. exact Hr.
  - rewrite list_replace_absent by exact Hk. cbn [fst snd].
    split_and!; try assumption; try reflexivity.
    intros Hc. apply list_contains_keys in Hc. contradiction.
Qed.

End ListFurther.

(** * The list variant and the hash table agree *)

Section Equivalence.

Import Interface.

Variable cs : bool.

Implicit Types (tl : SymTableList.SymTable) (th : SymTable) (k : string).

(** A replace of the hash table, on the nodes of all chains. *)
Lemma SymTable_replace_nodes th k v :
  v <> NULL -> SymTable_inv cs th -> k ∈ keys th ->
  exists node rest th',
    SymTable_replace cs th k v = Some (pvValue node, th') /\
    pcKey node = k /\
    all_nodes th ≡ₚ node :: rest /\
    all_nodes th' ≡ₚ set_value node v :: rest /\
    nodeQuantity th' = nodeQuantity th /\
    SymTable_inv cs th'.
Proof.
  intros Hv H Hk.
  pose proof (inv_index_lt cs th k H) as Hlt.
  destruct (inv_bucket_split cs th k H) as (E & _ & _).
  destruct (SymTable_replace_present cs th k v Hv H Hk)
    as (c1 & node & c2 & th' & Er & Hkey & _ & Ec & Et & _ & Hinv).
  set (i := Z.to_nat (symtablehash_hashFunction cs k (bucketCount th))) in *.
  exists node,
    (concat (take i (buckets th)) ++ (c1 ++ c2)
       ++ concat (drop (S i) (buckets th))), th'.
  split_and!; try assumption.
  - rewrite E, Ec. rewrite <- !app_assoc. simpl.
    rewrite (app_assoc _ c1). rewrite <- Permutation_middle.
    now rewrite <- app_assoc.
  - rewrite Et, all_nodes_set_bucket by exact Hlt.
    rewrite <- !app_assoc. simpl.
    rewrite (app_assoc _ c1). rewrite <- Permutation_middle.
    now rewrite <- app_assoc.
  - now subst th'.
Qed.

Lemma same_bindings_list_inv tl th :
  same_bindings cs tl th -> SymTableList.SymTable_inv tl.
Proof.
  intros (H & HP & Hq). apply list_inv_conv.
  destruct H as (_ & _ & _ & _ & Hkeys & Hqh & Haddr & Hr).
  unfold keys in Hkeys. rewrite HP.
  split_and!; try assumption. now rewrite Hq.
Qed.

Lemma same_bindings_keys tl th k :
  same_bindings cs tl th -> k ∈ SymTableList.keys tl <-> k ∈ keys th.
Proof.
  intros (_ & HP & _). unfold SymTableList.keys, keys.
  now rewrite list_keys_conv, HP.
Qed.

Lemma same_bindings_lookups tl th k :
  same_bindings cs tl th ->
  SymTableList.SymTable_get tl k = SymTable_get cs th k /\
  SymTableList.SymTable_contains tl k = SymTable_contains cs th k /\
  SymTableList.SymTable_getLength tl = SymTable_getLength th.
Proof.
  intros (H & HP & Hq).
  unfold SymTableList.SymTable_get, SymTableList.SymTable_contains.
  rewrite list_get_chain_conv, list_contains_chain_conv.
  rewrite SymTable_get_all_nodes, SymTable_contains_all_nodes by exact H.
  split_and!.
  - symmetry. apply get_chain_Permutation; [| now symmetry].
    now destruct H as (_ & _ & _ & _ & Hkeys & _).
  - now apply contains_chain_Permutation.
  - exact Hq.
Qed.

(** One call keeps the two tables in step and returns the same value. *)
Lemma call_simulation tl th c :
  same_bindings cs tl th -> call_pre th c ->
  exists r th',
    call_hash cs th c = Some (r, th') /\
    (call_list tl c).1 = r /\
    same_bindings cs (call_list tl c).2 th'.
Proof.
  intros HR Hpre. pose proof HR as (H & HP & Hq).
  destruct (same_bindings_lookups tl th) with (k := EmptyString)
    as (_ & _ & Hlen); [exact HR |].
  destruct c as [k v a | k v | k | k | k |]; cbn [call_hash call_list call_pre]
    in *.
  - (* put *)
    destruct (put_resized_spec cs th a H) as (H1 & HP1 & HQ1 & _).
    assert (HR1 : same_bindings cs tl (put_resized cs th a)).
    { split_and!; [exact H1 | now rewrite HP1 | now rewrite HQ1]. }
    destruct (decide (k ∈ keys th)) as [Hk | Hk].
    { eexists _, _. rewrite SymTable_put_present by assumption.
      split; [reflexivity |].
      rewrite list_put_present by now apply (same_bindings_keys tl th k HR).
      now split. }
    assert (Hkl : k ∉ SymTableList.keys tl)
      by now rewrite (same_bindings_keys tl th k HR).
    destruct (decide (malloc_psNewNode a = NULL)) as [Hn | Hn].
    { eexists _, _. rewrite SymTable_put_alloc_fail by auto.
      split; [reflexivity |]. rewrite list_put_alloc_fail by auto.
      now split. }
    destruct (decide (malloc_pcKey a = NULL)) as [Hkey | Hkey].
    { eexists _, _. rewrite SymTable_put_alloc_fail by auto.
      split; [reflexivity |]. rewrite list_put_alloc_fail by auto.
      now split. }
    destruct (SymTable_put_absent cs th k v a H Hk Hn Hkey)
      as (th' & E & HP' & _ & _ & Hq' & Hinv).
    exists 1, th'. split; [now rewrite E |].
    rewrite list_put_absent by assumption. cbn [fst snd].
    split; [reflexivity |].
    split_and!.
    + now apply Hinv.
    + cbn [SymTableList.psFirstNode]. rewrite fmap_cons, HP', HP.
      reflexivity.
    + cbn [SymTableList.nodeQuantity list_allocs]. now rewrite Hq', Hq.
  - (* replace *)
    destruct (decide (k ∈ keys th)) as [Hk | Hk].
    + destruct (SymTable_replace_nodes th k v Hpre H Hk)
        as (node & rest & th' & Er & Hkey & HPn & HPn' & Hq' & Hinv).
      destruct (list_replace_present tl k v)
        as (c1 & nl & c2 & c' & El & E1 & E2 & Hkl & Hc1);
        [now apply (same_bindings_keys tl th k HR) |].
      assert (nl = node) as ->.
      { destruct H as (_ & _ & _ & _ & Hkeys & _).
        apply (NoDup_fmap_elem_inj pcKey (all_nodes th)); try assumption.
        - rewrite <- HP, E1, elem_of_app, elem_of_cons. auto.
        - rewrite HPn. left.
        - congruence. }
      exists (pvValue node), th'. split; [exact Er |].
      rewrite El. cbn [fst snd]. split; [reflexivity |].
      split_and!; [exact Hinv | | ].
      * cbn [SymTableList.psFirstNode]. rewrite E2, HPn'.
        rewrite <- Permutation_middle. constructor.
        apply (Permutation_cons_inv (a := node)).
        rewrite Permutation_middle, <- E1, HP. exact HPn.
      * cbn [SymTableList.nodeQuantity]. now rewrite Hq'.
    + eexists _, _.
      rewrite SymTable_replace_absent by assumption.
      split; [reflexivity |].
      rewrite list_replace_absent
        by now rewrite (same_bindings_keys tl th k HR).
      now split.
  - (* remove *)
    destruct (decide (k ∈ keys th)) as [Hk | Hk].
    + destruct (SymTable_remove_present cs th k H Hk)
        as (node & th' & Er & Hkey & _ & HPn & Hq' & _ & _ & Hinv).
      destruct (list_remove_present tl k)
        as (c1 & nl & c2 & c' & El & E1 & E2 & Hkl & Hc1);
        [now apply (same_bindings_keys tl th k HR) |].
      assert (nl = node) as ->.
      { destruct H as (_ & _ & _ & _ & Hkeys & _).
        apply (NoDup_fmap_elem_inj pcKey (all_nodes th)); try assumption.
        - rewrite <- HP, E1, elem_of_app, elem_of_cons. auto.
        - rewrite HPn. left.
        - congruence. }
      exists (pvValue node), th'. rewrite Er. split; [reflexivity |].
      rewrite El. cbn [fst snd]. split; [reflexivity |].
      pose proof (nodeQuantity_bound cs th H) as Hb.
      pose proof (nodeQuantity_bound cs th' Hinv) as Hb'.
      split_and!; [exact Hinv | | ].
      * cbn [SymTableList.psFirstNode]. rewrite E2.
        apply (Permutation_cons_inv (a := node)).
        rewrite Permutation_middle, <- E1, HP. exact HPn.
      * cbn [SymTableList.nodeQuantity]. rewrite Hq, Hq'.
        apply to_size_t_small. lia.
    + eexists _, _. rewrite SymTable_remove_absent by assumption.
      split; [reflexivity |].
      rewrite list_remove_absent
        by now rewrite (same_bindings_keys tl th k HR).
      now split.
  - (* get *)
    eexists _, _. split; [reflexivity |]. cbn [fst snd].
    split; [| exact HR]. apply (same_bindings_lookups tl th k HR).
  - (* contains *)
    eexists _, _. split; [reflexivity |]. cbn [fst snd].
    split; [| exact HR]. apply (same_bindings_lookups tl th k HR).
  - (* getLength *)
    eexists _, _. split; [reflexivity |]. cbn [fst snd].
    split; [exact Hlen | exact HR].
Qed.

Lemma run_simulation tl th (calls : list Call) :
  same_bindings cs tl th -> calls_pre cs th calls ->
  exists th',
    run_hash cs th calls = Some ((run_list tl calls).1, th') /\
    same_bindings cs (run_list tl calls).2 th'.
Proof.
  revert tl th. induction calls as [| c calls IH]; intros tl th HR Hpre.
  - exists th. now split.
  - cbn [calls_pre] in Hpre. destruct Hpre as [Hc Hrest].
    destruct (call_simulation tl th c HR Hc) as (r & th1 & E & Er & HR1).
    rewrite E in Hrest.
    destruct (IH _ _ HR1 Hrest) as (th2 & E2 & HR2).
    exists th2. cbn [run_hash run_list]. rewrite E, E2.
    destruct (call_list tl c) as [r' tl1]. cbn [fst snd] in *.
    destruct (run_list tl1 calls) as [rs tl2]. cbn [fst snd] in *.
    subst r'. now split.
Qed.

(** X14.  The list variant and the hash table are interchangeable behind
    the interface: started empty and driven by the same sequence of put,
    replace, remove, get, contains and getLength calls (the allocator
    answering both alike, replace values not NULL), they return the same
    value at every call; at the end they hold the same bindings and the
    list satisfies its invariant. *)
Theorem list_hash_equivalence p q p' th0 tl0 (calls : list Call) :
  SymTable_new p q = Some th0 ->
  SymTableList.SymTable_new p' = Some tl0 ->
  calls_pre cs th0 calls ->
  exists th,
    run_hash cs th0 calls = Some ((run_list tl0 calls).1, th) /\
    same_bindings cs (run_list tl0 calls).2 th /\
    SymTableList.SymTable_inv (run_list tl0 calls).2 /\
    (forall k,
       SymTableList.SymTable_get (run_list tl0 calls).2 k
       = SymTable_get cs th k /\
       SymTableList.SymTable_contains (run_list tl0 calls).2 k
       = SymTable_contains cs th k) /\
    SymTableList.SymTable_getLength (run_list tl0 calls).2
    = SymTable_getLength th.
Proof.
  intros Hh Hl Hpre.
  destruct (SymTable_new_inv cs p q th0 Hh) as [H0 Hnil].
  apply SymTable_new_Some in Hh.
  assert (El : tl0 = {| SymTableList.psFirstNode := [];
                        SymTableList.nodeQuantity := 0 |}).
  { unfold SymTableList.SymTable_new in Hl.
    destruct (p' =? NULL); [discriminate |]. now injection Hl as <-. }
  assert (HR0 : same_bindings cs tl0 th0).
  { split_and!; [exact H0 | | ].
    - rewrite Hnil, El. reflexivity.
    - rewrite El, Hh. reflexivity. }
  destruct (run_simulation tl0 th0 calls HR0 Hpre) as (th & E & HR).
  exists th. split_and!; try assumption.
  - now apply (same_bindings_list_inv _ th).
  - intros k.
    destruct (same_bindings_lookups _ th k HR) as (G1 & G2 & _).
    now split.
  - now destruct (same_bindings_lookups _ th EmptyString HR) as (_ & _ & G).
Qed.

End Equivalence.

(** * The second revision of the list variant never binds NULL *)

Section ListRev2.

Import SymTableList.

Lemma list_get_NULL_iff (c : list SymTableList.SymTableNode) k :
  Forall (fun node => pvValue node <> NULL) c ->
  get_chain k c = NULL <-> contains_chain k c = 0.
Proof.
  induction 1 as [| node c Hv _ IH]; simpl; [tauto |].
  destruct (strcmp k (pcKey node) =? 0); [| exact IH].
  split; [contradiction | discriminate].
Qed.

Lemma list_remove_chain_Forall (P : SymTableList.SymTableNode -> Prop) k
    (c : list SymTableList.SymTableNode) v c' :
  Forall P c -> remove_chain k c = Some (v, c') -> Forall P c'.
Proof.
  intros HF. revert v c'.
  induction HF as [| node c Hn HF IH]; simpl; intros v c' E; [discriminate |].
  destruct (strcmp k (pcKey node) =? 0).
  - now injection E as <- <-.
  - destruct (remove_chain k c) as [[w r] |]; [| discriminate].
    injection E as <- <-. constructor; [exact Hn | now apply (IH w)].
Qed.

Lemma list_replace_chain_values k w (c : list SymTableList.SymTableNode)
    v c' :
  w <> NULL ->
  Forall (fun node => pvValue node <> NULL) c ->
  replace_chain k w c = Some (v, c') ->
  Forall (fun node => pvValue node <> NULL) c'.
Proof.
  intros Hw HF. revert v c'.
  induction HF as [| node c Hn HF IH]; simpl; intros v c' E; [discriminate |].
  destruct (strcmp k (pcKey node) =? 0).
  - injection E as <- <-. constructor; [exact Hw | exact HF].
  - destruct (replace_chain k w c) as [[x r] |]; [| discriminate].
    injection E as <- <-. constructor; [exact Hn | now apply (IH x)].
Qed.

Lemma rev2_step_values t op t' :
  Forall (fun node => pvValue node <> NULL) (psFirstNode t) ->
  SymTableListRev2.step t op = Some t' ->
  Forall (fun node => pvValue node <> NULL) (psFirstNode t').
Proof.
  intros HF Hs. destruct op as [k v a | k v | k]; cbn [SymTableListRev2.step]
    in Hs.
  - unfold SymTableListRev2.SymTable_put in Hs.
    destruct (Z.eqb_spec v NULL) as [| Hv]; [discriminate |].
    destruct (put_duplicate k (psFirstNode t));
      [now injection Hs as <- |].
    destruct (malloc_psNewNode a =? NULL); [now injection Hs as <- |].
    destruct (malloc_pcKey a =? NULL); [now injection Hs as <- |].
    injection Hs as <-. cbn [psFirstNode]. constructor; [exact Hv | exact HF].
  - unfold SymTableListRev2.SymTable_replace in Hs.
    destruct (Z.eqb_spec v NULL) as [| Hv]; [discriminate |].
    destruct (replace_chain k v (psFirstNode t)) as [[old c'] |] eqn:E.
    + injection Hs as <-. cbn [psFirstNode].
      now apply (list_replace_chain_values k v (psFirstNode t) old).
    + now injection Hs as <-.
  - injection Hs as <-. unfold SymTable_remove.
    destruct (remove_chain k (psFirstNode t)) as [[old c'] |] eqn:E.
    + cbn [snd psFirstNode].
      now apply (list_remove_chain_Forall _ k (psFirstNode t) old).
    + exact HF.
Qed.

(** X15.  In the second revision of the list variant, whose put and
    replace assert a non-NULL value, no reachable table binds a key to
    NULL; there [SymTable_get] returns NULL exactly for the keys that are
    not contained, so the NULL result does tell absence. *)
Theorem rev2_get_NULL_iff_absent p t0 t :
  SymTable_new p = Some t0 ->
  SymTableListRev2.steps t0 t ->
  Forall (fun node => pvValue node <> NULL) (psFirstNode t) /\
  (forall k, SymTable_get t k = NULL <-> SymTable_contains t k = 0).
Proof.
  intros Hnew Hs.
  assert (HF : Forall (fun node => pvValue node <> NULL) (psFirstNode t)).
  { induction Hs as [| t1 op t2 Hs IH Hstep].
    - unfold SymTable_new in Hnew.
      destruct (p =? NULL); [discriminate |].
      injection Hnew as <-. constructor.
    - now apply (rev2_step_values t1 op t2). }
  split; [exact HF |].
  intros k. now apply list_get_NULL_iff.
Qed.

End ListRev2.

(** * The further properties at concrete tables *)

Section ConcreteFurther.

Import Scenario.

Lemma filled_3_inv : SymTable_inv false (filled false 3).
Proof. compute_done. Qed.

Lemma allocs_500_fresh : malloc_fresh (filled false 3) (allocs_at 500).
Proof. right. split; compute_done. Qed.

Lemma list_filled_3_inv : SymTableList.SymTable_inv (list_filled 3).
Proof. compute_done. Qed.

Lemma new_table_empty_witness :
  SymTable_new 16 64 = Some fresh /\
  SymTable_getLength fresh = 0 /\
  SymTable_get false fresh "AA" = NULL.
Proof.
  destruct (proj2 (new_table_empty false 16 64) fresh fresh_new)
    as (R1 & _ & R3 & _).
  split_and!; [reflexivity | exact R1 | apply (R3 "AA")].
Defined.

Lemma put_then_get_witness :
  SymTable_contains false (filled false 3) "ZZ" = 0 /\
  SymTable_get false
    (SymTable_put false (filled false 3) "ZZ" 7 (allocs_at 500)).2 "ZZ" = 7 /\
  SymTable_get false
    (SymTable_put false (filled false 3) "ZZ" 7 (allocs_at 500)).2 "AB"
  = SymTable_get false (filled false 3) "AB".
Proof.
  assert (Hc : SymTable_contains false (filled false 3) "ZZ" = 0)
    by compute_done.
  destruct (put_then_get false (filled false 3) "ZZ" 7 (allocs_at 500)
              filled_3_inv Hc ltac:(compute_done) ltac:(compute_done)
              allocs_500_fresh) as (_ & R2 & _ & _ & R5 & _).
  split_and!; [exact Hc | exact R2 |].
  apply (R5 "AB"). compute_done.
Defined.

Lemma put_alloc_failure_witness :
  malloc_psNewNode {| calloc_newBuckets := 8; malloc_psNewNode := NULL;
                      malloc_pcKey := 64 |} = NULL /\
  (SymTable_put false (filled false 3) "ZZ" 7
     {| calloc_newBuckets := 8; malloc_psNewNode := NULL;
        malloc_pcKey := 64 |}).1 = 0.
Proof.
  destruct (put_alloc_failure false (filled false 3) "ZZ" 7
              {| calloc_newBuckets := 8; malloc_psNewNode := NULL;
                 malloc_pcKey := 64 |} filled_3_inv
              (or_introl eq_refl)) as (R1 & _).
  split; [reflexivity | exact R1].
Defined.

Lemma put_remove_roundtrip_witness :
  SymTable_contains false (filled false 3) "ZZ" = 0 /\
  SymTable_remove false
    (SymTable_put false (filled false 3) "ZZ" 7 (allocs_at 500)).2 "ZZ"
  = (7, put_resized false (filled false 3) (allocs_at 500)).
Proof.
  assert (Hc : SymTable_contains false (filled false 3) "ZZ" = 0)
    by compute_done.
  split; [exact Hc |].
  apply (put_remove_roundtrip false (filled false 3) "ZZ" 7 (allocs_at 500)
           filled_3_inv Hc ltac:(compute_done) ltac:(compute_done)
           allocs_500_fresh).
Defined.

Lemma remove_frame_witness :
  SymTable_inv false (filled false 3) /\
  SymTable_get false (SymTable_remove false (filled false 3) "AB").2 "AC"
  = SymTable_get false (filled false 3) "AC".
Proof.
  destruct (remove_frame false (filled false 3) "AB" filled_3_inv)
    as (R1 & _).
  split; [exact filled_3_inv |]. apply (R1 "AC"). compute_done.
Defined.

Lemma replace_roundtrip_witness :
  77 <> NULL /\
  SymTable_contains false (filled false 3) "AB" = 1 /\
  SymTable_get false (filled false 3) "AB" <> NULL /\
  exists t',
    SymTable_replace false (filled false 3) "AB" 77
    = Some (SymTable_get false (filled false 3) "AB", t') /\
    SymTable_replace false t' "AB" (SymTable_get false (filled false 3) "AB")
    = Some (77, filled false 3).
Proof.
  assert (Hv : 77 <> NULL) by compute_done.
  assert (Hc : SymTable_contains false (filled false 3) "AB" = 1)
    by compute_done.
  assert (Ho : SymTable_get false (filled false 3) "AB" <> NULL)
    by compute_done.
  split_and!; [exact Hv | exact Hc | exact Ho |].
  exact (replace_roundtrip false (filled false 3) "AB" 77 Hv filled_3_inv
           Hc Ho).
Defined.

Lemma get_NULL_iff_witness :
  SymTable_inv false (filled false 3) /\
  SymTable_get false (filled false 3) "AB" <> NULL /\
  SymTable_contains false (filled false 3) "AB" = 1.
Proof.
  assert (Ho : SymTable_get false (filled false 3) "AB" <> NULL)
    by compute_done.
  split_and!; [exact filled_3_inv | exact Ho |].
  exact (proj2 (get_NULL_iff false (filled false 3) "AB" filled_3_inv) Ho).
Defined.

Lemma hash_suffix_witness :
  (7 <= String.length "abcdefg")%nat /\
  hash_reference false ("zzz" ++ "abcdefg") = hash_reference false "abcdefg".
Proof.
  assert (Hl : (7 <= String.length "abcdefg")%nat) by (simpl; lia).
  split; [exact Hl |].
  exact (proj1 (proj2 (hash_suffix false "zzz" "abcdefg") Hl)).
Defined.

Lemma load_bound_witness :
  SymTable_new 16 64 = Some fresh /\
  steps_served false fresh (filled false 1) /\
  currentPrimeIndex (filled false 1) + 1 < PRIME_COUNT /\
  4 * (SymTable_getLength (filled false 1) - 1)
  <= 3 * bucketCount (filled false 1).
Proof.
  assert (Hs : steps_served false fresh (filled false 1)).
  { apply (served_step false fresh fresh
             (OpPut "AA" 1000 (allocs_at 0)) (filled false 1)).
    - constructor.
    - right. split; compute_done.
    - compute_done.
    - reflexivity. }
  assert (Hi : currentPrimeIndex (filled false 1) + 1 < PRIME_COUNT)
    by compute_done.
  split_and!; [reflexivity | exact Hs | exact Hi |].
  exact (load_bound false 16 64 fresh (filled false 1) fresh_new Hs Hi).
Defined.

Lemma free_releases_owned_witness :
  SymTable_inv false (filled false 3) /\
  Z.of_nat (length (SymTable_free 16 64 (filled false 3)))
  = 2 * SymTable_getLength (filled false 3) + 2.
Proof.
  split; [exact filled_3_inv |].
  apply (free_releases_owned false 16 64 (filled false 3) filled_3_inv).
Defined.

Lemma list_put_contract_witness :
  SymTableList.SymTable_contains (list_filled 3) "AA" = 1 /\
  SymTableList.SymTable_put (list_filled 3) "AA" 7
    {| SymTableList.malloc_psNewNode := 8000;
       SymTableList.malloc_pcKey := 8032 |}
  = (0, list_filled 3).
Proof.
  assert (Hc : SymTableList.SymTable_contains (list_filled 3) "AA" = 1)
    by compute_done.
  split; [exact Hc |].
  exact (proj1 (list_put_contract (list_filled 3) "AA" 7 _) Hc).
Defined.

Lemma list_remove_contract_witness :
  SymTableList.SymTable_inv (list_filled 3) /\
  SymTableList.SymTable_contains (list_filled 3) "AB" = 1 /\
  (SymTableList.SymTable_remove (list_filled 3) "AB").1
  = SymTableList.SymTable_get (list_filled 3) "AB".
Proof.
  assert (Hc : SymTableList.SymTable_contains (list_filled 3) "AB" = 1)
    by compute_done.
  destruct (list_remove_contract (list_filled 3) "AB" list_filled_3_inv)
    as (R1 & _).
  split_and!; [exact list_filled_3_inv | exact Hc | apply (R1 Hc)].
Defined.

Lemma list_replace_contract_witness :
  SymTableList.SymTable_inv (list_filled 3) /\
  SymTableList.SymTable_contains (list_filled 3) "AB" = 1 /\
  SymTableList.SymTable_get
    (SymTableList.SymTable_replace (list_filled 3) "AB" NULL).2 "AB" = NULL.
Proof.
  assert (Hc : SymTableList.SymTable_contains (list_filled 3) "AB" = 1)
    by compute_done.
  destruct (list_replace_contract (list_filled 3) "AB" NULL
              list_filled_3_inv) as (R1 & _).
  split_and!; [exact list_filled_3_inv | exact Hc | apply (R1 Hc)].
Defined.

Lemma list_hash_equivalence_witness :
  Interface.calls_pre false fresh session /\
  (Interface.run_list list_fresh session).1 = [1; 1; 0; 1; 2; 0; 1; 0; 1] /\
  exists th,
    Interface.run_hash false fresh session
    = Some ((Interface.run_list list_fresh session).1, th).
Proof.
  assert (Hpre : Interface.calls_pre false fresh session) by compute_done.
  destruct (list_hash_equivalence false 16 64 16 fresh list_fresh session
              fresh_new eq_refl Hpre) as (th & R1 & _).
  split_and!; [exact Hpre | reflexivity |].
  now exists th.
Defined.

Lemma rev2_get_NULL_iff_absent_witness :
  SymTableList.SymTable_new 16 = Some list_fresh /\
  SymTableListRev2.steps list_fresh (list_filled 1) /\
  (SymTableList.SymTable_get (list_filled 1) "ZZ" = NULL <->
   SymTableList.SymTable_contains (list_filled 1) "ZZ" = 0).
Proof.
  assert (Hs : SymTableListRev2.steps list_fresh (list_filled 1)).
  { apply (SymTableListRev2.rev2_step list_fresh list_fresh
             (SymTableListRev2.Rev2Put "AA" 1000
                {| SymTableList.malloc_psNewNode := 4096;
                   SymTableList.malloc_pcKey := 4128 |}) (list_filled 1)).
    - constructor.
    - reflexivity. }
  split_and!; [reflexivity | exact Hs |].
  apply (rev2_get_NULL_iff_absent 16 list_fresh (list_filled 1) eq_refl Hs).
Defined.

End ConcreteFurther.
